(** * sql_exporter: query execution and row-to-metric mapping

    A shallow embedding of [query.go] and [sql.go] of the exporter, and the
    properties of its column classifier, row scanner, row pipeline,
    collection driver and connection-descriptor expansion.

    Conventions of the embedding.
    - Go maps ([columnTypeMap], [map[string]any]) are stdpp [gmap]s.  A map
      that is shared by reference and written in place lives in the heap of
      the [World] and is named by its address.
    - Functions with effects (the structured log, the wall clock, map
      allocation and update, the output channel, the process environment)
      are written in a state monad [M] over [World].
    - Fallible functions return [result]; a Go panic is a separate outcome.
    - [float64] is the IEEE-754 binary64 format of the Standard Library's
      [SpecFloat]; [time.Time] is an instant on the nanosecond time line.
    - What the Go standard library and the packages of the exporter that are
      not part of these two files provide (value formatting, timestamp
      parsing, driver conversions, the metric-family collector) is a field
      of the class [External]; every result holds for all its instances.
    - [slog.Debug] records are below the default log level and carry no
      control flow; they are not modelled.  [slog.Warn] and [slog.Error]
      records are. *)

From Stdlib Require Import ZArith Lia Ascii String List DecimalString.
From Stdlib Require Import Floats.SpecFloat.
From stdpp Require Import base option list gmap strings fin_maps.

Local Open Scope Z_scope.

(** ** Results of fallible calls *)

Inductive result (E A : Type) : Type :=
| Ok (a : A)
| Err (e : E).
Arguments Ok {E A} a.
Arguments Err {E A} e.

Definition rbind {E A B} (r : result E A) (k : A -> result E B) : result E B :=
  match r with
  | Ok a => k a
  | Err e => Err e
  end.

Notation "x <-? r ; k" := (rbind r (fun x => k))
  (at level 100, r at next level, right associativity).

(** ** Errors

    [errors.WithContext] of the exporter: an error together with the logical
    context it was raised in.  The causes are the ones these two files
    construct, and the opaque errors handed back by [database/sql], the
    driver and the context. *)

Inductive cause : Type :=
| ColumnConflict (column : string)
    (* "column %q used both as key and value" *)
| MissingValues (missing : list string)
    (* "Missing values for the requested columns: %q" *)
| Foreign (msg : string)
    (* an error value produced outside these files *)
| Wrapped (prefix : string) (inner : cause).
    (* errors.Wrapf: the inner error under a message prefix *)

Record WithContext : Type := mkWithContext {
  Context : string;
  Cause : cause
}.

(** Modelled from the spec: package [errors] of the exporter is not part of
    the two source files.  [Errorf] builds a new error in a context, [Wrap]
    attaches the context to an error and maps the nil error to nil, [Wrapf]
    does the same under a message. *)
Definition Errorf (logContext : string) (c : cause) : WithContext :=
  mkWithContext logContext c.

Definition Wrap (logContext : string) (err : option cause) : option WithContext :=
  match err with
  | None => None
  | Some c => Some (mkWithContext logContext c)
  end.

Definition Wrapf (logContext : string) (err : cause) (msg : string) : WithContext :=
  mkWithContext logContext (Wrapped msg err).

(** ** Configuration records (package [config])

    Only the fields read by [query.go]. *)

Record LagCalculation : Type := mkLagCalculation {
  SourceColumn : string;
  OutputColumn : string;
  TimestampFormat : string
}.

Record RowFilter : Type := mkRowFilter {
  Column : string;
  Operator : string;
  Value : string;
  Values : list string
}.

Record MetricConfig : Type := mkMetricConfig {
  KeyLabels : list string;
  ValueColumns : list string;           (* field [Values] of the Go struct *)
  TimestampValue : string;
  RowFilters : list RowFilter;
  LagCalculations : list LagCalculation;
  ColumnFilters : list string
}.

Record QueryConfig : Type := mkQueryConfig {
  Name : string;
  QueryText : string;                   (* field [Query] of the Go struct *)
  NoPreparedStatement : bool
}.

(** A metric family, as far as the query sees it: its configuration.  An
    identifier tells two families with equal configuration apart. *)
Record MetricFamily : Type := mkMetricFamily {
  mfId : nat;
  config : MetricConfig
}.

(** ** Column roles *)

Inductive columnType : Type :=
| columnTypeKey
| columnTypeValue
| columnTypeTime.

#[global] Instance columnType_eq_dec : EqDecision columnType.
Proof. solve_decision. Defined.

Abbreviation columnTypeMap := (gmap string columnType).

(** * Values, time and the runtime world *)

(** ** float64 *)

Definition float64 : Type := spec_float.

Definition f64_prec : Z := 53.
Definition f64_emax : Z := 1024.

Definition f64_zero : float64 := S754_zero false.
Definition f64_of_int (n : Z) : float64 := binary_normalize f64_prec f64_emax n 0 false.
Definition f64_add (x y : float64) : float64 := SFadd f64_prec f64_emax x y.
Definition f64_div (x y : float64) : float64 := SFdiv f64_prec f64_emax x y.

(** Go's [x != y] on float64: IEEE comparison, so a NaN differs from
    everything and the two zeros are equal. *)
Definition f64_neq (x y : float64) : bool := negb (SFeqb x y).

(** ** time.Time and time.Duration

    An instant is its distance from the Unix epoch in nanoseconds.  A
    [Duration] is an int64 count of nanoseconds; [Time.Sub] saturates. *)

Definition Time : Type := Z.
Definition Duration : Type := Z.

Definition minDuration : Duration := - 2 ^ 63.
Definition maxDuration : Duration := 2 ^ 63 - 1.
Definition Second : Duration := 1000000000.

(** The zero [time.Time], January 1 of year 1 at 00:00:00 UTC. *)
Definition zeroTime : Time := - 62135596800 * Second.

Definition Sub (t u : Time) : Duration :=
  let d := t - u in
  if d <? minDuration then minDuration
  else if maxDuration <? d then maxDuration
  else d.

(** [Duration.Seconds]: integer division and remainder truncate towards
    zero in Go. *)
Definition Seconds (d : Duration) : float64 :=
  let sec := Z.quot d Second in
  let nsec := Z.rem d Second in
  f64_add (f64_of_int sec) (f64_div (f64_of_int nsec) (f64_of_int 1000000000)).

(** ** Dynamic values ([any]) stored in a row

    The three nullable structs of [database/sql] that [scanRow] stores, and
    what else the type switches of [applyRowFilter] and [calculateLag]
    distinguish: a plain Go string, the nil interface, and any other value,
    kept with its [%v] rendering. *)

Inductive any : Type :=
| NullString (s : string) (valid : bool)
| NullFloat64 (f : float64) (valid : bool)
| NullTime (t : Time) (valid : bool)
| GoString (s : string)
| GoNil
| GoOther (rendered : string).

Abbreviation Row := (gmap string any).

(** ** Values handed over by the driver ([driver.Value]) *)

Inductive driverValue : Type :=
| DNull
| DInt64 (n : Z)
| DFloat64 (f : float64)
| DBool (b : bool)
| DBytes (b : string)
| DString (s : string)
| DTime (t : Time).

(** ** Metrics on the output channel *)

Inductive Metric : Type :=
| InvalidMetric (err : WithContext)
| Sample (family : nat) (payload : string).

Definition NewInvalidMetric (err : WithContext) : Metric := InvalidMetric err.

(** ** What the code calls but does not define

    - [TrimMissingCtx]: package-level helper of the exporter.
    - [Sprint_float64]: [fmt.Sprintf("%v", f)] for a float64.
    - [Time_Format t layout]: [t.Format(layout)].
    - [Time_Parse layout value]: [time.Parse(layout, value)].
    - [convertAssign_*]: what [database/sql] stores in a string, float64 or
      time destination for a driver value that is not NULL, or the
      conversion error.
    - [mfCollect mf row]: [MetricFamily.Collect]; the metrics it sends on
      the channel, and the content it leaves in the map it was given. *)

Class External : Type := {
  TrimMissingCtx : string -> string;
  Sprint_float64 : float64 -> string;
  Time_Format : Time -> string -> string;
  Time_Parse : string -> string -> result string Time;
  convertAssign_string : driverValue -> result cause string;
  convertAssign_float64 : driverValue -> result cause float64;
  convertAssign_Time : driverValue -> result cause Time;
  mfCollect : MetricFamily -> Row -> list Metric * Row
}.

(** ** The log *)

Inductive logLevel : Type := LevelWarn | LevelError.

Record LogEvent : Type := mkLogEvent {
  level : logLevel;
  message : string;
  attrs : list (string * string)
}.

(** ** The world the effectful functions run in *)

Definition loc : Type := positive.

Record World : Type := mkWorld {
  heap : gmap loc Row;            (* the Go maps of type map[string]any, by address *)
  log : list LogEvent;            (* records written so far, oldest first *)
  clock : nat -> Time;            (* the n-th reading of time.Now *)
  ticks : nat;                    (* readings taken so far *)
  chan : list Metric;             (* metrics sent on the channel, oldest first *)
  environ : gmap string string    (* the process environment *)
}.

Definition M (A : Type) : Type := World -> A * World.

Definition ret {A} (a : A) : M A := fun w => (a, w).

Definition bind {A B} (m : M A) (k : A -> M B) : M B :=
  fun w => let (a, w') := m w in k a w'.

Notation "x <- m ;; k" := (bind m (fun x => k))
  (at level 100, m at next level, right associativity).
Notation "m ;;; k" := (bind m (fun _ => k))
  (at level 100, right associativity).

Definition set_heap (h : gmap loc Row) (w : World) : World :=
  mkWorld h (log w) (clock w) (ticks w) (chan w) (environ w).

(** The content of the map at an address; the nil map reads as empty. *)
Definition rowAt (w : World) (l : loc) : Row := default ∅ (heap w !! l).

(** [make(map[string]any)]: a fresh address holding the empty map. *)
Definition make_map : M loc :=
  fun w => let l := fresh (dom (heap w)) in (l, set_heap (<[l := ∅]> (heap w)) w).

(** [v, ok := m[k]]. *)
Definition map_get (l : loc) (k : string) : M (option any) :=
  fun w => (rowAt w l !! k, w).

(** [m[k] = v].  The code writes to maps it has made; a write to the nil
    map, at which Go panics, does not occur and is left without effect. *)
Definition map_set (l : loc) (k : string) (v : any) : M unit :=
  fun w => (tt, set_heap (alter (fun r => <[k := v]> r) l (heap w)) w).

(** The entries a [range] over the map visits.  Go leaves the order
    unspecified; the model visits them in the order of [map_to_list]. *)
Definition map_range (l : loc) : M (list (string * any)) :=
  fun w => (map_to_list (rowAt w l), w).

Definition slog (lv : logLevel) (msg : string) (kv : list (string * string)) : M unit :=
  fun w => (tt, mkWorld (heap w) (log w ++ [mkLogEvent lv msg kv]) (clock w) (ticks w)
                        (chan w) (environ w)).

(** [time.Now()]. *)
Definition time_Now : M Time :=
  fun w => (clock w (ticks w),
            mkWorld (heap w) (log w) (clock w) (S (ticks w)) (chan w) (environ w)).

(** [time.Since(t)]. *)
Definition time_Since (t : Time) : M Duration :=
  now <- time_Now ;; ret (Sub now t).

(** [ch <- m]. *)
Definition send (m : Metric) : M unit :=
  fun w => (tt, mkWorld (heap w) (log w) (clock w) (ticks w) (chan w ++ [m]) (environ w)).

(** [os.LookupEnv]. *)
Definition LookupEnv (key : string) : M (option string) :=
  fun w => (environ w !! key, w).

(** A loop over a slice whose body has no result. *)
Fixpoint forM_ {A} (l : list A) (body : A -> M unit) : M unit :=
  match l with
  | [] => ret tt
  | x :: rest => body x ;;; forM_ rest body
  end.

(** ** The query object *)

Definition DB : Type := positive.       (* a *sql.DB, by address *)

Record Stmt : Type := mkStmt {
  stmtDB : DB;
  stmtText : string
}.

Record Query : Type := mkQuery {
  qconfig : QueryConfig;
  metricFamilies : list MetricFamily;
  columnTypes : columnTypeMap;
  logContext : string;
  conn : option DB;
  stmt : option Stmt
}.

(** * Column classifier *)

Module Classifier.
Section Classifier.
Context {ext : External}.

(** [setColumnType]: the map is updated in place in Go; here the updated map
    is returned next to the nil error. *)
Definition setColumnType (logContext columnName : string) (ctype : columnType)
    (columnTypes : columnTypeMap) : result WithContext columnTypeMap :=
  match columnTypes !! columnName with
  | Some previousType =>
      if decide (previousType <> ctype)
      then Err (Errorf logContext (ColumnConflict columnName))
      else Ok columnTypes
  | None => Ok (<[columnName := ctype]> columnTypes)
  end.

(** The five registration loops of [NewQuery], for one metric family. *)

Fixpoint lagCalcLoop (logContext : string) (lcs : list LagCalculation)
    (transformedColumns : gset string) (columnTypes : columnTypeMap)
    : result WithContext (gset string * columnTypeMap) :=
  match lcs with
  | [] => Ok (transformedColumns, columnTypes)
  | lagCalc :: rest =>
      let transformedColumns := {[ OutputColumn lagCalc ]} ∪ transformedColumns in
      columnTypes <-? setColumnType logContext (SourceColumn lagCalc) columnTypeKey columnTypes ;
      lagCalcLoop logContext rest transformedColumns columnTypes
  end.

Fixpoint rowFilterLoop (logContext : string) (fs : list RowFilter)
    (columnTypes : columnTypeMap) : result WithContext columnTypeMap :=
  match fs with
  | [] => Ok columnTypes
  | filter :: rest =>
      columnTypes <-? setColumnType logContext (Column filter) columnTypeKey columnTypes ;
      rowFilterLoop logContext rest columnTypes
  end.

Fixpoint keyLabelLoop (logContext : string) (ks : list string)
    (columnTypes : columnTypeMap) : result WithContext columnTypeMap :=
  match ks with
  | [] => Ok columnTypes
  | kcol :: rest =>
      columnTypes <-? setColumnType logContext kcol columnTypeKey columnTypes ;
      keyLabelLoop logContext rest columnTypes
  end.

Fixpoint valueLoop (logContext : string) (vs : list string)
    (transformedColumns : gset string) (columnTypes : columnTypeMap)
    : result WithContext columnTypeMap :=
  match vs with
  | [] => Ok columnTypes
  | vcol :: rest =>
      if decide (vcol ∈ transformedColumns)
      then valueLoop logContext rest transformedColumns columnTypes
      else
        columnTypes <-? setColumnType logContext vcol columnTypeValue columnTypes ;
        valueLoop logContext rest transformedColumns columnTypes
  end.

Definition timestampStep (logContext : string) (ts : string)
    (columnTypes : columnTypeMap) : result WithContext columnTypeMap :=
  if decide (ts <> EmptyString)
  then setColumnType logContext ts columnTypeTime columnTypes
  else Ok columnTypes.

(** The body of the loop over metric families. *)
Definition familyStep (logContext : string) (mf : MetricFamily)
    (columnTypes : columnTypeMap) : result WithContext columnTypeMap :=
  r <-? lagCalcLoop logContext (LagCalculations (config mf)) ∅ columnTypes ;
  columnTypes <-? rowFilterLoop logContext (RowFilters (config mf)) (snd r) ;
  columnTypes <-? keyLabelLoop logContext (KeyLabels (config mf)) columnTypes ;
  columnTypes <-? valueLoop logContext (ValueColumns (config mf)) (fst r) columnTypes ;
  timestampStep logContext (TimestampValue (config mf)) columnTypes.

Fixpoint familyLoop (logContext : string) (mfs : list MetricFamily)
    (columnTypes : columnTypeMap) : result WithContext columnTypeMap :=
  match mfs with
  | [] => Ok columnTypes
  | mf :: rest =>
      columnTypes <-? familyStep logContext mf columnTypes ;
      familyLoop logContext rest columnTypes
  end.

(** The log context of a query: [fmt.Sprintf("%s,query=%s", ...)] trimmed. *)
Definition queryContext (logContext : string) (qc : QueryConfig) : string :=
  TrimMissingCtx (logContext +:+ ",query=" +:+ Name qc).

Definition NewQuery (logContext : string) (qc : QueryConfig)
    (metricFamilies : list MetricFamily) : result WithContext Query :=
  let logContext := queryContext logContext qc in
  columnTypes <-? familyLoop logContext metricFamilies ∅ ;
  Ok (mkQuery qc metricFamilies columnTypes logContext None None).

End Classifier.
End Classifier.

(** * Row pipeline *)

Module Pipeline.
Section Pipeline.
Context {ext : External}.

(** The layout of Trino timestamps, used by the filters and as the default
    of the lag calculation. *)
Definition trinoLayout : string := "2006-01-02 15:04:05.000 UTC".

(** The layout behind [Time.String]. *)
Definition stringLayout : string := "2006-01-02 15:04:05.999999999 -0700 MST".

Definition Sprint_bool (b : bool) : string := if b then "true" else "false".

(** [fmt.Sprintf("%v", value)] on a dynamic value; a struct prints as its
    fields between braces. *)
Definition Sprint (value : any) : string :=
  match value with
  | NullString s valid => "{" +:+ s +:+ " " +:+ Sprint_bool valid +:+ "}"
  | NullFloat64 f valid => "{" +:+ Sprint_float64 f +:+ " " +:+ Sprint_bool valid +:+ "}"
  | NullTime t valid => "{" +:+ Time_Format t stringLayout +:+ " " +:+ Sprint_bool valid +:+ "}"
  | GoString s => s
  | GoNil => "<nil>"
  | GoOther rendered => rendered
  end.

(** [strings.Contains]. *)
Fixpoint Contains (s substr : string) : bool :=
  if String.prefix substr s then true
  else match s with
       | EmptyString => false
       | String _ rest => Contains rest substr
       end.

(** The loop of the [in] and [not_in] operators: is [valueStr] one of the
    configured values. *)
Fixpoint oneOf (valueStr : string) (values : list string) : bool :=
  match values with
  | [] => false
  | v :: rest => if String.eqb valueStr v then true else oneOf valueStr rest
  end.

(** The switch on [filter.Operator]. *)
Definition applyOperator (filter : RowFilter) (valueStr : string) : M bool :=
  if String.eqb (Operator filter) "equals" then ret (String.eqb valueStr (Value filter))
  else if String.eqb (Operator filter) "not_equals" then ret (negb (String.eqb valueStr (Value filter)))
  else if String.eqb (Operator filter) "in" then ret (oneOf valueStr (Values filter))
  else if String.eqb (Operator filter) "not_in" then ret (negb (oneOf valueStr (Values filter)))
  else if String.eqb (Operator filter) "contains" then ret (Contains valueStr (Value filter))
  else
    slog LevelWarn "Unknown filter operator" [("operator", Operator filter)] ;;;
    ret true.

(** [applyRowFilter]: the lookup, the type switch, then the operator. *)
Definition applyRowFilter (row : loc) (filter : RowFilter) : M bool :=
  found <- map_get row (Column filter) ;;
  match found with
  | None => ret false
  | Some value =>
      match value with
      | NullString s valid =>
          if negb valid then ret false else applyOperator filter s
      | NullFloat64 f valid =>
          if negb valid then ret false else applyOperator filter (Sprint_float64 f)
      | NullTime t valid =>
          if negb valid then ret false else applyOperator filter (Time_Format t trinoLayout)
      | _ => applyOperator filter (Sprint value)
      end
  end.

(** [shouldIncludeRow]: the first filter that does not match ends the loop. *)
Fixpoint filterLoop (row : loc) (filters : list RowFilter) : M bool :=
  match filters with
  | [] => ret true
  | filter :: rest =>
      ok <- applyRowFilter row filter ;;
      if negb ok then ret false else filterLoop row rest
  end.

Definition shouldIncludeRow (row : loc) (metric : MetricConfig) : M bool :=
  filterLoop row (RowFilters metric).

(** The tail of [calculateLag], from the check for the empty string on. *)
Definition lagFromString (timestampStr format : string) : M float64 :=
  if decide (timestampStr = EmptyString) then ret f64_zero
  else
    let format := if decide (format = EmptyString) then trinoLayout else format in
    match Time_Parse format timestampStr with
    | Err err =>
        slog LevelWarn "Failed to parse timestamp for lag calculation"
             [("timestamp", timestampStr); ("format", format); ("error", err)] ;;;
        ret f64_zero
    | Ok parsedTime =>
        d <- time_Since parsedTime ;;
        ret (Seconds d)
    end.

Definition calculateLag (timestampValue : any) (format : string) : M float64 :=
  match timestampValue with
  | GoNil => ret f64_zero
  | NullString s valid =>
      if negb valid then ret f64_zero else lagFromString s format
  | NullTime t valid =>
      if negb valid then ret f64_zero
      else d <- time_Since t ;; ret (Seconds d)
  | GoString s => lagFromString s format
  | _ => lagFromString (Sprint timestampValue) format
  end.

(** The body of the loop over the lag calculations: reads [row], writes
    [result]. *)
Definition lagStep (row result : loc) (lagCalc : LagCalculation) : M unit :=
  found <- map_get row (SourceColumn lagCalc) ;;
  match found with
  | Some sourceValue =>
      lagSeconds <- calculateLag sourceValue (TimestampFormat lagCalc) ;;
      map_set result (OutputColumn lagCalc)
              (NullFloat64 lagSeconds (f64_neq lagSeconds f64_zero))
  | None => ret tt
  end.

(** The body of the loop over the column allow-list. *)
Definition columnStep (result filtered : loc) (column : string) : M unit :=
  found <- map_get result column ;;
  match found with
  | Some value => map_set filtered column value
  | None => ret tt
  end.

Definition applyTransformations (row : loc) (metric : MetricConfig) : M loc :=
  result <- make_map ;;
  entries <- map_range row ;;
  forM_ entries (fun kv => map_set result (fst kv) (snd kv)) ;;;
  forM_ (LagCalculations metric) (lagStep row result) ;;;
  if (0 <? length (ColumnFilters metric))%nat then
    filtered <- make_map ;;
    forM_ (ColumnFilters metric) (columnStep result filtered) ;;;
    ret filtered
  else ret result.

End Pipeline.
End Pipeline.

(** * Row scanner *)

(** What a Go function leaves behind: a value, a non-nil error, or a panic. *)
Inductive outcome (A : Type) : Type :=
| Returned (a : A)
| Failed (e : WithContext)
| Panicked (msg : string).
Arguments Returned {A} a.
Arguments Failed {A} e.
Arguments Panicked {A} msg.

Module Scanner.
Section Scanner.
Context {ext : External}.

(** ** The cursor ([*sql.Rows])

    The cursor, its methods and the [Scan] methods of the nullable types are
    those of package [database/sql] of the Go standard library. *)

Record Rows : Type := mkRows {
  rowsColumns : list string;                   (* the column names of the result set *)
  rowsClosed : bool;
  rowsCurrent : option (list driverValue);     (* the row [Next] has prepared *)
  rowsPending : list (list driverValue);       (* the rows still to come *)
  rowsErr : option cause                       (* what [Err] reports after the last row *)
}.

Definition errRowsClosed : cause := Foreign "sql: Rows are closed".
Definition errScanWithoutNext : cause := Foreign "sql: Scan called without calling Next".
Definition errDestArguments (want got : nat) : cause :=
  Foreign ("sql: expected " +:+ NilZero.string_of_uint (Nat.to_uint want)
           +:+ " destination arguments in Scan, not "
           +:+ NilZero.string_of_uint (Nat.to_uint got)).

(** [rows.Columns()]. *)
Definition Columns (rows : Rows) : result cause (list string) :=
  if rowsClosed rows then Err errRowsClosed else Ok (rowsColumns rows).

(** [rows.Next()]: prepares the next row, or closes the cursor at the end. *)
Definition Next (rows : Rows) : bool * Rows :=
  match rowsPending rows with
  | [] => (false, mkRows (rowsColumns rows) true None [] (rowsErr rows))
  | values :: rest =>
      (true, mkRows (rowsColumns rows) (rowsClosed rows) (Some values) rest (rowsErr rows))
  end.

(** The cursor after a call of [Next] that prepared the row [values], with
    the rows [rest] still to come. *)
Definition positioned (rows : Rows) (values : list driverValue)
    (rest : list (list driverValue)) : Rows :=
  mkRows (rowsColumns rows) (rowsClosed rows) (Some values) rest (rowsErr rows).

(** ** Destination slots

    The cells the elements of [dest] point to.  They are allocated once by
    [scanDest] and overwritten by every [Scan]. *)

Inductive Slot : Type :=
| SlotString (s : string) (valid : bool)       (* *sql.NullString *)
| SlotFloat64 (f : float64) (valid : bool)     (* *sql.NullFloat64 *)
| SlotTime (t : Time) (valid : bool)           (* *sql.NullTime *)
| SlotAny (v : driverValue).                   (* *any *)

(** The [Scan] method of a destination on one driver value: NULL clears the
    cell and marks it invalid; anything else marks it valid and converts,
    and a failed conversion leaves the old payload under the valid mark. *)
Definition scanSlot (slot : Slot) (value : driverValue) : option cause * Slot :=
  match slot with
  | SlotString old _ =>
      match value with
      | DNull => (None, SlotString EmptyString false)
      | _ => match convertAssign_string value with
             | Ok s => (None, SlotString s true)
             | Err e => (Some e, SlotString old true)
             end
      end
  | SlotFloat64 old _ =>
      match value with
      | DNull => (None, SlotFloat64 f64_zero false)
      | _ => match convertAssign_float64 value with
             | Ok f => (None, SlotFloat64 f true)
             | Err e => (Some e, SlotFloat64 old true)
             end
      end
  | SlotTime old _ =>
      match value with
      | DNull => (None, SlotTime zeroTime false)
      | _ => match convertAssign_Time value with
             | Ok t => (None, SlotTime t true)
             | Err e => (Some e, SlotTime old true)
             end
      end
  | SlotAny _ => (None, SlotAny value)
  end.

(** The conversion loop of [Rows.Scan]: stops at the first error, the cells
    before it already overwritten. *)
Fixpoint scanLoop (values : list driverValue) (dest : list Slot) : option cause * list Slot :=
  match values, dest with
  | value :: values', slot :: dest' =>
      match scanSlot slot value with
      | (Some e, slot') => (Some (Wrapped "sql: Scan error on column" e), slot' :: dest')
      | (None, slot') =>
          let (err, rest) := scanLoop values' dest' in (err, slot' :: rest)
      end
  | _, _ => (None, dest)
  end.

(** [rows.Scan(dest...)]. *)
Definition Scan (rows : Rows) (dest : list Slot) : option cause * list Slot :=
  if rowsClosed rows then (Some errRowsClosed, dest)
  else match rowsCurrent rows with
       | None => (Some errScanWithoutNext, dest)
       | Some values =>
           if decide (length dest <> length values)
           then (Some (errDestArguments (length values) (length dest)), dest)
           else scanLoop values dest
       end.

(** ** scanDest *)

Fixpoint destLoop (columnTypes : columnTypeMap) (columns : list string)
    (dest : list Slot) (have : gset string) : list Slot * gset string :=
  match columns with
  | [] => (dest, have)
  | column :: rest =>
      match columnTypes !! column with
      | Some columnTypeKey =>
          destLoop columnTypes rest (dest ++ [SlotString EmptyString false]) ({[column]} ∪ have)
      | Some columnTypeValue =>
          destLoop columnTypes rest (dest ++ [SlotFloat64 f64_zero false]) ({[column]} ∪ have)
      | Some columnTypeTime =>
          destLoop columnTypes rest (dest ++ [SlotTime zeroTime false]) ({[column]} ∪ have)
      | None =>
          destLoop columnTypes rest (dest ++ [SlotAny DNull]) have
      end
  end.

(** The requested columns that are not in [have], in the order the range
    over [columnTypes] visits them. *)
Definition missingColumns (columnTypes : columnTypeMap) (have : gset string) : list string :=
  filter (fun c => c ∉ have) (map fst (map_to_list columnTypes)).

Definition scanDest (q : Query) (rows : Rows) : result WithContext (list Slot) :=
  match Columns rows with
  | Err err => Err (mkWithContext (logContext q) err)
  | Ok columns =>
      let (dest, have) := destLoop (columnTypes q) columns [] ∅ in
      if decide (size have <> size (columnTypes q)) then
        Err (Errorf (logContext q) (MissingValues (missingColumns (columnTypes q) have)))
      else Ok dest
  end.

(** ** scanRow *)

(** The loop that picks the interesting cells into the result map.  The type
    assertion on [dest[i]] panics when the cell is of another kind. *)
Fixpoint pickLoop (columnTypes : columnTypeMap) (result : loc) (columns : list string)
    (dest : list Slot) : M (outcome unit) :=
  match columns with
  | [] => ret (Returned tt)
  | column :: columns' =>
      match dest with
      | [] => ret (Panicked "index out of range")
      | slot :: dest' =>
          match columnTypes !! column, slot with
          | Some columnTypeKey, SlotString s valid =>
              map_set result column (NullString s valid) ;;;
              pickLoop columnTypes result columns' dest'
          | Some columnTypeTime, SlotTime t valid =>
              map_set result column (NullTime t valid) ;;;
              pickLoop columnTypes result columns' dest'
          | Some columnTypeValue, SlotFloat64 f valid =>
              map_set result column (NullFloat64 f valid) ;;;
              pickLoop columnTypes result columns' dest'
          | Some _, _ => ret (Panicked "interface conversion")
          | None, _ => pickLoop columnTypes result columns' dest'
          end
      end
  end.

(** [scanRow] returns the address of the new row, next to the state it
    leaves the cells of [dest] in. *)
Definition scanRow (q : Query) (rows : Rows) (dest : list Slot) : M (outcome loc * list Slot) :=
  match Columns rows with
  | Err err => ret (Failed (mkWithContext (logContext q) err), dest)
  | Ok columns =>
      match Scan rows dest with
      | (Some err, dest') =>
          ret (Failed (Wrapf (logContext q) err "scanning of query result failed"), dest')
      | (None, dest') =>
          result <- make_map ;;
          picked <- pickLoop (columnTypes q) result columns dest' ;;
          match picked with
          | Returned _ => ret (Returned result, dest')
          | Failed e => ret (Failed e, dest')
          | Panicked msg => ret (Panicked msg, dest')
          end
      end
  end.

End Scanner.
End Scanner.

(** * Collection driver *)

Module Driver.
Section Driver.
Context {ext : External}.

Import Scanner Pipeline.

(** What the database answers to the calls of one execution. *)
Record Database : Type := mkDatabase {
  QueryContext : DB -> string -> result cause Rows;       (* conn.QueryContext(ctx, text) *)
  PrepareContext : DB -> string -> result cause Stmt;     (* conn.PrepareContext(ctx, text) *)
  StmtQueryContext : Stmt -> result cause Rows            (* stmt.QueryContext(ctx) *)
}.

Definition set_prepared (q : Query) (c : DB) (s : Stmt) : Query :=
  mkQuery (qconfig q) (metricFamilies q) (columnTypes q) (logContext q) (Some c) (Some s).

Definition wrapRows (q : Query) (r : result cause Rows) : outcome Rows :=
  match r with
  | Ok rows => Returned rows
  | Err err => Failed (mkWithContext (logContext q) err)
  end.

(** The handle check at the top of [run]: [q.conn != nil && q.conn != conn]. *)
Definition otherHandle (q : Query) (c : DB) : bool :=
  match conn q with
  | Some bound => negb (Pos.eqb bound c)
  | None => false
  end.

(** [run]: the cursor or the error, and the query with the fields [conn] and
    [stmt] as the call leaves them. *)
Definition run (db : Database) (q : Query) (c : DB) : outcome Rows * Query :=
  if otherHandle q c then
    (Panicked ("[" +:+ logContext q +:+ "] Expecting to always run on the same database handle"), q)
  else if NoPreparedStatement (qconfig q) then
    (wrapRows q (QueryContext db c (QueryText (qconfig q))), q)
  else
    match stmt q with
    | None =>
        match PrepareContext db c (QueryText (qconfig q)) with
        | Err err => (Failed (Wrapf (logContext q) err "prepare query failed"), q)
        | Ok s =>
            let q := set_prepared q c s in
            (wrapRows q (StmtQueryContext db s), q)
        end
    | Some s => (wrapRows q (StmtQueryContext db s), q)
    end.

(** The counters of the summary [Collect] logs at the end. *)
Record Summary : Type := mkSummary {
  rows_processed : nat;
  rows_filtered : nat;
  metrics_generated : nat
}.

(** The call [mf.Collect(transformedRow, ch)]: the collaborator sends its
    metrics and may write to the map it was handed. *)
Definition callCollect (mf : MetricFamily) (transformedRow : loc) : M unit :=
  fun w =>
    let (metrics, left) := mfCollect mf (rowAt w transformedRow) in
    (tt, mkWorld (<[transformedRow := left]> (heap w)) (log w) (clock w) (ticks w)
                 (chan w ++ metrics) (environ w)).

(** The loop over the metric families, for one scanned row. *)
Fixpoint familiesLoop (row : loc) (mfs : list MetricFamily) (s : Summary) : M Summary :=
  match mfs with
  | [] => ret s
  | mf :: rest =>
      ok <- shouldIncludeRow row (config mf) ;;
      if negb ok then
        familiesLoop row rest
          (mkSummary (rows_processed s) (S (rows_filtered s)) (metrics_generated s))
      else
        transformedRow <- applyTransformations row (config mf) ;;
        callCollect mf transformedRow ;;;
        familiesLoop row rest
          (mkSummary (rows_processed s) (rows_filtered s) (S (metrics_generated s)))
  end.

(** The loop [for rows.Next()], by recursion on the rows still to come;
    [rows] is the cursor before this call of [Next]. *)
Fixpoint rowsLoop (q : Query) (rows : Rows) (pending : list (list driverValue))
    (dest : list Slot) (s : Summary) : M (outcome Summary) :=
  match pending with
  | [] => ret (Returned s)
  | values :: rest =>
      let s := mkSummary (S (rows_processed s)) (rows_filtered s) (metrics_generated s) in
      scanned <- scanRow q (positioned rows values rest) dest ;;
      match scanned with
      | (Failed err, dest) =>
          send (NewInvalidMetric err) ;;;
          rowsLoop q rows rest dest s
      | (Panicked msg, _) => ret (Panicked msg)
      | (Returned row, dest) =>
          s <- familiesLoop row (metricFamilies q) s ;;
          rowsLoop q rows rest dest s
      end
  end.

(** [Collect].  [ctxErr] is [ctx.Err()] on entry; [IgnoreMissingVals] is the
    global of package [config].  The result is the summary when the row loop
    was run, and the query as [run] leaves it.  The deferred [rows.Close()]
    releases the cursor, which the model drops at that point. *)
Definition Collect (IgnoreMissingVals : bool) (db : Database) (ctxErr : option cause)
    (q : Query) (c : DB) : M (outcome (option Summary) * Query) :=
  match ctxErr with
  | Some err =>
      send (NewInvalidMetric (mkWithContext (logContext q) err)) ;;;
      ret (Returned None, q)
  | None =>
      match run db q c with
      | (Panicked msg, q) => ret (Panicked msg, q)
      | (Failed err, q) =>
          send (NewInvalidMetric err) ;;;
          ret (Returned None, q)
      | (Returned rows, q) =>
          match scanDest q rows with
          | Err err =>
              if IgnoreMissingVals then
                slog LevelWarn "Ignoring missing values" [("logContext", logContext q)] ;;;
                ret (Returned None, q)
              else
                send (NewInvalidMetric err) ;;;
                ret (Returned None, q)
          | Ok dest =>
              looped <- rowsLoop q rows (rowsPending rows) dest (mkSummary 0 0 0) ;;
              match looped with
              | Panicked msg => ret (Panicked msg, q)
              | Failed e => ret (Failed e, q)
              | Returned s =>
                  match rowsErr rows with
                  | Some err1 => send (NewInvalidMetric (mkWithContext (logContext q) err1))
                  | None => ret tt
                  end ;;;
                  ret (Returned (Some s), q)
              end
          end
      end
  end.

End Driver.
End Driver.

(** * Connection descriptor: environment expansion *)

Module Connection.

(** ** [os.Expand]

    Package [os] of the Go standard library: [Expand] with its helpers
    [isShellSpecialVar], [isAlphaNum] and [getShellName]. *)

Definition isShellSpecialVar (c : ascii) : bool :=
  match c with
  | "*" | "#" | "$" | "@" | "!" | "?" | "-"
  | "0" | "1" | "2" | "3" | "4" | "5" | "6" | "7" | "8" | "9" => true
  | _ => false
  end%char.

Definition isAlphaNum (c : ascii) : bool :=
  let n := nat_of_ascii c in
  (Ascii.eqb c "_"
   || (48 <=? n) && (n <=? 57)
   || (97 <=? n) && (n <=? 122)
   || (65 <=? n) && (n <=? 90))%nat.

(** The position of the first closing brace at or after position [i] of the
    text whose rest is [s]. *)
Fixpoint closingBrace (s : string) (i : nat) : option nat :=
  match s with
  | EmptyString => None
  | String c rest => if Ascii.eqb c "}" then Some i else closingBrace rest (S i)
  end.

(** The length of the longest prefix of letters, digits and underscores. *)
Fixpoint alphaNumPrefix (s : string) : nat :=
  match s with
  | EmptyString => O
  | String c rest => if isAlphaNum c then S (alphaNumPrefix rest) else O
  end.

(** The braced form of [getShellName]: [s] is the text after the dollar
    sign and [rest] what follows its opening brace; scan to the closing
    brace. *)
Definition bracedName (s rest : string) : string * nat :=
  match closingBrace rest 1 with
  | Some i =>
      if Nat.eqb i 1 then (EmptyString, 2%nat)       (* bad syntax; eat the empty braces *)
      else (substring 1 (i - 1) s, S i)
  | None => (EmptyString, 1%nat)                     (* bad syntax; eat the opening brace *)
  end.

(** [getShellName]: the name that begins [s] and the number of bytes it
    takes up.  [s] is not empty when [Expand] calls it. *)
Definition getShellName (s : string) : string * nat :=
  match s with
  | EmptyString => (EmptyString, O)
  | String c0 rest =>
      if Ascii.eqb c0 "{" then
        match rest with
        | String c1 (String c2 _) =>
            if isShellSpecialVar c1 && Ascii.eqb c2 "}" then (String c1 EmptyString, 3%nat)
            else bracedName s rest
        | _ => bracedName s rest
        end
      else if isShellSpecialVar c0 then (String c0 EmptyString, 1%nat)
      else let i := alphaNumPrefix s in (substring 0 i s, i)
  end.

(** [os.Expand].  [skip] counts the bytes of a reference still to step
    over (the [j += w] of the loop); the text produced is the result. *)
Fixpoint expandFrom (skip : nat) (s : string) (mapping : string -> M string) : M string :=
  match s with
  | EmptyString => ret EmptyString
  | String c rest =>
      match skip with
      | S k => expandFrom k rest mapping
      | O =>
          if Ascii.eqb c "$" && negb (String.eqb rest EmptyString) then
            let (name, w) := getShellName rest in
            if String.eqb name EmptyString && (0 <? w)%nat then
              expandFrom w rest mapping
            else if String.eqb name EmptyString then
              tail <- expandFrom w rest mapping ;;
              ret (String c tail)
            else
              value <- mapping name ;;
              tail <- expandFrom w rest mapping ;;
              ret (value +:+ tail)
          else
            tail <- expandFrom O rest mapping ;;
            ret (String c tail)
      end
  end.

Definition Expand (s : string) (mapping : string -> M string) : M string :=
  expandFrom O s mapping.

(** ** expandEnv *)

Definition lookupFunc (env : string) : M string :=
  found <- LookupEnv env ;;
  match found with
  | Some value => ret value
  | None =>
      slog LevelError "Environment variable is not found, cannot expand" [("env", env)] ;;;
      ret ("$" +:+ env)
  end.

Definition expandEnv (env : string) : M string :=
  Expand env lookupFunc.

End Connection.

(** * Reference notions used by the statements *)

Module Spec.

(** ** The registrations of a set of metric families

    In the words of the design: for each metric family, the lag-calculation
    source columns, the row-filter columns and the label columns with role
    Key, the value columns not produced by a transformation of that family
    with role Value, and the timestamp-override column, when there is one,
    with role Time. *)

Definition lagOutputs (mf : MetricFamily) : gset string :=
  list_to_set (map OutputColumn (LagCalculations (config mf))).

Definition registrations (mf : MetricFamily) : list (string * columnType) :=
  map (fun lc => (SourceColumn lc, columnTypeKey)) (LagCalculations (config mf))
  ++ map (fun f => (Column f, columnTypeKey)) (RowFilters (config mf))
  ++ map (fun k => (k, columnTypeKey)) (KeyLabels (config mf))
  ++ map (fun v => (v, columnTypeValue))
         (filter (fun v => v ∉ lagOutputs mf) (ValueColumns (config mf)))
  ++ (if decide (TimestampValue (config mf) <> EmptyString)
      then [(TimestampValue (config mf), columnTypeTime)] else []).

Definition allRegistrations (mfs : list MetricFamily) : list (string * columnType) :=
  concat (map registrations mfs).

(** Column [c] is registered with two different roles. *)
Definition conflictOn (regs : list (string * columnType)) (c : string) : Prop :=
  exists t1 t2, (c, t1) ∈ regs /\ (c, t2) ∈ regs /\ t1 <> t2.

(** The role of the first registration of [c]. *)
Fixpoint firstRole (regs : list (string * columnType)) (c : string) : option columnType :=
  match regs with
  | [] => None
  | (c', t) :: rest => if decide (c' = c) then Some t else firstRole rest c
  end.

(** Registering a list of columns one after the other. *)
Fixpoint registerAll (logContext : string) (regs : list (string * columnType))
    (columnTypes : columnTypeMap) : result WithContext columnTypeMap :=
  match regs with
  | [] => Ok columnTypes
  | (c, t) :: rest =>
      columnTypes <-? Classifier.setColumnType logContext c t columnTypes ;
      registerAll logContext rest columnTypes
  end.

(** A column is required by a metric family when the family lists it as the
    source of a lag calculation, as the column of a row filter, as a key
    label, as a value column that none of its own lag calculations produces,
    or as its timestamp column. *)
Definition requiredBy (mf : MetricFamily) (c : string) : Prop :=
  c ∈ map SourceColumn (LagCalculations (config mf))
  \/ c ∈ map Column (RowFilters (config mf))
  \/ c ∈ KeyLabels (config mf)
  \/ (c ∈ ValueColumns (config mf) /\ c ∉ lagOutputs mf)
  \/ (c = TimestampValue (config mf) /\ c <> EmptyString).

(** ** Row filters *)

(** The operators [applyRowFilter] knows. *)
Definition knownOperator (op : string) : bool :=
  bool_decide (op ∈ ["equals"; "not_equals"; "in"; "not_in"; "contains"]).

(** A nullable value that holds NULL. *)
Definition isNull (v : any) : bool :=
  match v with
  | NullString _ valid | NullFloat64 _ valid | NullTime _ valid => negb valid
  | _ => false
  end.

(** ** Frames on the heap *)

(** [w'] has maps at the same addresses as [w], with the same content
    except at the addresses in [L]. *)
Definition sameExcept (L : gset loc) (w w' : World) : Prop :=
  dom (heap w') = dom (heap w) /\ forall l, l ∉ L -> heap w' !! l = heap w !! l.

(** [w'] has every map of [w], with its content, and maybe new ones. *)
Definition preserves (w w' : World) : Prop :=
  forall l, l ∈ dom (heap w) -> heap w' !! l = heap w !! l.

(** The column survives the column allow-list of the metric. *)
Definition survives (metric : MetricConfig) (c : string) : Prop :=
  ColumnFilters metric = [] \/ c ∈ ColumnFilters metric.

(** ** Lag calculation *)

(** What [applyTransformations] stores for a computed lag. *)
Definition lagValue (lagSeconds : float64) : any :=
  NullFloat64 lagSeconds (f64_neq lagSeconds f64_zero).

(** The layout [calculateLag] parses with. *)
Definition effectiveLayout (format : string) : string :=
  if decide (format = EmptyString) then Pipeline.trinoLayout else format.

(** The world after one more reading of the clock. *)
Definition afterTick (w : World) : World :=
  mkWorld (heap w) (log w) (clock w) (S (ticks w)) (chan w) (environ w).

(** The world after one more record in the log. *)
Definition afterLog (e : LogEvent) (w : World) : World :=
  mkWorld (heap w) (log w ++ [e]) (clock w) (ticks w) (chan w) (environ w).

(** The record [calculateLag] writes for a timestamp it cannot parse. *)
Definition parseWarning (timestampStr format err : string) : LogEvent :=
  mkLogEvent LevelWarn "Failed to parse timestamp for lag calculation"
    [("timestamp", timestampStr); ("format", format); ("error", err)].

(** The text [calculateLag] hands to the parser for a source value: none
    for nil, for NULL and for a native timestamp. *)
Definition timestampText `{External} (v : any) : option string :=
  match v with
  | NullString s true => Some s
  | GoString s => Some s
  | NullFloat64 _ _ | GoOther _ => Some (Pipeline.Sprint v)
  | _ => None
  end.

(** The world after [k] more readings of the clock. *)
Definition afterTicks (k : nat) (w : World) : World :=
  mkWorld (heap w) (log w) (clock w) (ticks w + k) (chan w) (environ w).

(** Whether the lag of a source value takes a reading of the clock: it does
    for a native timestamp that is not NULL, and for a text that is not empty
    and that the parser accepts. *)
Definition readsClock `{External} (v : any) (format : string) : bool :=
  match v with
  | NullTime _ true => true
  | _ =>
      match timestampText v with
      | Some s =>
          if decide (s = EmptyString) then false
          else match Time_Parse (effectiveLayout format) s with
               | Ok _ => true
               | Err _ => false
               end
      | None => false
      end
  end.

Definition lagReads `{External} (r : Row) (lc : LagCalculation) : bool :=
  match r !! SourceColumn lc with
  | Some v => readsClock v (TimestampFormat lc)
  | None => false
  end.

(** The readings of the clock that the lag calculations [lcs] take on the
    row [r]. *)
Fixpoint clockReads `{External} (r : Row) (lcs : list LagCalculation) : nat :=
  match lcs with
  | [] => O
  | lc :: rest => ((if lagReads r lc then 1 else 0) + clockReads r rest)%nat
  end.

(** ** Destination slots *)

(** The value [scanRow] stores for a cell. *)
Definition slotValue (slot : Scanner.Slot) : option any :=
  match slot with
  | Scanner.SlotString s valid => Some (NullString s valid)
  | Scanner.SlotFloat64 f valid => Some (NullFloat64 f valid)
  | Scanner.SlotTime t valid => Some (NullTime t valid)
  | Scanner.SlotAny _ => None
  end.

(** The cell is of the kind [scanDest] allocates for the column. *)
Definition slotFits (columnTypes : columnTypeMap) (column : string) (slot : Scanner.Slot) : Prop :=
  match columnTypes !! column, slot with
  | Some columnTypeKey, Scanner.SlotString _ _
  | Some columnTypeValue, Scanner.SlotFloat64 _ _
  | Some columnTypeTime, Scanner.SlotTime _ _
  | None, Scanner.SlotAny _ => True
  | _, _ => False
  end.

(** Two cells of the same kind. *)
Definition sameKind (a b : Scanner.Slot) : Prop :=
  match a, b with
  | Scanner.SlotString _ _, Scanner.SlotString _ _
  | Scanner.SlotFloat64 _ _, Scanner.SlotFloat64 _ _
  | Scanner.SlotTime _ _, Scanner.SlotTime _ _
  | Scanner.SlotAny _, Scanner.SlotAny _ => True
  | _, _ => False
  end.

(** The entry [scanRow] stores for a NULL in a column of the given role. *)
Definition nullEntry (t : columnType) : any :=
  match t with
  | columnTypeKey => NullString EmptyString false
  | columnTypeValue => NullFloat64 f64_zero false
  | columnTypeTime => NullTime zeroTime false
  end.

(** What the picking loop of [scanRow] has done when it ends with outcome
    [o]: it wrote to [result] only; and when it did not panic, a column that
    is not in the result set has its old content, and a requested column has
    the value of the cell of its last occurrence, which is of its kind. *)
Definition pickPost (ct : columnTypeMap) (result : loc) (cols : list string)
    (dest : list Scanner.Slot) (w : World) (o : outcome unit) (w' : World) : Prop :=
  sameExcept {[result]} w w'
  /\ log w' = log w /\ ticks w' = ticks w /\ chan w' = chan w /\ clock w' = clock w
  /\ environ w' = environ w
  /\ (o = Returned tt ->
      (forall c, c ∉ cols -> rowAt w' result !! c = rowAt w result !! c)
      /\ forall i c slot,
           cols !! i = Some c -> dest !! i = Some slot -> is_Some (ct !! c) ->
           (forall j, (i < j)%nat -> cols !! j <> Some c) ->
           rowAt w' result !! c = slotValue slot /\ slotFits ct c slot).

(** ** Collection *)

(** An open cursor, before the first call of [Next]. *)
Definition openCursor (columns : list string) (pending : list (list driverValue))
    (err : option cause) : Scanner.Rows :=
  Scanner.mkRows columns false None pending err.

(** The world after one more metric on the channel. *)
Definition afterSend (m : Metric) (w : World) : World :=
  mkWorld (heap w) (log w) (clock w) (ticks w) (chan w ++ [m]) (environ w).

(** The record [Collect] writes when it skips a result set. *)
Definition ignoreWarning (q : Query) : LogEvent :=
  mkLogEvent LevelWarn "Ignoring missing values" [("logContext", logContext q)].

(** The message of the panic of [run]. *)
Definition handlePanic (q : Query) : string :=
  "[" +:+ logContext q +:+ "] Expecting to always run on the same database handle".

(** One execution after the other on the same handle; the database may
    answer differently each time.  The outcomes, oldest first, and the query
    as the last execution leaves it. *)
Fixpoint runMany (dbs : list Driver.Database) (q : Query) (c : DB)
    : list (outcome Scanner.Rows) * Query :=
  match dbs with
  | [] => ([], q)
  | db :: rest =>
      let (o, q') := Driver.run db q c in
      let (os, q'') := runMany rest q' c in
      (o :: os, q'')
  end.

Definition isPanic {A} (o : outcome A) : Prop :=
  match o with
  | Panicked _ => True
  | _ => False
  end.

(** One more row processed. *)
Definition bumpProcessed (s : Driver.Summary) : Driver.Summary :=
  Driver.mkSummary (S (Driver.rows_processed s)) (Driver.rows_filtered s)
                   (Driver.metrics_generated s).

Definition mapOutcome {A B} (f : A -> B) (o : outcome A) : outcome B :=
  match o with
  | Returned a => Returned (f a)
  | Failed e => Failed e
  | Panicked msg => Panicked msg
  end.

(** ** The channel *)

(** [w'] is [w] with the metric [m] added on the channel after the first
    metrics [pre]. *)
Definition chanIns (pre : list Metric) (m : Metric) (w w' : World) : Prop :=
  heap w' = heap w /\ log w' = log w /\ clock w' = clock w /\ ticks w' = ticks w
  /\ environ w' = environ w
  /\ exists post, chan w = pre ++ post /\ chan w' = pre ++ m :: post.

(** A computation gives the same result in related worlds and leaves them
    related. *)
Definition respects (R : World -> World -> Prop) {A} (m : M A) : Prop :=
  forall w w', R w w' -> fst (m w) = fst (m w') /\ R (snd (m w)) (snd (m w')).

(** ** References to environment variables *)

(** What a reference to [name] is replaced by: the value of the variable,
    or the dollar sign and the name when the variable is not set. *)
Definition resolve (w : World) (name : string) : string :=
  match environ w !! name with
  | Some value => value
  | None => "$" +:+ name
  end.

Fixpoint allAlphaNum (s : string) : bool :=
  match s with
  | EmptyString => true
  | String c rest => Connection.isAlphaNum c && allAlphaNum rest
  end.

(** A name that can follow the dollar sign as it is: letters, digits and
    underscores, the first not a digit. *)
Definition plainName (name : string) : bool :=
  match name with
  | EmptyString => false
  | String c _ => negb (Connection.isShellSpecialVar c) && allAlphaNum name
  end.

(** A text at which such a name ends: empty, or beginning with a byte that
    cannot be part of a name. *)
Definition endsName (post : string) : bool :=
  match post with
  | EmptyString => true
  | String c _ => negb (Connection.isAlphaNum c)
  end.

(** A name that can stand between braces: not empty, no closing brace. *)
Fixpoint noBrace (s : string) : bool :=
  match s with
  | EmptyString => true
  | String c rest => negb (Ascii.eqb c "}") && noBrace rest
  end.

Definition bracedOk (name : string) : bool :=
  negb (String.eqb name EmptyString) && noBrace name.

End Spec.

(** * A sample instance of the surroundings

    Small stand-ins for the library functions, and sample configurations,
    used to run the model on concrete inputs. *)

Module Examples.

Definition showZ (n : Z) : string := NilZero.string_of_int (Z.to_int n).

Definition showFloat (f : float64) : string :=
  match f with
  | S754_zero _ => "0"
  | S754_infinity s => if s then "-Inf" else "+Inf"
  | S754_nan => "NaN"
  | S754_finite s m e => (if s then "-" else "") +:+ showZ (Zpos m) +:+ "p" +:+ showZ e
  end.

(** Timestamps are written as whole seconds since the epoch. *)
Definition parseSeconds (layout value : string) : result string Time :=
  match NilZero.int_of_string value with
  | Some n => Ok (Z.of_int n * Second)
  | None => Err "cannot parse"
  end.

Definition toString (v : driverValue) : result cause string :=
  match v with
  | DNull => Err (Foreign "converting NULL to string is unsupported")
  | DInt64 n => Ok (showZ n)
  | DFloat64 f => Ok (showFloat f)
  | DBool b => Ok (if b then "true" else "false")
  | DBytes b => Ok b
  | DString s => Ok s
  | DTime t => Ok (showZ t)
  end.

Definition toFloat64 (v : driverValue) : result cause float64 :=
  match v with
  | DInt64 n => Ok (f64_of_int n)
  | DFloat64 f => Ok f
  | _ => Err (Foreign "converting driver.Value type to a float64: invalid syntax")
  end.

Definition toTime (v : driverValue) : result cause Time :=
  match v with
  | DTime t => Ok t
  | _ => Err (Foreign "unsupported Scan, storing driver.Value type into type *time.Time")
  end.

Definition sampleExternal : External := {|
  TrimMissingCtx := fun s => s;
  Sprint_float64 := showFloat;
  Time_Format := fun t layout => showZ (Z.quot t Second);
  Time_Parse := parseSeconds;
  convertAssign_string := toString;
  convertAssign_float64 := toFloat64;
  convertAssign_Time := toTime;
  mfCollect := fun mf row => ([Sample (mfId mf) "sample"], row)
|}.

(** A world with an empty heap, an empty log, nothing sent, and a clock
    that reads 1000 s, 1001 s, ... after the epoch. *)
Definition world0 : World :=
  mkWorld ∅ [] (fun n => (1000 + Z.of_nat n) * Second) O [] ∅.

Definition noMetric : MetricConfig := mkMetricConfig [] [] EmptyString [] [] [].

Definition sampleQueryConfig : QueryConfig := mkQueryConfig "q1" "SELECT 1" false.

(** Column [a] as a key label and as a value column. *)
Definition conflictingFamily : MetricFamily :=
  mkMetricFamily 1 (mkMetricConfig ["a"] ["a"] EmptyString [] [] []).

(** Columns [a] and [b] as key labels, and [b] and [a] as value columns. *)
Definition twoConflictsFamily : MetricFamily :=
  mkMetricFamily 5 (mkMetricConfig ["a"; "b"] ["b"; "a"] EmptyString [] [] []).

(** Key label [env], value [lag_seconds] produced from [updated_at]. *)
Definition lagFamily : MetricFamily :=
  mkMetricFamily 1
    (mkMetricConfig ["env"] ["lag_seconds"] EmptyString
       [mkRowFilter "env" "equals" "prod" []]
       [mkLagCalculation "updated_at" "lag_seconds" EmptyString] []).

(** The lag output [lag_seconds] of the family also listed as a key label. *)
Definition lagAsLabelFamily : MetricFamily :=
  mkMetricFamily 2
    (mkMetricConfig ["lag_seconds"] [] EmptyString []
       [mkLagCalculation "updated_at" "lag_seconds" EmptyString] []).

(** A heap with one row at address 1: [env] is "prod", [region] is NULL. *)
Definition rowProd : Row :=
  <["env" := NullString "prod" true]> (<["region" := NullString EmptyString false]> ∅).

Definition worldProd : World :=
  mkWorld {[ 1%positive := rowProd ]} [] (fun n => (1000 + Z.of_nat n) * Second) O [] ∅.

(** A row scanned 30 s after its [updated_at], at address 1. *)
Definition rowLag : Row :=
  <["env" := NullString "prod" true]> (<["updated_at" := NullString "970" true]> ∅).

Definition worldLag : World :=
  mkWorld {[ 1%positive := rowLag ]} [] (fun n => (1000 + Z.of_nat n) * Second) O [] ∅.

(** A query that wants the key column [k]; a cursor on a result set that has
    two columns of that name, NULL in the first and a text in the second. *)
Definition queryK : Query :=
  mkQuery sampleQueryConfig [] {[ "k" := columnTypeKey ]} "job=db,query=q1" None None.

Definition rowsKK : Scanner.Rows :=
  Scanner.mkRows ["k"; "k"] false (Some [DNull; DString "x"]) [] None.

Definition destKK : list Scanner.Slot :=
  [Scanner.SlotString EmptyString false; Scanner.SlotString EmptyString false].

(** The same with the columns [k] and [n], NULL in [k]. *)
Definition rowsKN : Scanner.Rows :=
  Scanner.mkRows ["k"; "n"] false (Some [DNull; DInt64 7]) [] None.

Definition destKN : list Scanner.Slot :=
  [Scanner.SlotString "old" true; Scanner.SlotAny DNull].

(** A cursor on a result set that has the column [n] only. *)
Definition rowsN : Scanner.Rows :=
  Scanner.mkRows ["n"] false None [[DInt64 7]] None.

(** A database that hands out [rowsN] for every query and prepares every
    statement. *)
Definition databaseN : Driver.Database :=
  Driver.mkDatabase (fun c text => Ok rowsN) (fun c text => Ok (mkStmt c text))
                    (fun s => Ok rowsN).

(** A database on which nothing can be prepared. *)
Definition databaseDown : Driver.Database :=
  Driver.mkDatabase (fun c text => Err (Foreign "connection refused"))
                    (fun c text => Err (Foreign "connection refused"))
                    (fun s => Err (Foreign "connection refused")).

(** A query with the key column [k] and the value column [v], for one
    metric family without filters, and three rows of which the second has a
    text where a number is expected. *)
Definition familyKV : MetricFamily :=
  mkMetricFamily 1 (mkMetricConfig ["k"] ["v"] EmptyString [] [] []).

Definition queryKV : Query :=
  mkQuery sampleQueryConfig [familyKV]
          (<["k" := columnTypeKey]> {[ "v" := columnTypeValue ]})
          "job=db,query=q1" None None.

Definition rowsKV : Scanner.Rows := Scanner.mkRows ["k"; "v"] false None [] None.

Definition destKV : list Scanner.Slot :=
  [Scanner.SlotString EmptyString false; Scanner.SlotFloat64 f64_zero false].

Definition goodRow1 : list driverValue := [DString "a"; DInt64 1].
Definition badRow : list driverValue := [DString "b"; DString "oops"].
Definition goodRow3 : list driverValue := [DString "c"; DInt64 3].

(** A world in which [USER] is the only variable of the environment. *)
Definition worldEnv : World :=
  mkWorld ∅ [] (fun n => (1000 + Z.of_nat n) * Second) O [] {[ "USER" := "app" ]}.

(** A filter with an operator the code does not know, on a column that
    [rowProd] does not have. *)
Definition unknownOperatorFilter : RowFilter := mkRowFilter "zone" "matches" "eu" [].

(** Databases that answer the prepared statement of [queryKV] with the three
    rows, and with the two good rows. *)
Definition cursorKV (pending : list (list driverValue)) : Scanner.Rows :=
  Scanner.mkRows ["k"; "v"] false None pending None.

(** The scenario of the design: key [env], value [lag_seconds] computed from
    [updated_at], filter [env] equals "prod"; one row of "prod" 30 s old and
    one of "staging" 5 s old, read at 1000 s. *)
Definition databaseScenario : Driver.Database :=
  Driver.mkDatabase
    (fun c text => Err (Foreign "not prepared"))
    (fun c text => Ok (mkStmt c text))
    (fun s => Ok (Scanner.mkRows ["env"; "updated_at"] false None
                    [[DString "prod"; DString "970"]; [DString "staging"; DString "995"]]
                    None)).

Definition databaseWith : Driver.Database :=
  Driver.mkDatabase (fun c text => Ok (cursorKV ([goodRow1] ++ badRow :: [goodRow3])))
                    (fun c text => Ok (mkStmt c text))
                    (fun s => Ok (cursorKV ([goodRow1] ++ badRow :: [goodRow3]))).

Definition databaseWithout : Driver.Database :=
  Driver.mkDatabase (fun c text => Ok (cursorKV ([goodRow1] ++ [goodRow3])))
                    (fun c text => Ok (mkStmt c text))
                    (fun s => Ok (cursorKV ([goodRow1] ++ [goodRow3]))).

End Examples.

(** * Further notions and samples *)

Module Notions.

(** The filter with another operator. *)
Definition withOperator (f : RowFilter) (op : string) : RowFilter :=
  mkRowFilter (Column f) op (Value f) (Values f).

(** The metric with other row filters. *)
Definition withFilters (metric : MetricConfig) (fs : list RowFilter) : MetricConfig :=
  mkMetricConfig (KeyLabels metric) (ValueColumns metric) (TimestampValue metric) fs
                 (LagCalculations metric) (ColumnFilters metric).

(** The record [applyRowFilter] writes for an operator it does not know. *)
Definition unknownOperatorWarning (op : string) : LogEvent :=
  mkLogEvent LevelWarn "Unknown filter operator" [("operator", op)].

(** The warnings for the filters whose operator the code does not know, in
    the order of the filters. *)
Fixpoint unknownWarnings (fs : list RowFilter) : list LogEvent :=
  match fs with
  | [] => []
  | f :: rest =>
      if Spec.knownOperator (Operator f) then unknownWarnings rest
      else unknownOperatorWarning (Operator f) :: unknownWarnings rest
  end.

(** The record [expandEnv] writes for a variable that is not set. *)
Definition missingEnvError (name : string) : LogEvent :=
  mkLogEvent LevelError "Environment variable is not found, cannot expand" [("env", name)].

(** Executions one after the other, each on its own handle and with its own
    answers of the database. *)
Fixpoint runSeq (calls : list (Driver.Database * DB)) (q : Query)
    : list (outcome Scanner.Rows) * Query :=
  match calls with
  | [] => ([], q)
  | (db, c) :: rest =>
      let (o, q') := Driver.run db q c in
      let (os, q'') := runSeq rest q' in
      (o :: os, q'')
  end.

(** The cursor with another final error. *)
Definition withErr (rows : Scanner.Rows) (err : option cause) : Scanner.Rows :=
  Scanner.mkRows (Scanner.rowsColumns rows) (Scanner.rowsClosed rows)
                 (Scanner.rowsCurrent rows) (Scanner.rowsPending rows) err.

(** The world after more records in the log. *)
Definition afterLogs (evs : list LogEvent) (w : World) : World :=
  mkWorld (heap w) (log w ++ evs) (clock w) (ticks w) (chan w) (environ w).

(** From [w] to [w'] nothing was sent and the environment was left alone,
    the log has grown, the clock was read, and the new log records and the
    readings of the clock are at most [n] together. *)
Definition lagEffects (n : nat) (w w' : World) : Prop :=
  chan w' = chan w /\ clock w' = clock w /\ environ w' = environ w
  /\ exists evs k, log w' = log w ++ evs /\ ticks w' = (ticks w + k)%nat
                   /\ (k + length evs <= n)%nat
                   /\ Forall (fun e => level e = LevelWarn) evs.

(** The cell [scanDest] allocates for a column of the given role, or of
    none. *)
Definition initialSlot (t : option columnType) : Scanner.Slot :=
  match t with
  | Some columnTypeKey => Scanner.SlotString EmptyString false
  | Some columnTypeValue => Scanner.SlotFloat64 f64_zero false
  | Some columnTypeTime => Scanner.SlotTime zeroTime false
  | None => Scanner.SlotAny DNull
  end.

(** The value is of the nullable type of the role. *)
Definition hasRole (t : columnType) (v : any) : Prop :=
  match t, v with
  | columnTypeKey, NullString _ _
  | columnTypeValue, NullFloat64 _ _
  | columnTypeTime, NullTime _ _ => True
  | _, _ => False
  end.

(** The entry for a driver value that is not NULL, in a column of the given
    role. *)
Definition convertEntry `{External} (t : columnType) (v : driverValue) : result cause any :=
  match t with
  | columnTypeKey =>
      match convertAssign_string v with Ok s => Ok (NullString s true) | Err e => Err e end
  | columnTypeValue =>
      match convertAssign_float64 v with Ok f => Ok (NullFloat64 f true) | Err e => Err e end
  | columnTypeTime =>
      match convertAssign_Time v with Ok t => Ok (NullTime t true) | Err e => Err e end
  end.

(** From [w] to [w'] the channel and the log have only grown, the clock
    has only been read, and the environment is the same. *)
Definition appends (w w' : World) : Prop :=
  (exists ms, chan w' = chan w ++ ms) /\ (exists evs, log w' = log w ++ evs)
  /\ (ticks w <= ticks w')%nat /\ clock w' = clock w /\ environ w' = environ w.

(** A text without a dollar sign. *)
Fixpoint noDollar (s : string) : bool :=
  match s with
  | EmptyString => true
  | String c rest => negb (Ascii.eqb c "$") && noDollar rest
  end.

(** The worlds agree on everything but the heap and the log. *)
Definition sameOutside (w w' : World) : Prop :=
  chan w' = chan w /\ ticks w' = ticks w /\ clock w' = clock w /\ environ w' = environ w.

End Notions.

Module MoreExamples.

Import Examples Notions.

(** The family of [lagFamily] and a second family on the same columns, in
    both orders. *)
Definition labelFamily : MetricFamily :=
  mkMetricFamily 3 (mkMetricConfig ["env"] [] EmptyString [] [] []).

(** Filters on the column [env] of [rowProd]. *)
Definition envFilter (op value : string) : RowFilter :=
  mkRowFilter "env" op value ["prod"; "dev"].

(** The cursor of [queryKV] on a row that scans, and on one that does
    not. *)
Definition rowsGood : Scanner.Rows := Scanner.positioned (cursorKV []) goodRow1 [].
Definition rowsBad : Scanner.Rows := Scanner.positioned (cursorKV []) badRow [].

(** Databases that answer [queryKV] with one row and then report an error
    of the cursor, and with the row only. *)
Definition cursorReset : Scanner.Rows :=
  Scanner.mkRows ["k"; "v"] false None [goodRow1] (Some (Foreign "connection reset")).

Definition databaseReset : Driver.Database :=
  Driver.mkDatabase (fun c text => Ok cursorReset) (fun c text => Ok (mkStmt c text))
                    (fun s => Ok cursorReset).

Definition databaseQuiet : Driver.Database :=
  Driver.mkDatabase (fun c text => Ok (withErr cursorReset None))
                    (fun c text => Ok (mkStmt c text))
                    (fun s => Ok (withErr cursorReset None)).

(** A query that is run without a prepared statement. *)
Definition queryDirect : Query :=
  mkQuery (mkQueryConfig "q2" "SELECT 2" true) [] ∅ "job=db,query=q2" None None.

(** A family whose filter excludes [rowProd]. *)
Definition devFamily : MetricFamily :=
  mkMetricFamily 4
    (mkMetricConfig ["env"] [] EmptyString [mkRowFilter "env" "equals" "dev" []] [] []).

(** The cursor of the scenario on its first row, and cells for it. *)
Definition rowsLag : Scanner.Rows :=
  Scanner.mkRows ["env"; "updated_at"] false (Some [DString "prod"; DString "970"]) [] None.

Definition destLag : list Scanner.Slot :=
  [Scanner.SlotString EmptyString false; Scanner.SlotString EmptyString false].

(** Two filters that [rowProd] passes, the first with an operator the code
    does not know. *)
Definition warnedMetric : MetricConfig :=
  mkMetricConfig [] [] EmptyString
    [mkRowFilter "env" "matches" "x" []; envFilter "equals" "prod"] [] [].

(** Three filters of which the second excludes [rowProd] and the third has
    an operator the code does not know. *)
Definition stoppedMetric : MetricConfig :=
  mkMetricConfig [] [] EmptyString
    [envFilter "equals" "prod"; envFilter "equals" "dev"; mkRowFilter "env" "matches" "x" []]
    [] [].

End MoreExamples.

(** * Properties of the column classifier *)

Module ClassifierProps.
Section ClassifierProps.
Context {ext : External}.

Import Classifier Spec.

Lemma rbind_Ok {E A B} (r : result E A) (k : A -> result E B) (b : B) :
  rbind r k = Ok b <-> exists a, r = Ok a /\ k a = Ok b.
Proof.
  destruct r as [a|e]; simpl; split.
  - intros Hk. exists a. done.
  - intros (a' & [= <-] & Hk). done.
  - done.
  - intros (a' & Hr & _). done.
Qed.

Lemma registerAll_app ctx l1 l2 ct :
  registerAll ctx (l1 ++ l2) ct = rbind (registerAll ctx l1 ct) (registerAll ctx l2).
Proof.
  revert ct. induction l1 as [|[c t] l1 IH]; intros ct; simpl; [done|].
  destruct (setColumnType ctx c t ct) as [ct'|e]; simpl; [apply IH|done].
Qed.

Lemma rowFilterLoop_registerAll ctx fs ct :
  rowFilterLoop ctx fs ct = registerAll ctx (map (fun f => (Column f, columnTypeKey)) fs) ct.
Proof.
  revert ct. induction fs as [|f fs IH]; intros ct; simpl; [done|].
  destruct (setColumnType _ _ _ ct); simpl; [apply IH|done].
Qed.

Lemma keyLabelLoop_registerAll ctx ks ct :
  keyLabelLoop ctx ks ct = registerAll ctx (map (fun k => (k, columnTypeKey)) ks) ct.
Proof.
  revert ct. induction ks as [|k ks IH]; intros ct; simpl; [done|].
  destruct (setColumnType _ _ _ ct); simpl; [apply IH|done].
Qed.

Lemma valueLoop_registerAll ctx vs tc ct :
  valueLoop ctx vs tc ct
  = registerAll ctx (map (fun v => (v, columnTypeValue)) (filter (fun v => v ∉ tc) vs)) ct.
Proof.
  revert ct. induction vs as [|v vs IH]; intros ct; simpl; [done|].
  rewrite filter_cons. destruct (decide (v ∈ tc)) as [Hin|Hout].
  - rewrite decide_False by (intros Hn; by apply Hn). apply IH.
  - rewrite decide_True by done. simpl.
    destruct (setColumnType _ _ _ ct); simpl; [apply IH|done].
Qed.

Lemma lagCalcLoop_registerAll ctx lcs tc ct :
  lagCalcLoop ctx lcs tc ct
  = rbind (registerAll ctx (map (fun lc => (SourceColumn lc, columnTypeKey)) lcs) ct)
          (fun ct' => Ok (list_to_set (map OutputColumn lcs) ∪ tc, ct')).
Proof.
  revert tc ct. induction lcs as [|lc lcs IH]; intros tc ct; simpl.
  - f_equal. f_equal. set_solver.
  - destruct (setColumnType _ _ _ ct) as [ct'|e]; simpl; [|done].
    rewrite IH. destruct (registerAll _ _ ct'); simpl; [|done].
    f_equal. f_equal. set_solver.
Qed.

Lemma familyStep_registerAll ctx mf ct :
  familyStep ctx mf ct = registerAll ctx (registrations mf) ct.
Proof.
  unfold familyStep, registrations.
  rewrite lagCalcLoop_registerAll, registerAll_app.
  destruct (registerAll ctx (map _ (LagCalculations (config mf))) ct) as [ct1|e]; simpl; [|done].
  rewrite rowFilterLoop_registerAll, registerAll_app.
  destruct (registerAll ctx (map _ (RowFilters (config mf))) ct1) as [ct2|e]; simpl; [|done].
  rewrite keyLabelLoop_registerAll, registerAll_app.
  destruct (registerAll ctx (map _ (KeyLabels (config mf))) ct2) as [ct3|e]; simpl; [|done].
  rewrite valueLoop_registerAll, registerAll_app.
  replace (list_to_set (map OutputColumn (LagCalculations (config mf))) ∪ ∅)
    with (lagOutputs mf) by (unfold lagOutputs; set_solver).
  destruct (registerAll ctx (map _ (filter _ (ValueColumns (config mf)))) ct3) as [ct4|e];
    simpl; [|done].
  unfold timestampStep. destruct (decide (TimestampValue (config mf) <> EmptyString)); simpl.
  - by destruct (setColumnType _ _ _ ct4).
  - done.
Qed.

Lemma familyLoop_registerAll ctx mfs ct :
  familyLoop ctx mfs ct = registerAll ctx (allRegistrations mfs) ct.
Proof.
  revert ct. induction mfs as [|mf mfs IH]; intros ct; simpl; [done|].
  unfold allRegistrations. simpl. rewrite registerAll_app, familyStep_registerAll.
  destruct (registerAll ctx (registrations mf) ct); simpl; [apply IH|done].
Qed.

Lemma setColumnType_Ok ctx c t ct ct' :
  setColumnType ctx c t ct = Ok ct' ->
  ct' !! c = Some t /\ (forall c' t', ct !! c' = Some t' -> ct' !! c' = Some t')
  /\ (forall c', c' <> c -> ct' !! c' = ct !! c').
Proof.
  unfold setColumnType. destruct (ct !! c) as [prev|] eqn:Hc.
  - destruct (decide (prev <> t)) as [Hne|Heq]; [done|].
    intros [= <-]. apply dec_stable in Heq. subst prev. done.
  - intros [= <-]. split; [apply lookup_insert_eq|]. split.
    + intros c' t' Hc'. rewrite lookup_insert_ne; [done|congruence].
    + intros c' Hne. by rewrite lookup_insert_ne.
Qed.

Lemma setColumnType_Err ctx c t ct e :
  setColumnType ctx c t ct = Err e ->
  e = mkWithContext ctx (ColumnConflict c) /\ exists prev, ct !! c = Some prev /\ prev <> t.
Proof.
  unfold setColumnType. destruct (ct !! c) as [prev|] eqn:Hc; [|done].
  destruct (decide (prev <> t)) as [Hne|Heq]; [|done].
  intros [= <-]. split; [done|]. by exists prev.
Qed.

(** What a successful run of registrations leaves in the map. *)
Lemma registerAll_Ok ctx regs ct ct' :
  registerAll ctx regs ct = Ok ct' ->
  (forall c t, ct !! c = Some t -> ct' !! c = Some t)
  /\ (forall c t, (c, t) ∈ regs -> ct' !! c = Some t)
  /\ (forall c, ct !! c = None -> ct' !! c = firstRole regs c).
Proof.
  revert ct. induction regs as [|[c0 t0] regs IH]; intros ct; simpl.
  - intros [= <-]. split; [done|]. split; [|done]. intros c t Hin. by apply elem_of_nil in Hin.
  - intros Hr. apply rbind_Ok in Hr as (ct1 & Hset & Hrest).
    apply setColumnType_Ok in Hset as (Hc0 & Hkeep & Hother).
    apply IH in Hrest as (Hmono & Hregs & Hfirst).
    split; [|split].
    + intros c t Hc. apply Hmono, Hkeep, Hc.
    + intros c t Hin. apply elem_of_cons in Hin as [[= -> ->]|Hin].
      * apply Hmono, Hc0.
      * by apply Hregs.
    + intros c Hc. destruct (decide (c0 = c)) as [->|Hne].
      * apply Hmono, Hc0.
      * apply Hfirst. rewrite Hother; [done|congruence].
Qed.

(** What a failed run reports: a column of the list whose role differs from
    the one it has in the map or was given earlier in the list. *)
Lemma registerAll_Err ctx regs ct e :
  registerAll ctx regs ct = Err e ->
  exists c t t', e = mkWithContext ctx (ColumnConflict c) /\ (c, t) ∈ regs /\ t' <> t
    /\ (ct !! c = Some t' \/ (c, t') ∈ regs).
Proof.
  revert ct. induction regs as [|[c0 t0] regs IH]; intros ct; simpl; [done|].
  destruct (setColumnType ctx c0 t0 ct) as [ct1|e1] eqn:Hset; simpl.
  - intros Hrest. apply IH in Hrest as (c & t & t' & -> & Hin & Hne & Hprev).
    exists c, t, t'. split; [done|]. split; [by apply elem_of_cons; right|].
    split; [done|].
    apply setColumnType_Ok in Hset as (Hc0 & Hkeep & Hother).
    destruct Hprev as [Hprev|Hprev]; [|by right; apply elem_of_cons; right].
    destruct (decide (c = c0)) as [->|Hc].
    + right. apply elem_of_cons. left. congruence.
    + left. by rewrite <- (Hother c Hc).
  - intros [= <-]. apply setColumnType_Err in Hset as (-> & prev & Hprev & Hne).
    exists c0, t0, prev. split; [done|]. split; [by apply elem_of_cons; left|]. by split; [|left].
Qed.

Lemma registerAll_total ctx regs :
  (exists ct', registerAll ctx regs ∅ = Ok ct') \/
  (exists c, registerAll ctx regs ∅ = Err (mkWithContext ctx (ColumnConflict c))
             /\ conflictOn regs c).
Proof.
  destruct (registerAll ctx regs ∅) as [ct'|e] eqn:Hr; [left; by exists ct'|right].
  apply registerAll_Err in Hr as (c & t & t' & -> & Hin & Hne & [Hprev|Hprev]).
  - by rewrite lookup_empty in Hprev.
  - exists c. split; [done|]. by exists t', t.
Qed.

Lemma registerAll_conflict ctx regs c ct' :
  conflictOn regs c -> registerAll ctx regs ∅ <> Ok ct'.
Proof.
  intros (t1 & t2 & H1 & H2 & Hne) Hr.
  apply registerAll_Ok in Hr as (_ & Hregs & _).
  apply Hregs in H1. apply Hregs in H2. congruence.
Qed.

Lemma no_conflict_by_firstRole regs :
  Forall (fun r => firstRole regs (fst r) = Some (snd r)) regs ->
  forall c, ~ conflictOn regs c.
Proof.
  intros Hall c (t1 & t2 & H1 & H2 & Hne).
  rewrite Forall_forall in Hall.
  apply Hall in H1. apply Hall in H2. simpl in *. congruence.
Qed.

Lemma NewQuery_registerAll ctx qc mfs :
  NewQuery ctx qc mfs
  = rbind (registerAll (queryContext ctx qc) (allRegistrations mfs) ∅)
          (fun ct => Ok (mkQuery qc mfs ct (queryContext ctx qc) None None)).
Proof. unfold NewQuery. by rewrite familyLoop_registerAll. Qed.

Lemma firstRole_Some regs c : is_Some (firstRole regs c) <-> exists t, (c, t) ∈ regs.
Proof.
  induction regs as [|[c0 t0] regs IH]; simpl.
  - split; [by intros [? ?]|]. intros (t & Hin). by apply elem_of_nil in Hin.
  - destruct (decide (c0 = c)) as [->|Hne].
    + split; [|by eauto]. intros _. exists t0. by apply elem_of_cons; left.
    + rewrite IH. split; intros (t & Hin); exists t.
      * by apply elem_of_cons; right.
      * apply elem_of_cons in Hin as [[= -> ->]|Hin]; done.
Qed.

(** Where a run of registrations fails: at the first registration whose
    column the registrations before it have given another role. *)
Lemma registerAll_first_conflict ctx regs : forall ct e,
  registerAll ctx regs ct = Err e ->
  exists pre c t post ct1 t',
    regs = pre ++ (c, t) :: post
    /\ registerAll ctx pre ct = Ok ct1
    /\ ct1 !! c = Some t' /\ t' <> t
    /\ e = mkWithContext ctx (ColumnConflict c).
Proof.
  induction regs as [|[c0 t0] regs IH]; intros ct e; simpl; [done|].
  destruct (setColumnType ctx c0 t0 ct) as [ct1|e1] eqn:Hset; simpl.
  - intros Hrest. apply IH in Hrest as (pre & c & t & post & ct2 & t' & -> & Hpre & Hc & Hne & ->).
    exists ((c0, t0) :: pre), c, t, post, ct2, t'. split; [done|].
    split; [simpl; by rewrite Hset|done].
  - intros [= <-]. apply setColumnType_Err in Hset as (-> & prev & Hprev & Hne).
    exists [], c0, t0, regs, ct, prev. done.
Qed.

(** C4, as the code has it.  When some column is registered with two
    different roles, the construction of the query fails with the
    role-conflict error, raised in the context of the query; the column it
    names is the column of the first registration, in the order of the
    registrations, that gives a column another role than the registrations
    before it, among which no column has two roles.  So it names a column
    that is registered with two different roles, and that very column when it
    is the only one.  When no column is, the construction succeeds and every
    column has the role of its first registration. *)
Theorem NewQuery_role_conflict (ctx : string) (qc : QueryConfig) (mfs : list MetricFamily) :
  (forall c, conflictOn (allRegistrations mfs) c ->
     exists c' pre t post t',
       NewQuery ctx qc mfs = Err (mkWithContext (queryContext ctx qc) (ColumnConflict c'))
       /\ allRegistrations mfs = pre ++ (c', t) :: post
       /\ (forall c'', ~ conflictOn pre c'')
       /\ firstRole pre c' = Some t' /\ t' <> t
       /\ conflictOn (allRegistrations mfs) c'
       /\ ((forall c'', conflictOn (allRegistrations mfs) c'' -> c'' = c) -> c' = c))
  /\ ((forall c, ~ conflictOn (allRegistrations mfs) c) ->
     exists q, NewQuery ctx qc mfs = Ok q
               /\ forall c, columnTypes q !! c = firstRole (allRegistrations mfs) c).
Proof.
  rewrite NewQuery_registerAll.
  destruct (registerAll (queryContext ctx qc) (allRegistrations mfs) ∅) as [ct'|e] eqn:Hr;
    split.
  - intros c Hc. by apply (registerAll_conflict (queryContext ctx qc) _ _ ct') in Hc.
  - intros _. simpl. eexists. split; [done|]. simpl.
    intros c. apply registerAll_Ok in Hr as (_ & _ & Hfirst). apply Hfirst, lookup_empty.
  - intros c Hc.
    apply registerAll_first_conflict in Hr
      as (pre & c' & t & post & ct1 & t' & Hregs & Hpre & Hc' & Hne & ->).
    assert (firstRole pre c' = Some t') as Hfirst.
    { apply registerAll_Ok in Hpre as (_ & _ & Hfirst).
      by rewrite <- (Hfirst c' (lookup_empty c')). }
    assert (conflictOn (allRegistrations mfs) c') as Hconf.
    { assert (exists t0, (c', t0) ∈ pre) as [t0 Hin] by (apply firstRole_Some; by eexists).
      assert (t0 = t') as ->.
      { apply registerAll_Ok in Hpre as (_ & Hin' & _). apply Hin' in Hin. congruence. }
      exists t', t. rewrite Hregs. split; [|split; [|done]].
      - apply elem_of_app. by left.
      - apply elem_of_app. right. apply list_elem_of_here. }
    exists c', pre, t, post, t'. simpl. split; [done|]. split; [done|].
    split; [intros c'' Hc''; by apply (registerAll_conflict (queryContext ctx qc) _ _ ct1) in Hc''|].
    split; [done|]. split; [done|]. split; [done|].
    intros Honly. by apply Honly.
  - intros Hno. destruct (registerAll_total (queryContext ctx qc) (allRegistrations mfs))
      as [(ct' & Hok)|(c' & _ & Hconf)]; [congruence|]. by apply Hno in Hconf.
Qed.

Lemma registrations_requiredBy mf c :
  (exists t, (c, t) ∈ registrations mf) <-> requiredBy mf c.
Proof.
  unfold registrations, requiredBy. split.
  - intros (t & Hin). rewrite !elem_of_app in Hin.
    destruct Hin as [Hin|[Hin|[Hin|[Hin|Hin]]]].
    + apply list_elem_of_fmap in Hin as (lc & [= -> ->] & Hlc). left.
      apply list_elem_of_fmap. by exists lc.
    + apply list_elem_of_fmap in Hin as (f & [= -> ->] & Hf). right; left.
      apply list_elem_of_fmap. by exists f.
    + apply list_elem_of_fmap in Hin as (k & [= -> ->] & Hk). by right; right; left.
    + apply list_elem_of_fmap in Hin as (v & [= -> ->] & Hv).
      apply list_elem_of_filter in Hv as [Hout Hv]. by right; right; right; left.
    + destruct (decide (TimestampValue (config mf) <> EmptyString)) as [Hts|Hts].
      * apply list_elem_of_singleton in Hin as [= -> ->]. by right; right; right; right.
      * by apply elem_of_nil in Hin.
  - intros [Hin|[Hin|[Hin|[[Hin Hout]|[-> Hne]]]]].
    + apply list_elem_of_fmap in Hin as (lc & -> & Hlc). exists columnTypeKey.
      rewrite !elem_of_app. left. apply list_elem_of_fmap. by exists lc.
    + apply list_elem_of_fmap in Hin as (f & -> & Hf). exists columnTypeKey.
      rewrite !elem_of_app. right; left. apply list_elem_of_fmap. by exists f.
    + exists columnTypeKey. rewrite !elem_of_app. right; right; left.
      apply list_elem_of_fmap. by exists c.
    + exists columnTypeValue. rewrite !elem_of_app. right; right; right; left.
      apply list_elem_of_fmap. exists c. split; [done|]. by apply list_elem_of_filter.
    + exists columnTypeTime. rewrite !elem_of_app. right; right; right; right.
      rewrite decide_True by done. by apply list_elem_of_singleton.
Qed.

Lemma elem_of_concat {A} (x : A) (ls : list (list A)) :
  x ∈ concat ls <-> exists l, x ∈ l /\ l ∈ ls.
Proof.
  induction ls as [|l0 ls IH]; simpl.
  - split; [intros Hin; by apply elem_of_nil in Hin|].
    intros (l & _ & Hl). by apply elem_of_nil in Hl.
  - rewrite elem_of_app, IH. split.
    + intros [Hin|(l & Hin & Hl)].
      * exists l0. split; [done|]. by apply elem_of_cons; left.
      * exists l. split; [done|]. by apply elem_of_cons; right.
    + intros (l & Hin & Hl). apply elem_of_cons in Hl as [->|Hl]; [by left|].
      right. by exists l.
Qed.

(** C7, as the code has it.  In a query that was constructed, a column is in
    the column-role map exactly when some metric family requires it: as a lag
    source, a filter column, a key label, its timestamp column, or a value
    column that the family does not itself produce by a lag calculation.  So
    a lag output is skipped only as a value column of the family computing
    it. *)
Theorem NewQuery_registered_columns (ctx : string) (qc : QueryConfig)
    (mfs : list MetricFamily) (q : Query) :
  NewQuery ctx qc mfs = Ok q ->
  forall c, is_Some (columnTypes q !! c) <-> exists mf, mf ∈ mfs /\ requiredBy mf c.
Proof.
  rewrite NewQuery_registerAll. intros Hq. apply rbind_Ok in Hq as (ct & Hr & [= <-]). simpl.
  intros c. apply registerAll_Ok in Hr as (_ & _ & Hfirst).
  rewrite (Hfirst c (lookup_empty c)), firstRole_Some. unfold allRegistrations. split.
  - intros (t & Hin). apply elem_of_concat in Hin as (regs & Hin & Hregs).
    apply list_elem_of_fmap in Hregs as (mf & -> & Hmf).
    exists mf. split; [done|]. apply registrations_requiredBy. by exists t.
  - intros (mf & Hmf & Hreq). apply registrations_requiredBy in Hreq as (t & Hin).
    exists t. apply elem_of_concat. exists (registrations mf). split; [done|].
    apply list_elem_of_fmap. by exists mf.
Qed.
End ClassifierProps.

Import Classifier Spec Examples.

Lemma conflictingFamily_conflict : conflictOn (allRegistrations [conflictingFamily]) "a".
Proof.
  exists columnTypeKey, columnTypeValue. vm_compute.
  split; [|split; [|done]].
  - apply list_elem_of_here.
  - apply list_elem_of_further, list_elem_of_here.
Qed.

(** C4 at a concrete input: both [a] and [b] are registered as key label
    and as value column; the first registration that differs from an earlier
    one is that of [b] as a value column, and the error names [b], not
    [a]. *)
Lemma NewQuery_names_first_conflict :
  conflictOn (allRegistrations [twoConflictsFamily]) "a"
  /\ @NewQuery sampleExternal "job=db" sampleQueryConfig [twoConflictsFamily]
     = Err (mkWithContext "job=db,query=q1" (ColumnConflict "b")).
Proof.
  split; [|vm_compute; reflexivity].
  exists columnTypeKey, columnTypeValue. vm_compute.
  split; [|split; [|done]].
  - apply list_elem_of_here.
  - do 3 apply list_elem_of_further. apply list_elem_of_here.
Qed.

(** The conflict of [conflictingFamily] is reported; [lagFamily] has none
    and is classified. *)
Lemma NewQuery_role_conflict_witness :
  (exists c', @NewQuery sampleExternal "job=db" sampleQueryConfig [conflictingFamily]
              = Err (mkWithContext "job=db,query=q1" (ColumnConflict c')))
  /\ (exists q, @NewQuery sampleExternal "job=db" sampleQueryConfig [lagFamily] = Ok q
               /\ columnTypes q !! "env" = Some columnTypeKey).
Proof.
  split.
  - destruct (proj1 (@NewQuery_role_conflict sampleExternal "job=db" sampleQueryConfig
                       [conflictingFamily]) "a" conflictingFamily_conflict)
      as (c' & pre & t & post & t' & Herr & _).
    exists c'. exact Herr.
  - destruct (proj2 (@NewQuery_role_conflict sampleExternal "job=db" sampleQueryConfig
                       [lagFamily])) as (q & Hq & Hroles).
    + apply no_conflict_by_firstRole. vm_compute. repeat constructor.
    + exists q. split; [exact Hq|]. rewrite Hroles. reflexivity.
Defined.

(** C7 at a concrete input: [lag_seconds] is the output of a lag calculation
    of the family and nothing the query returns, yet listed as a key label
    it is registered as a required Key column. *)
Lemma NewQuery_registers_lag_output :
  "lag_seconds" ∈ lagOutputs lagAsLabelFamily
  /\ exists q, @NewQuery sampleExternal "job=db" sampleQueryConfig [lagAsLabelFamily] = Ok q
               /\ columnTypes q !! "lag_seconds" = Some columnTypeKey.
Proof.
  split.
  - vm_compute. set_solver.
  - eexists. split; [vm_compute; reflexivity|]. vm_compute. reflexivity.
Qed.

Lemma NewQuery_registered_columns_witness :
  exists q, @NewQuery sampleExternal "job=db" sampleQueryConfig [lagFamily] = Ok q
    /\ (is_Some (columnTypes q !! "lag_seconds")
        <-> exists mf, mf ∈ [lagFamily] /\ requiredBy mf "lag_seconds").
Proof.
  eexists. split; [vm_compute; reflexivity|].
  apply (@NewQuery_registered_columns sampleExternal "job=db" sampleQueryConfig [lagFamily]).
  vm_compute. reflexivity.
Defined.

End ClassifierProps.

(** * Properties of the heap primitives *)

Module HeapProps.

Import Spec.

Lemma sameExcept_refl L w : sameExcept L w w.
Proof. by split. Qed.

Lemma sameExcept_trans L w1 w2 w3 :
  sameExcept L w1 w2 -> sameExcept L w2 w3 -> sameExcept L w1 w3.
Proof.
  intros [Hd1 Hl1] [Hd2 Hl2]. split; [congruence|].
  intros l Hl. rewrite Hl2, Hl1; done.
Qed.

Lemma sameExcept_heap L w w' : heap w' = heap w -> sameExcept L w w'.
Proof. intros Hh. split; by rewrite Hh. Qed.

Lemma sameExcept_rowAt L w w' l : sameExcept L w w' -> l ∉ L -> rowAt w' l = rowAt w l.
Proof. intros [_ Hl] Hin. unfold rowAt. by rewrite Hl. Qed.

Lemma map_set_sameExcept l k v w : sameExcept {[l]} w (snd (map_set l k v w)).
Proof.
  unfold map_set, set_heap. simpl. split.
  - apply dom_alter_L.
  - intros l' Hl'. apply lookup_alter_ne. set_solver.
Qed.

Lemma map_set_rowAt l k v w :
  is_Some (heap w !! l) ->
  rowAt (snd (map_set l k v w)) l = <[k := v]> (rowAt w l).
Proof.
  intros [r Hr]. unfold map_set, set_heap, rowAt. simpl.
  by rewrite lookup_alter_eq, Hr.
Qed.

Lemma forM__sameExcept {A} L (body : A -> M unit) (xs : list A) w :
  (forall x w, sameExcept L w (snd (body x w))) ->
  sameExcept L w (snd (forM_ xs body w)).
Proof.
  intros Hbody. revert w. induction xs as [|x xs IH]; intros w; simpl.
  - apply sameExcept_refl.
  - unfold bind. specialize (Hbody x w). destruct (body x w) as [[] w1]. simpl in Hbody.
    eapply sameExcept_trans; [exact Hbody|apply IH].
Qed.

Lemma sameExcept_is_Some L w w' l :
  sameExcept L w w' -> is_Some (heap w !! l) -> is_Some (heap w' !! l).
Proof. intros [Hd _]. rewrite <- !elem_of_dom. by rewrite Hd. Qed.

Lemma fresh_not_allocated (h : gmap loc Row) : h !! fresh (dom h) = None.
Proof. apply not_elem_of_dom, is_fresh. Qed.

Lemma make_map_spec w :
  let l := fst (make_map w) in
  let w' := snd (make_map w) in
  heap w !! l = None /\ heap w' = <[l := ∅]> (heap w).
Proof. simpl. split; [apply fresh_not_allocated|done]. Qed.

End HeapProps.

(** * The channel is written to, never read *)

Module ChannelProps.
Section ChannelProps.
Context {ext : External}.

Import Spec Pipeline Scanner Driver.

Variable pre : list Metric.
Variable m : Metric.

Local Abbreviation R := (chanIns pre m).

Lemma respects_ret {A} (a : A) : respects R (ret a).
Proof. intros w w' HR. by split. Qed.

Lemma respects_bind {A B} (c : M A) (k : A -> M B) :
  respects R c -> (forall a, respects R (k a)) -> respects R (bind c k).
Proof.
  intros Hc Hk w w' HR. unfold bind.
  destruct (Hc w w' HR) as [Hfst Hsnd].
  destruct (c w) as [a w1], (c w') as [a' w1']. simpl in *. subst a'.
  by apply Hk.
Qed.

Lemma respects_forM_ {A} (xs : list A) (body : A -> M unit) :
  (forall x, respects R (body x)) -> respects R (forM_ xs body).
Proof.
  intros Hbody. induction xs as [|x xs IH]; simpl.
  - apply respects_ret.
  - apply respects_bind; [apply Hbody|intros _; apply IH].
Qed.

(** A primitive that neither reads nor writes the channel. *)
Lemma respects_silent {A} (c : M A) :
  (forall w w', heap w' = heap w -> log w' = log w -> clock w' = clock w ->
                ticks w' = ticks w -> environ w' = environ w ->
     fst (c w) = fst (c w')
     /\ heap (snd (c w')) = heap (snd (c w)) /\ log (snd (c w')) = log (snd (c w))
     /\ clock (snd (c w')) = clock (snd (c w)) /\ ticks (snd (c w')) = ticks (snd (c w))
     /\ environ (snd (c w')) = environ (snd (c w))) ->
  (forall w, chan (snd (c w)) = chan w) ->
  respects R c.
Proof.
  intros Hsame Hchan w w' (Hh & Hl & Hc & Ht & He & post & Hpost & Hpost').
  destruct (Hsame w w' Hh Hl Hc Ht He) as (Hfst & Hh' & Hl' & Hc' & Ht' & He').
  split; [done|]. do 5 (split; [done|]). exists post. by rewrite !Hchan.
Qed.

Lemma respects_make_map : respects R make_map.
Proof.
  apply respects_silent; [|done].
  intros w w' Hh Hl Hc Ht He. unfold make_map, set_heap. simpl. by rewrite Hh, Hl, Hc, Ht, He.
Qed.

Lemma respects_map_get l k : respects R (map_get l k).
Proof.
  apply respects_silent; [|done].
  intros w w' Hh Hl Hc Ht He. unfold map_get, rowAt. simpl. by rewrite Hh.
Qed.

Lemma respects_map_set l k v : respects R (map_set l k v).
Proof.
  apply respects_silent; [|done].
  intros w w' Hh Hl Hc Ht He. unfold map_set, set_heap. simpl. by rewrite Hh, Hl, Hc, Ht, He.
Qed.

Lemma respects_map_range l : respects R (map_range l).
Proof.
  apply respects_silent; [|done].
  intros w w' Hh Hl Hc Ht He. unfold map_range, rowAt. simpl. by rewrite Hh.
Qed.

Lemma respects_slog lv msg kv : respects R (slog lv msg kv).
Proof.
  apply respects_silent; [|done].
  intros w w' Hh Hl Hc Ht He. unfold slog. simpl. by rewrite Hh, Hl, Hc, Ht, He.
Qed.

Lemma respects_time_Now : respects R time_Now.
Proof.
  apply respects_silent; [|done].
  intros w w' Hh Hl Hc Ht He. unfold time_Now. simpl. by rewrite Hh, Hl, Hc, Ht, He.
Qed.

Lemma respects_send x : respects R (send x).
Proof.
  intros w w' (Hh & Hl & Hc & Ht & He & post & Hpost & Hpost'). unfold send. simpl.
  split; [done|]. do 5 (split; [done|]). exists (post ++ [x]).
  rewrite Hpost, Hpost'. by rewrite <- !app_assoc.
Qed.

Lemma respects_callCollect mf l : respects R (callCollect mf l).
Proof.
  intros [h lg c t ch e] [h' lg' c' t' ch' e'] (Hh & Hl & Hc & Ht & He & post & Hpost & Hpost').
  simpl in *. subst h' lg' c' t' e' ch ch'. unfold callCollect, rowAt. simpl.
  destruct (mfCollect mf (default ∅ (h !! l))) as [metrics left]. simpl.
  split; [done|]. do 5 (split; [done|]). exists (post ++ metrics). simpl.
  by rewrite <- !app_assoc.
Qed.

Create HintDb respects.

#[local] Hint Resolve respects_ret respects_make_map respects_map_get respects_map_set
  respects_map_range respects_slog respects_time_Now respects_send
  respects_callCollect : respects.

(** Goes through a computation built from the primitives. *)
Ltac respects_go :=
  repeat first
    [ apply respects_ret
    | apply respects_bind; [|intros ?]
    | apply respects_forM_; intros ?
    | solve [eauto with respects]
    | match goal with
      | |- respects _ (match ?x with _ => _ end) => destruct x
      end ].

Lemma respects_time_Since t : respects R (time_Since t).
Proof. unfold time_Since. respects_go. Qed.

Lemma respects_applyOperator filter valueStr : respects R (applyOperator filter valueStr).
Proof. unfold applyOperator. respects_go. Qed.

#[local] Hint Resolve respects_time_Since respects_applyOperator : respects.

Lemma respects_applyRowFilter row filter : respects R (applyRowFilter row filter).
Proof. unfold applyRowFilter. respects_go. Qed.

#[local] Hint Resolve respects_applyRowFilter : respects.

Lemma respects_filterLoop row filters : respects R (filterLoop row filters).
Proof. induction filters as [|f fs IH]; simpl; respects_go. Qed.

Lemma respects_shouldIncludeRow row metric : respects R (shouldIncludeRow row metric).
Proof. apply respects_filterLoop. Qed.

Lemma respects_lagFromString s format : respects R (lagFromString s format).
Proof. unfold lagFromString. respects_go. Qed.

#[local] Hint Resolve respects_shouldIncludeRow respects_lagFromString : respects.

Lemma respects_calculateLag v format : respects R (calculateLag v format).
Proof. unfold calculateLag. respects_go. Qed.

#[local] Hint Resolve respects_calculateLag : respects.

Lemma respects_lagStep row result lc : respects R (lagStep row result lc).
Proof. unfold lagStep. respects_go. Qed.

Lemma respects_columnStep result filtered column :
  respects R (columnStep result filtered column).
Proof. unfold columnStep. respects_go. Qed.

#[local] Hint Resolve respects_lagStep respects_columnStep : respects.

Lemma respects_applyTransformations row metric :
  respects R (applyTransformations row metric).
Proof. unfold applyTransformations. respects_go. Qed.

#[local] Hint Resolve respects_applyTransformations : respects.

Lemma respects_familiesLoop row mfs : forall s, respects R (familiesLoop row mfs s).
Proof. induction mfs as [|mf mfs IH]; intros s; simpl; respects_go. Qed.

Lemma respects_pickLoop ct result cols : forall dest,
  respects R (pickLoop ct result cols dest).
Proof. induction cols as [|c cols IH]; intros dest; simpl; respects_go. Qed.

#[local] Hint Resolve respects_familiesLoop respects_pickLoop : respects.

Lemma respects_scanRow q rows dest : respects R (scanRow q rows dest).
Proof. unfold scanRow. respects_go. Qed.

#[local] Hint Resolve respects_scanRow : respects.

Lemma respects_rowsLoop q rows pending : forall dest s,
  respects R (rowsLoop q rows pending dest s).
Proof. induction pending as [|values rest IH]; intros dest s; simpl; respects_go. Qed.

End ChannelProps.
End ChannelProps.

(** * Properties of the row pipeline *)

Module PipelineProps.
Section PipelineProps.
Context {ext : External}.

Import Pipeline Spec HeapProps.

(** ** Row filters *)

Lemma applyOperator_fst filter valueStr w1 w2 :
  fst (applyOperator filter valueStr w1) = fst (applyOperator filter valueStr w2).
Proof. unfold applyOperator. repeat case_match; reflexivity. Qed.

Lemma applyOperator_heap filter valueStr w :
  heap (snd (applyOperator filter valueStr w)) = heap w.
Proof. unfold applyOperator. repeat case_match; reflexivity. Qed.

Lemma applyOperator_unknown filter valueStr w :
  knownOperator (Operator filter) = false ->
  fst (applyOperator filter valueStr w) = true.
Proof.
  unfold knownOperator. intros Hop. apply bool_decide_eq_false in Hop.
  assert (forall s, s ∈ ["equals"; "not_equals"; "in"; "not_in"; "contains"] ->
                    String.eqb (Operator filter) s = false) as Hne.
  { intros s Hs. apply String.eqb_neq. intros Heq. apply Hop. by rewrite Heq. }
  unfold applyOperator.
  rewrite !Hne by (rewrite !elem_of_cons; tauto).
  reflexivity.
Qed.

Lemma applyRowFilter_fst row filter w1 w2 :
  heap w1 = heap w2 ->
  fst (applyRowFilter row filter w1) = fst (applyRowFilter row filter w2).
Proof.
  intros Hh. unfold applyRowFilter, bind, map_get, rowAt. rewrite Hh.
  destruct (default ∅ (heap w2 !! row) !! Column filter) as [[s [|]|f [|]|t [|]|s| |r]|];
    simpl; try reflexivity; apply applyOperator_fst.
Qed.

Lemma applyRowFilter_heap row filter w :
  heap (snd (applyRowFilter row filter w)) = heap w.
Proof.
  unfold applyRowFilter, bind, map_get.
  destruct (rowAt w row !! Column filter) as [[s [|]|f [|]|t [|]|s| |r]|];
    simpl; try reflexivity; apply applyOperator_heap.
Qed.

Lemma filterLoop_heap row filters w :
  heap (snd (filterLoop row filters w)) = heap w.
Proof.
  revert w. induction filters as [|f fs IH]; intros w; simpl; [done|].
  unfold bind. destruct (applyRowFilter row f w) as [ok w1] eqn:Hf.
  assert (heap w1 = heap w) as Hw1.
  { pose proof (applyRowFilter_heap row f w) as Hh. by rewrite Hf in Hh. }
  destruct ok; simpl; [|done]. by rewrite IH.
Qed.

Lemma shouldIncludeRow_heap row metric w :
  heap (snd (shouldIncludeRow row metric w)) = heap w.
Proof. apply filterLoop_heap. Qed.

Lemma filterLoop_all row filters w :
  fst (filterLoop row filters w) = true <->
  forall f, f ∈ filters -> fst (applyRowFilter row f w) = true.
Proof.
  revert w. induction filters as [|f fs IH]; intros w; simpl.
  - split; [|done]. intros _ f Hf. by apply elem_of_nil in Hf.
  - unfold bind. destruct (applyRowFilter row f w) as [ok w1] eqn:Hf.
    assert (heap w1 = heap w) as Hw1.
    { pose proof (applyRowFilter_heap row f w) as Hh. by rewrite Hf in Hh. }
    destruct ok; simpl.
    + rewrite IH. split.
      * intros Hall f' Hf'. apply elem_of_cons in Hf' as [->|Hf'].
        -- by rewrite Hf.
        -- rewrite <- (applyRowFilter_fst row f' w1 w Hw1). by apply Hall.
      * intros Hall f' Hf'. rewrite (applyRowFilter_fst row f' w1 w Hw1).
        apply Hall. by apply elem_of_cons; right.
    + split; [done|]. intros Hall. specialize (Hall f). rewrite Hf in Hall.
      apply Hall. by apply elem_of_cons; left.
Qed.

(** C1, as the code has it.  A row is included exactly when every configured
    filter matches it; a filter on a column the row does not have does not
    match; a filter on a NULL value does not match; and a filter with an
    operator that is not recognised matches whenever its column is in the row
    with a value that is not NULL. *)
Theorem shouldIncludeRow_filters (w : World) (row : loc) (metric : MetricConfig) :
  (fst (shouldIncludeRow row metric w) = true <->
     forall f, f ∈ RowFilters metric -> fst (applyRowFilter row f w) = true)
  /\ (forall f, rowAt w row !! Column f = None -> fst (applyRowFilter row f w) = false)
  /\ (forall f v, rowAt w row !! Column f = Some v -> isNull v = true ->
        fst (applyRowFilter row f w) = false)
  /\ (forall f v, knownOperator (Operator f) = false ->
        rowAt w row !! Column f = Some v -> isNull v = false ->
        fst (applyRowFilter row f w) = true).
Proof.
  split; [apply filterLoop_all|]. split; [|split].
  - intros f Hnone. unfold applyRowFilter, bind, map_get. by rewrite Hnone.
  - intros f v Hv Hnull. unfold applyRowFilter, bind, map_get. rewrite Hv.
    by destruct v as [s [|]|x [|]|t [|]|s| |r].
  - intros f v Hop Hv Hnull. unfold applyRowFilter, bind, map_get. rewrite Hv.
    destruct v as [s [|]|x [|]|t [|]|s| |r]; simpl in *; try done;
      by apply applyOperator_unknown.
Qed.

(** ** The lag calculation leaves the heap alone *)

Lemma lagFromString_heap s format w : heap (snd (lagFromString s format w)) = heap w.
Proof.
  unfold lagFromString. destruct (decide (s = EmptyString)); [done|].
  by destruct (Time_Parse _ s).
Qed.

Lemma calculateLag_heap v format w : heap (snd (calculateLag v format w)) = heap w.
Proof.
  unfold calculateLag.
  destruct v as [s [|]|x [|]|t [|]|s| |r]; simpl; try done; apply lagFromString_heap.
Qed.

Lemma lagStep_sameExcept row result lc w :
  sameExcept {[result]} w (snd (lagStep row result lc w)).
Proof.
  unfold lagStep, bind, map_get.
  destruct (rowAt w row !! SourceColumn lc) as [v|]; [|apply sameExcept_refl].
  pose proof (calculateLag_heap v (TimestampFormat lc) w) as Hh.
  destruct (calculateLag v (TimestampFormat lc) w) as [lag w1]. simpl in Hh.
  eapply sameExcept_trans; [apply sameExcept_heap, Hh|apply map_set_sameExcept].
Qed.

Lemma columnStep_sameExcept result filtered column w :
  sameExcept {[filtered]} w (snd (columnStep result filtered column w)).
Proof.
  unfold columnStep, bind, map_get.
  destruct (rowAt w result !! column) as [v|]; [apply map_set_sameExcept|apply sameExcept_refl].
Qed.

(** ** The three loops of applyTransformations, by content *)

Lemma foldl_insert_list_to_map (entries : list (string * any)) (m : Row) :
  foldl (fun m kv => <[fst kv := snd kv]> m) m entries = list_to_map (reverse entries) ∪ m.
Proof.
  revert m. induction entries as [|[k v] entries IH]; intros m; simpl.
  - by rewrite (left_id_L ∅ (∪)).
  - rewrite IH, reverse_cons, list_to_map_app. simpl.
    rewrite <- (assoc_L (∪)). f_equal.
    rewrite insert_union_singleton_l. f_equal.
Qed.

Lemma foldl_insert_map_to_list (r : Row) :
  foldl (fun m kv => <[fst kv := snd kv]> m) ∅ (map_to_list r) = r.
Proof.
  rewrite foldl_insert_list_to_map, (right_id_L ∅ (∪)).
  rewrite <- (list_to_map_to_list r) at 2.
  apply list_to_map_proper.
  - rewrite fmap_reverse, reverse_Permutation. apply NoDup_fst_map_to_list.
  - apply reverse_Permutation.
Qed.

(** The loop that copies the entries into [result]. *)
Lemma copyLoop_run result entries w w' :
  forM_ entries (fun kv : string * any => map_set result (fst kv) (snd kv)) w = (tt, w') ->
  is_Some (heap w !! result) ->
  sameExcept {[result]} w w'
  /\ rowAt w' result = foldl (fun m kv => <[fst kv := snd kv]> m) (rowAt w result) entries
  /\ log w' = log w /\ ticks w' = ticks w /\ clock w' = clock w /\ chan w' = chan w.
Proof.
  revert w. induction entries as [|[k v] entries IH]; intros w; simpl.
  - intros [= <-] _. split; [apply sameExcept_refl|done].
  - unfold bind. destruct (map_set result k v w) as [[] w1] eqn:Hset.
    intros Hrest Hsome.
    pose proof (map_set_sameExcept result k v w) as Hframe.
    pose proof (map_set_rowAt result k v w Hsome) as Hrow.
    rewrite Hset in Hframe, Hrow. simpl in Hframe, Hrow.
    apply IH in Hrest as (Hf & Hr & Hlog & Htick & Hclock & Hchan);
      [|by eapply sameExcept_is_Some].
    split; [by eapply sameExcept_trans|].
    rewrite Hr, Hrow, Hlog, Htick, Hclock, Hchan.
    unfold map_set in Hset. by injection Hset as <-.
Qed.

(** One lag calculation: nothing when the source column is not in the row,
    else the lag of the source value stored under the output column. *)
Lemma lagStep_run row result lc w w' :
  lagStep row result lc w = (tt, w') ->
  is_Some (heap w !! result) ->
  sameExcept {[result]} w w'
  /\ match rowAt w row !! SourceColumn lc with
     | None => w' = w
     | Some v =>
         rowAt w' result
         = <[OutputColumn lc := lagValue (fst (calculateLag v (TimestampFormat lc) w))]>
             (rowAt w result)
     end.
Proof.
  intros Hrun Hsome. split.
  { pose proof (lagStep_sameExcept row result lc w) as Hf. by rewrite Hrun in Hf. }
  revert Hrun. unfold lagStep, bind, map_get.
  destruct (rowAt w row !! SourceColumn lc) as [v|]; [|by intros [= <-]].
  pose proof (calculateLag_heap v (TimestampFormat lc) w) as Hh.
  destruct (calculateLag v (TimestampFormat lc) w) as [lag w1] eqn:Hlag. simpl in Hh.
  intros Hset.
  assert (is_Some (heap w1 !! result)) as Hsome1 by by rewrite Hh.
  pose proof (map_set_rowAt result (OutputColumn lc) (lagValue lag) w1 Hsome1) as Hrow.
  unfold lagValue in Hrow. rewrite Hset in Hrow. simpl in Hrow.
  rewrite Hrow. unfold rowAt. by rewrite Hh.
Qed.

(** The loop over the lag calculations, column by column: a column keeps its
    content when no calculation with a source in the row has it as output,
    and else holds the lag some such calculation computed. *)
Lemma lagLoop_column row result lcs c : forall w w',
  forM_ lcs (lagStep row result) w = (tt, w') ->
  row <> result -> is_Some (heap w !! result) ->
  sameExcept {[result]} w w'
  /\ ((rowAt w' result !! c = rowAt w result !! c
       /\ forall lc, lc ∈ lcs -> OutputColumn lc = c -> rowAt w row !! SourceColumn lc = None)
      \/ exists lc v wi, lc ∈ lcs /\ OutputColumn lc = c
           /\ rowAt w row !! SourceColumn lc = Some v
           /\ rowAt w' result !! c
              = Some (lagValue (fst (calculateLag v (TimestampFormat lc) wi)))).
Proof.
  induction lcs as [|lc0 lcs IH]; intros w w'; simpl.
  - intros [= <-] _ _. split; [apply sameExcept_refl|]. left. split; [done|].
    intros lc Hlc. by apply elem_of_nil in Hlc.
  - unfold bind. destruct (lagStep row result lc0 w) as [[] w1] eqn:Hstep.
    intros Hrest Hne Hsome.
    apply lagStep_run in Hstep as [Hf1 Hstep]; [|done].
    assert (rowAt w1 row = rowAt w row) as Hrow1.
    { eapply sameExcept_rowAt; [exact Hf1|]. set_solver. }
    apply IH in Hrest as [Hf2 Hcol]; [|done|by eapply sameExcept_is_Some].
    split; [by eapply sameExcept_trans|].
    rewrite Hrow1 in Hcol.
    destruct Hcol as [[Hkeep Hnone]|(lc & v & wi & Hlc & Hout & Hsrc & Hval)].
    + destruct (rowAt w row !! SourceColumn lc0) as [v|] eqn:Hsrc0.
      * destruct (decide (OutputColumn lc0 = c)) as [Hout|Hout].
        -- right. exists lc0, v, w. split; [by apply elem_of_cons; left|].
           split; [done|]. split; [done|].
           rewrite Hkeep, Hstep, <- Hout. apply lookup_insert_eq.
        -- left. split.
           ++ rewrite Hkeep, Hstep. by apply lookup_insert_ne.
           ++ intros lc Hlc Hc. apply elem_of_cons in Hlc as [->|Hlc]; [done|].
              by apply Hnone.
      * subst w1. left. split; [done|].
        intros lc Hlc Hc. apply elem_of_cons in Hlc as [->|Hlc]; [done|]. by apply Hnone.
    + right. exists lc, v, wi. split; [by apply elem_of_cons; right|]. done.
Qed.

(** The loop over the column allow-list. *)
Lemma columnLoop_run result filtered cols : forall w w',
  forM_ cols (columnStep result filtered) w = (tt, w') ->
  result <> filtered -> is_Some (heap w !! filtered) ->
  sameExcept {[filtered]} w w'
  /\ forall c, rowAt w' filtered !! c
               = if decide (c ∈ cols)
                 then match rowAt w result !! c with
                      | Some v => Some v
                      | None => rowAt w filtered !! c
                      end
                 else rowAt w filtered !! c.
Proof.
  induction cols as [|c0 cols IH]; intros w w'; simpl.
  - intros [= <-] _ _. split; [apply sameExcept_refl|]. intros c.
    destruct (decide (c ∈ [])) as [Hin|_]; [by apply elem_of_nil in Hin|done].
  - unfold bind. destruct (columnStep result filtered c0 w) as [[] w1] eqn:Hstep.
    intros Hrest Hne Hsome.
    pose proof (columnStep_sameExcept result filtered c0 w) as Hf1.
    rewrite Hstep in Hf1. simpl in Hf1.
    assert (rowAt w1 result = rowAt w result) as Hres1.
    { eapply sameExcept_rowAt; [exact Hf1|]. set_solver. }
    apply IH in Hrest as [Hf2 Hcols]; [|done|by eapply sameExcept_is_Some].
    split; [by eapply sameExcept_trans|].
    intros c. rewrite Hcols, Hres1.
    assert (rowAt w1 filtered
            = match rowAt w result !! c0 with
              | Some v => <[c0 := v]> (rowAt w filtered)
              | None => rowAt w filtered
              end) as Hfil1.
    { revert Hstep. unfold columnStep, bind, map_get.
      destruct (rowAt w result !! c0) as [v|]; [|by intros [= <-]].
      intros Hset. pose proof (map_set_rowAt filtered c0 v w Hsome) as Hrow.
      by rewrite Hset in Hrow. }
    rewrite Hfil1.
    destruct (decide (c = c0)) as [->|Hc].
    + rewrite (decide_True (P := c0 ∈ c0 :: cols)) by by apply elem_of_cons; left.
      destruct (rowAt w result !! c0) as [v|]; [|by destruct (decide (c0 ∈ cols))].
      rewrite lookup_insert_eq. by destruct (decide (c0 ∈ cols)).
    + assert (match rowAt w result !! c0 with
              | Some v => <[c0:=v]> (rowAt w filtered)
              | None => rowAt w filtered
              end !! c = rowAt w filtered !! c) as ->.
      { destruct (rowAt w result !! c0); [by apply lookup_insert_ne|done]. }
      destruct (decide (c ∈ cols)) as [Hin|Hout].
      * by rewrite decide_True by by apply elem_of_cons; right.
      * rewrite decide_False; [done|]. intros [?|?]%elem_of_cons; done.
Qed.

(** ** applyTransformations builds new maps and writes to nothing else *)

Lemma applyTransformations_frame row metric w l' w' :
  applyTransformations row metric w = (l', w') ->
  heap w !! l' = None /\ is_Some (heap w' !! l') /\ preserves w w'.
Proof.
  unfold applyTransformations, bind.
  destruct (make_map_spec w) as [Hfresh Hheap].
  destruct (make_map w) as [result w1]. simpl in Hfresh, Hheap.
  unfold map_range at 1.
  pose proof (forM__sameExcept {[result]}
                (fun kv : string * any => map_set result (fst kv) (snd kv))
                (map_to_list (rowAt w1 row)) w1
                (fun x w => map_set_sameExcept result (fst x) (snd x) w)) as H2.
  destruct (forM_ (map_to_list (rowAt w1 row)) _ w1) as [[] w2]. simpl in H2.
  pose proof (forM__sameExcept {[result]} (lagStep row result) (LagCalculations metric) w2
                (lagStep_sameExcept row result)) as H3.
  destruct (forM_ (LagCalculations metric) _ w2) as [[] w3]. simpl in H3.
  pose proof (sameExcept_trans _ _ _ _ H2 H3) as H13.
  assert (preserves w w3) as Hpres3.
  { intros l Hl. destruct H13 as [_ Hl13]. rewrite Hl13, Hheap.
    - apply lookup_insert_ne. intros <-. apply elem_of_dom in Hl as [? Hl]. congruence.
    - intros Heq%elem_of_singleton. subst l. apply elem_of_dom in Hl as [? Hl]. congruence. }
  assert (is_Some (heap w3 !! result)) as Hres3.
  { eapply sameExcept_is_Some; [exact H13|]. rewrite Hheap, lookup_insert_eq. by eexists. }
  destruct (0 <? length (ColumnFilters metric))%nat.
  - destruct (make_map_spec w3) as [Hfresh' Hheap'].
    destruct (make_map w3) as [filtered w4]. simpl in Hfresh', Hheap'.
    pose proof (forM__sameExcept {[filtered]} (columnStep result filtered)
                  (ColumnFilters metric) w4 (columnStep_sameExcept result filtered)) as H5.
    destruct (forM_ (ColumnFilters metric) _ w4) as [[] w5]. simpl in H5.
    intros [= <- <-].
    assert (forall l, l ∈ dom (heap w) -> l <> filtered) as Hneq.
    { intros l Hl <-. apply elem_of_dom in Hl.
      rewrite <- (Hpres3 l) in Hl by by apply elem_of_dom.
      rewrite Hfresh' in Hl. by destruct Hl. }
    split; [|split].
    + destruct (heap w !! filtered) eqn:Hf; [|done].
      exfalso. apply (Hneq filtered); [|done]. apply elem_of_dom. by eexists.
    + eapply sameExcept_is_Some; [exact H5|]. rewrite Hheap', lookup_insert_eq. by eexists.
    + intros l Hl. destruct H5 as [_ Hl5]. rewrite Hl5, Hheap'.
      * rewrite lookup_insert_ne by (intros <-; by apply (Hneq filtered)). by apply Hpres3.
      * intros Heq%elem_of_singleton. by apply (Hneq l).
  - intros [= <- <-]. done.
Qed.

(** What the map returned by [applyTransformations] holds, column by
    column: nothing for a column the allow-list drops; else the lag of a
    calculation that has the column as output and its source in the row, when
    there is one, and the content of the row when there is none. *)
Lemma applyTransformations_content row r metric w l' w' :
  heap w !! row = Some r ->
  applyTransformations row metric w = (l', w') ->
  forall c,
    (survives metric c ->
       (rowAt w' l' !! c = r !! c
        /\ forall lc, lc ∈ LagCalculations metric -> OutputColumn lc = c ->
                      r !! SourceColumn lc = None)
       \/ exists lc v wi, lc ∈ LagCalculations metric /\ OutputColumn lc = c
            /\ r !! SourceColumn lc = Some v
            /\ rowAt w' l' !! c = Some (lagValue (fst (calculateLag v (TimestampFormat lc) wi))))
    /\ (~ survives metric c -> rowAt w' l' !! c = None).
Proof.
  intros Hrow. unfold applyTransformations, bind.
  destruct (make_map_spec w) as [Hfresh Hheap].
  destruct (make_map w) as [result w1]. simpl in Hfresh, Hheap.
  assert (row <> result) as Hne by congruence.
  assert (rowAt w1 row = r) as Hrow1.
  { unfold rowAt. by rewrite Hheap, lookup_insert_ne, Hrow. }
  assert (rowAt w1 result = ∅) as Hres1.
  { unfold rowAt. by rewrite Hheap, lookup_insert_eq. }
  assert (is_Some (heap w1 !! result)) as Hsome1.
  { rewrite Hheap, lookup_insert_eq. by eexists. }
  unfold map_range at 1. rewrite Hrow1.
  destruct (forM_ (map_to_list r) _ w1) as [[] w2] eqn:Hcopy.
  apply copyLoop_run in Hcopy as (Hf2 & Hres2 & _); [|done].
  rewrite Hres1, foldl_insert_map_to_list in Hres2.
  assert (rowAt w2 row = r) as Hrow2.
  { rewrite <- Hrow1. eapply sameExcept_rowAt; [exact Hf2|set_solver]. }
  destruct (forM_ (LagCalculations metric) _ w2) as [[] w3] eqn:Hlag.
  assert (is_Some (heap w2 !! result)) as Hsome2 by by eapply sameExcept_is_Some.
  assert (forall c,
    (rowAt w3 result !! c = r !! c
     /\ forall lc, lc ∈ LagCalculations metric -> OutputColumn lc = c ->
                   r !! SourceColumn lc = None)
    \/ exists lc v wi, lc ∈ LagCalculations metric /\ OutputColumn lc = c
         /\ r !! SourceColumn lc = Some v
         /\ rowAt w3 result !! c
            = Some (lagValue (fst (calculateLag v (TimestampFormat lc) wi)))) as Hcols.
  { intros c. destruct (lagLoop_column row result _ c _ _ Hlag Hne Hsome2) as [_ Hc].
    by rewrite Hres2, Hrow2 in Hc. }
  assert (sameExcept {[result]} w2 w3) as Hf3.
  { by destruct (lagLoop_column row result _ EmptyString _ _ Hlag Hne Hsome2). }
  destruct (0 <? length (ColumnFilters metric))%nat eqn:Hlen.
  - destruct (make_map_spec w3) as [Hfresh' Hheap'].
    destruct (make_map w3) as [filtered w4]. simpl in Hfresh', Hheap'.
    assert (is_Some (heap w3 !! result)) as Hsome3 by by eapply sameExcept_is_Some.
    assert (result <> filtered) as Hne'.
    { intros <-. rewrite Hfresh' in Hsome3. by destruct Hsome3. }
    destruct (forM_ (ColumnFilters metric) _ w4) as [[] w5] eqn:Hloop.
    apply columnLoop_run in Hloop as [_ Hfil];
      [|done|rewrite Hheap', lookup_insert_eq; by eexists].
    intros [= <- <-] c. rewrite Hfil.
    assert (rowAt w4 filtered = ∅) as ->.
    { unfold rowAt. by rewrite Hheap', lookup_insert_eq. }
    assert (rowAt w4 result = rowAt w3 result) as ->.
    { unfold rowAt. by rewrite Hheap', lookup_insert_ne. }
    rewrite lookup_empty. split.
    + intros [Hnil|Hin]; [by rewrite Hnil in Hlen|]. rewrite decide_True by done.
      destruct (Hcols c) as [[Hkeep Hnone]|(lc & v & wi & Hlc & Hout & Hsrc & Hval)].
      * left. split; [|done]. rewrite <- Hkeep. by destruct (rowAt w3 result !! c).
      * right. exists lc, v, wi. by rewrite Hval.
    + intros Hno. rewrite decide_False; [done|]. intros Hin. apply Hno. by right.
  - intros [= <- <-] c. split; [intros _; apply Hcols|].
    intros Hno. exfalso. apply Hno. left. by destruct (ColumnFilters metric).
Qed.

(** ** calculateLag, case by case *)

Lemma f64_neq_zero (x : float64) :
  f64_neq x f64_zero = false <-> exists s, x = S754_zero s.
Proof.
  unfold f64_neq, f64_zero, SFeqb. destruct x as [s|s| |s m e]; simpl.
  - split; [by eexists|done].
  - destruct s; simpl; split; try done; by intros [? ?].
  - split; [done|]. by intros [? ?].
  - destruct s; simpl; split; try done; by intros [? ?].
Qed.

Lemma calculateLag_NullTime t format w :
  calculateLag (NullTime t true) format w
  = (Seconds (Sub (clock w (ticks w)) t), afterTick w).
Proof. reflexivity. Qed.

Lemma lagFromString_unparseable s format err w :
  Time_Parse (effectiveLayout format) s = Err err ->
  lagFromString s format w
  = (f64_zero, if decide (s = EmptyString) then w
               else afterLog (parseWarning s (effectiveLayout format) err) w).
Proof.
  intros Hparse. unfold lagFromString. destruct (decide (s = EmptyString)); [done|].
  fold (effectiveLayout format). by rewrite Hparse.
Qed.

Lemma calculateLag_text v s format w :
  timestampText v = Some s -> calculateLag v format w = lagFromString s format w.
Proof.
  destruct v as [s' [|]|x [|]|t [|]|s'| |r]; simpl; intros [= <-]; reflexivity.
Qed.

(** ** The lag loop, exactly *)

Lemma lagFromString_clock s format w :
  clock (snd (lagFromString s format w)) = clock w
  /\ ticks (snd (lagFromString s format w))
     = (ticks w + if decide (s = EmptyString) then 0
                  else match Time_Parse (effectiveLayout format) s with
                       | Ok _ => 1
                       | Err _ => 0
                       end)%nat.
Proof.
  unfold lagFromString. destruct (decide (s = EmptyString)); simpl; [split; [done|lia]|].
  fold (effectiveLayout format).
  destruct (Time_Parse (effectiveLayout format) s); simpl; split; try done; lia.
Qed.

Lemma calculateLag_clock v format w :
  clock (snd (calculateLag v format w)) = clock w
  /\ ticks (snd (calculateLag v format w))
     = (ticks w + if readsClock v format then 1 else 0)%nat.
Proof.
  assert (forall s,
            clock (snd (lagFromString s format w)) = clock w
            /\ ticks (snd (lagFromString s format w))
               = (ticks w + if (if decide (s = EmptyString) then false
                                else match Time_Parse (effectiveLayout format) s with
                                     | Ok _ => true
                                     | Err _ => false
                                     end) then 1 else 0)%nat) as Htext.
  { intros s. destruct (lagFromString_clock s format w) as [Hc Ht]. split; [done|].
    rewrite Ht. destruct (decide (s = EmptyString)); [done|].
    by destruct (Time_Parse (effectiveLayout format) s). }
  unfold calculateLag, readsClock.
  destruct v as [s [|]|x [|]|t [|]|s| |r]; simpl; try apply Htext; split; try done; lia.
Qed.

Lemma lagFromString_fst_clock s format w1 w2 :
  clock w1 = clock w2 -> ticks w1 = ticks w2 ->
  fst (lagFromString s format w1) = fst (lagFromString s format w2).
Proof.
  intros Hc Ht. unfold lagFromString. destruct (decide (s = EmptyString)); [done|].
  destruct (Time_Parse _ s); simpl; [|done]. by rewrite Hc, Ht.
Qed.

Lemma calculateLag_fst_clock v format w1 w2 :
  clock w1 = clock w2 -> ticks w1 = ticks w2 ->
  fst (calculateLag v format w1) = fst (calculateLag v format w2).
Proof.
  intros Hc Ht. unfold calculateLag.
  destruct v as [s [|]|x [|]|t [|]|s| |r]; simpl; try done;
    try (by apply lagFromString_fst_clock).
  by rewrite Hc, Ht.
Qed.

Lemma lagStep_clock row result lc w :
  clock (snd (lagStep row result lc w)) = clock w
  /\ ticks (snd (lagStep row result lc w))
     = (ticks w + if lagReads (rowAt w row) lc then 1 else 0)%nat.
Proof.
  unfold lagStep, lagReads, bind, map_get.
  destruct (rowAt w row !! SourceColumn lc) as [v|]; simpl; [|split; [done|lia]].
  pose proof (calculateLag_clock v (TimestampFormat lc) w) as Hclock.
  by destruct (calculateLag v (TimestampFormat lc) w) as [lag w1].
Qed.

Lemma lagLoop_keep row result lcs c w w' :
  forM_ lcs (lagStep row result) w = (tt, w') ->
  row <> result -> is_Some (heap w !! result) ->
  (forall lc, lc ∈ lcs -> OutputColumn lc = c -> rowAt w row !! SourceColumn lc = None) ->
  rowAt w' result !! c = rowAt w result !! c.
Proof.
  intros Hrun Hne Hsome Hnone.
  destruct (lagLoop_column row result lcs c w w' Hrun Hne Hsome)
    as [_ [[Hkeep _]|(lc & v & wi & Hlc & Hout & Hsrc & _)]]; [done|].
  rewrite (Hnone lc Hlc Hout) in Hsrc. done.
Qed.

(** The value under an output column after the loop is the lag of the last
    calculation that writes it, computed after the readings of the clock of
    the calculations before it. *)
Lemma lagLoop_exact row result pre : forall w w' lc post v,
  forM_ (pre ++ lc :: post) (lagStep row result) w = (tt, w') ->
  row <> result -> is_Some (heap w !! result) ->
  rowAt w row !! SourceColumn lc = Some v ->
  (forall lc2, lc2 ∈ post -> OutputColumn lc2 = OutputColumn lc ->
               rowAt w row !! SourceColumn lc2 = None) ->
  rowAt w' result !! OutputColumn lc
  = Some (lagValue (fst (calculateLag v (TimestampFormat lc)
                           (afterTicks (clockReads (rowAt w row) pre) w)))).
Proof.
  induction pre as [|lc0 pre IH]; intros w w' lc post v; simpl; unfold bind.
  - destruct (lagStep row result lc w) as [[] w1] eqn:Hstep.
    intros Hrest Hne Hsome Hsrc Hnone.
    apply lagStep_run in Hstep as [Hf1 Hstep]; [|done]. rewrite Hsrc in Hstep.
    assert (rowAt w1 row = rowAt w row) as Hrow1.
    { eapply sameExcept_rowAt; [exact Hf1|]. set_solver. }
    rewrite (lagLoop_keep row result post (OutputColumn lc) w1 w' Hrest Hne);
      [|by eapply sameExcept_is_Some|by rewrite Hrow1].
    rewrite Hstep, lookup_insert_eq. do 2 f_equal.
    apply calculateLag_fst_clock; simpl; [done|lia].
  - destruct (lagStep row result lc0 w) as [[] w1] eqn:Hstep.
    intros Hrest Hne Hsome Hsrc Hnone.
    pose proof (lagStep_clock row result lc0 w) as [Hclock Hticks].
    rewrite Hstep in Hclock, Hticks. simpl in Hclock, Hticks.
    apply lagStep_run in Hstep as [Hf1 _]; [|done].
    assert (rowAt w1 row = rowAt w row) as Hrow1.
    { eapply sameExcept_rowAt; [exact Hf1|]. set_solver. }
    rewrite (IH w1 w' lc post v Hrest Hne); [|by eapply sameExcept_is_Some| |];
      [|by rewrite Hrow1|by rewrite Hrow1].
    rewrite Hrow1. do 2 f_equal.
    apply calculateLag_fst_clock; simpl; [done|lia].
Qed.

(** The stages of [applyTransformations]: the copy of the row, made without
    a reading of the clock; the lag loop on it; and the column allow-list. *)
Lemma applyTransformations_shape row r metric w l' w' :
  heap w !! row = Some r ->
  applyTransformations row metric w = (l', w') ->
  exists result w2 w3,
    row <> result /\ is_Some (heap w2 !! result)
    /\ rowAt w2 row = r /\ rowAt w2 result = r
    /\ clock w2 = clock w /\ ticks w2 = ticks w
    /\ forM_ (LagCalculations metric) (lagStep row result) w2 = (tt, w3)
    /\ forall c, (survives metric c -> rowAt w' l' !! c = rowAt w3 result !! c)
                 /\ (~ survives metric c -> rowAt w' l' !! c = None).
Proof.
  intros Hrow. unfold applyTransformations, bind.
  destruct (make_map_spec w) as [Hfresh Hheap].
  assert (clock (snd (make_map w)) = clock w /\ ticks (snd (make_map w)) = ticks w)
    as [Hclock1 Hticks1] by done.
  destruct (make_map w) as [result w1]. simpl in Hfresh, Hheap, Hclock1, Hticks1.
  assert (row <> result) as Hne by congruence.
  assert (rowAt w1 row = r) as Hrow1.
  { unfold rowAt. by rewrite Hheap, lookup_insert_ne, Hrow. }
  assert (rowAt w1 result = ∅) as Hres1.
  { unfold rowAt. by rewrite Hheap, lookup_insert_eq. }
  assert (is_Some (heap w1 !! result)) as Hsome1.
  { rewrite Hheap, lookup_insert_eq. by eexists. }
  unfold map_range at 1. rewrite Hrow1.
  destruct (forM_ (map_to_list r) _ w1) as [[] w2] eqn:Hcopy.
  apply copyLoop_run in Hcopy as (Hf2 & Hres2 & _ & Hticks2 & Hclock2 & _); [|done].
  rewrite Hres1, foldl_insert_map_to_list in Hres2.
  assert (rowAt w2 row = r) as Hrow2.
  { rewrite <- Hrow1. eapply sameExcept_rowAt; [exact Hf2|set_solver]. }
  destruct (forM_ (LagCalculations metric) _ w2) as [[] w3] eqn:Hlag.
  assert (is_Some (heap w2 !! result)) as Hsome2 by by eapply sameExcept_is_Some.
  assert (sameExcept {[result]} w2 w3) as Hf3.
  { by destruct (lagLoop_column row result _ EmptyString _ _ Hlag Hne Hsome2). }
  intros Hrun. exists result, w2, w3.
  split; [done|]. split; [done|]. split; [done|]. split; [done|].
  split; [congruence|]. split; [congruence|]. split; [done|].
  revert Hrun.
  destruct (0 <? length (ColumnFilters metric))%nat eqn:Hlen.
  - destruct (make_map_spec w3) as [Hfresh' Hheap'].
    destruct (make_map w3) as [filtered w4]. simpl in Hfresh', Hheap'.
    assert (is_Some (heap w3 !! result)) as Hsome3 by by eapply sameExcept_is_Some.
    assert (result <> filtered) as Hne'.
    { intros <-. rewrite Hfresh' in Hsome3. by destruct Hsome3. }
    destruct (forM_ (ColumnFilters metric) _ w4) as [[] w5] eqn:Hloop.
    apply columnLoop_run in Hloop as [_ Hfil];
      [|done|rewrite Hheap', lookup_insert_eq; by eexists].
    intros [= <- <-] c. rewrite Hfil.
    assert (rowAt w4 filtered = ∅) as ->.
    { unfold rowAt. by rewrite Hheap', lookup_insert_eq. }
    assert (rowAt w4 result = rowAt w3 result) as ->.
    { unfold rowAt. by rewrite Hheap', lookup_insert_ne. }
    rewrite lookup_empty. split.
    + intros [Hnil|Hin]; [by rewrite Hnil in Hlen|]. rewrite decide_True by done.
      by destruct (rowAt w3 result !! c).
    + intros Hno. rewrite decide_False; [done|]. intros Hin. apply Hno. by right.
  - intros [= <- <-] c. split; [done|].
    intros Hno. exfalso. apply Hno. left. by destruct (ColumnFilters metric).
Qed.

Lemma applyTransformations_lag row r metric w l' w' pre lc post v :
  heap w !! row = Some r ->
  applyTransformations row metric w = (l', w') ->
  LagCalculations metric = pre ++ lc :: post ->
  r !! SourceColumn lc = Some v ->
  (forall lc2, lc2 ∈ post -> OutputColumn lc2 = OutputColumn lc ->
               r !! SourceColumn lc2 = None) ->
  survives metric (OutputColumn lc) ->
  rowAt w' l' !! OutputColumn lc
  = Some (lagValue (fst (calculateLag v (TimestampFormat lc)
                           (afterTicks (clockReads r pre) w)))).
Proof.
  intros Hrow Hrun Hlcs Hsrc Hnone Hkeep.
  destruct (applyTransformations_shape row r metric w l' w' Hrow Hrun)
    as (result & w2 & w3 & Hne & Hsome & Hrow2 & _ & Hclock & Hticks & Hloop & Hcols).
  destruct (Hcols (OutputColumn lc)) as [Hval _]. rewrite (Hval Hkeep).
  rewrite Hlcs in Hloop.
  rewrite (lagLoop_exact row result pre w2 w3 lc post v Hloop Hne Hsome);
    [|by rewrite Hrow2|by rewrite Hrow2].
  rewrite Hrow2. do 2 f_equal. apply calculateLag_fst_clock; simpl; [done|lia].
Qed.

(** Among the calculations that write a column and have their source in
    the row, one is the last. *)
Lemma last_writer (r : Row) (c : string) (lcs : list LagCalculation) :
  (exists lc, lc ∈ lcs /\ OutputColumn lc = c /\ is_Some (r !! SourceColumn lc)) ->
  exists pre lc' post,
    lcs = pre ++ lc' :: post /\ OutputColumn lc' = c /\ is_Some (r !! SourceColumn lc')
    /\ forall lc2, lc2 ∈ post -> OutputColumn lc2 = c -> r !! SourceColumn lc2 = None.
Proof.
  induction lcs as [|x lcs IH]; intros (lc & Hlc & Hout & Hsrc).
  { by apply elem_of_nil in Hlc. }
  destruct (decide (Exists (fun l => OutputColumn l = c /\ is_Some (r !! SourceColumn l)) lcs))
    as [Hlater|Hnone].
  - apply Exists_exists in Hlater as (l & Hl & Hl').
    destruct IH as (pre & lc' & post & -> & Hrest); [by exists l|].
    by exists (x :: pre), lc', post.
  - assert (lc = x) as ->.
    { apply elem_of_cons in Hlc as [->|Hlc]; [done|].
      exfalso. apply Hnone, Exists_exists. by exists lc. }
    exists [], x, lcs. split; [done|]. split; [done|]. split; [done|].
    intros lc2 Hlc2 Hout2. apply eq_None_not_Some. intros Hsome.
    apply Hnone, Exists_exists. by exists lc2.
Qed.

Lemma lagFromString_parsed s format t w :
  s <> EmptyString -> Time_Parse (effectiveLayout format) s = Ok t ->
  lagFromString s format w = (Seconds (Sub (clock w (ticks w)) t), afterTick w).
Proof.
  intros Hne Hparse. unfold lagFromString. destruct (decide (s = EmptyString)); [done|].
  fold (effectiveLayout format). by rewrite Hparse.
Qed.

(** C2, as the code has it.  (1) A lag calculation whose source column is
    in the row stores, under its output column, a nullable float holding the
    computed lag, and the validity flag is false exactly when that lag is
    zero.  (2) In the map [applyTransformations] returns, the output column
    of such a calculation is absent when the column allow-list drops it, and
    else holds the lag of the last calculation that writes the column and has
    its source in the row, computed on the clock as the calculations before
    it have left it, with the validity flag false exactly when the lag is
    zero.  (3) A source text the parser rejects gives the lag 0, with one
    warning in the log when the text is not empty and with none when it is
    empty, which is not handed to the parser; nothing fails.  (4) A source
    text that is not empty and that the parser accepts gives the seconds
    elapsed since the parsed instant at the next reading of the clock, and
    writes nothing to the log.  (5) A native timestamp that is not NULL gives
    the seconds elapsed since it at the next reading of the clock, whatever
    the format and the parser, and writes nothing to the log.  (6) Nil and
    NULL give the lag 0 and change nothing. *)
Theorem lag_calculation :
  (forall row result lc w w' v,
     lagStep row result lc w = (tt, w') -> is_Some (heap w !! result) ->
     rowAt w row !! SourceColumn lc = Some v ->
     exists lag, lag = fst (calculateLag v (TimestampFormat lc) w)
       /\ rowAt w' result !! OutputColumn lc = Some (NullFloat64 lag (f64_neq lag f64_zero))
       /\ (f64_neq lag f64_zero = false <-> exists s, lag = S754_zero s))
  /\ (forall row r metric w l' w' lc v,
        heap w !! row = Some r -> applyTransformations row metric w = (l', w') ->
        lc ∈ LagCalculations metric -> r !! SourceColumn lc = Some v ->
        (~ survives metric (OutputColumn lc) -> rowAt w' l' !! OutputColumn lc = None)
        /\ (survives metric (OutputColumn lc) ->
            exists pre lc' post v' lag,
              LagCalculations metric = pre ++ lc' :: post
              /\ OutputColumn lc' = OutputColumn lc /\ r !! SourceColumn lc' = Some v'
              /\ (forall lc2, lc2 ∈ post -> OutputColumn lc2 = OutputColumn lc ->
                              r !! SourceColumn lc2 = None)
              /\ lag = fst (calculateLag v' (TimestampFormat lc')
                              (afterTicks (clockReads r pre) w))
              /\ rowAt w' l' !! OutputColumn lc
                 = Some (NullFloat64 lag (f64_neq lag f64_zero))
              /\ (f64_neq lag f64_zero = false <-> exists s, lag = S754_zero s)))
  /\ (forall v s format err w,
        timestampText v = Some s ->
        Time_Parse (effectiveLayout format) s = Err err ->
        calculateLag v format w
        = (f64_zero, if decide (s = EmptyString) then w
                     else afterLog (parseWarning s (effectiveLayout format) err) w))
  /\ (forall v s format t w,
        timestampText v = Some s -> s <> EmptyString ->
        Time_Parse (effectiveLayout format) s = Ok t ->
        calculateLag v format w = (Seconds (Sub (clock w (ticks w)) t), afterTick w))
  /\ (forall t format w,
        calculateLag (NullTime t true) format w
        = (Seconds (Sub (clock w (ticks w)) t), afterTick w))
  /\ (forall v format w,
        v = GoNil \/ (exists s, v = NullString s false) \/ (exists t, v = NullTime t false) ->
        calculateLag v format w = (f64_zero, w)).
Proof.
  split; [|split; [|split; [|split; [|split]]]].
  - intros row result lc w w' v Hrun Hsome Hsrc.
    apply lagStep_run in Hrun as [_ Hrun]; [|done]. rewrite Hsrc in Hrun.
    eexists. split; [reflexivity|]. split; [|apply f64_neq_zero].
    rewrite Hrun. apply lookup_insert_eq.
  - intros row r metric w l' w' lc v Hrow Hrun Hlc Hsrc. split.
    + intros Hdrop.
      by destruct (applyTransformations_content row r metric w l' w' Hrow Hrun
                     (OutputColumn lc)) as [_ Hnone]; apply Hnone.
    + intros Hkeep.
      destruct (last_writer r (OutputColumn lc) (LagCalculations metric))
        as (pre & lc' & post & Hlcs & Hout & [v' Hsrc'] & Hlast).
      { exists lc. split; [done|]. split; [done|]. by eexists. }
      exists pre, lc', post, v'. eexists.
      split; [done|]. split; [done|]. split; [done|]. split; [done|].
      split; [reflexivity|]. split; [|apply f64_neq_zero].
      rewrite <- Hout.
      apply (applyTransformations_lag row r metric w l' w' pre lc' post v'); try done.
      * intros lc2 Hlc2 Hout2. apply Hlast; [done|]. by rewrite Hout2.
      * by rewrite Hout.
  - intros v s format err w Htext Hparse.
    rewrite (calculateLag_text v s format w Htext).
    apply (lagFromString_unparseable s format err w Hparse).
  - intros v s format t w Htext Hne Hparse.
    rewrite (calculateLag_text v s format w Htext).
    by apply lagFromString_parsed.
  - intros t format w. apply calculateLag_NullTime.
  - intros v format w [->|[[s ->]|[t ->]]]; reflexivity.
Qed.

End PipelineProps.

Import Pipeline Spec Examples.

(** C2 at a concrete input: the parser rejects the empty text, and the lag
    of the empty text is 0 with nothing written to the log. *)
Lemma empty_timestamp_no_warning :
  @Time_Parse sampleExternal (effectiveLayout EmptyString) EmptyString = Err "cannot parse"
  /\ @calculateLag sampleExternal (NullString EmptyString true) EmptyString world0
     = (f64_zero, world0)
  /\ log (snd (@calculateLag sampleExternal (NullString EmptyString true) EmptyString world0))
     = [].
Proof. repeat split. Qed.

(** C1 at a concrete input: the operator "matches" is not one the code
    knows, the row has no column [zone], and the filter does not match. *)
Lemma unknown_operator_absent_column :
  knownOperator (Operator unknownOperatorFilter) = false
  /\ rowAt worldProd 1%positive !! Column unknownOperatorFilter = None
  /\ fst (@applyRowFilter sampleExternal 1%positive unknownOperatorFilter worldProd) = false.
Proof. vm_compute. done. Qed.

Lemma shouldIncludeRow_filters_witness :
  fst (@applyRowFilter sampleExternal 1%positive (mkRowFilter "zone" "equals" "eu" []) worldProd)
    = false
  /\ fst (@applyRowFilter sampleExternal 1%positive (mkRowFilter "region" "equals" EmptyString [])
            worldProd) = false
  /\ fst (@applyRowFilter sampleExternal 1%positive (mkRowFilter "env" "matches" "x" [])
            worldProd) = true.
Proof.
  destruct (@shouldIncludeRow_filters sampleExternal worldProd 1%positive noMetric)
    as (_ & Habsent & Hnull & Hunknown).
  split; [|split].
  - apply Habsent. reflexivity.
  - apply (Hnull _ (NullString EmptyString false)); reflexivity.
  - apply (Hunknown _ (NullString "prod" true)); reflexivity.
Defined.

(** The lag of [rowLag] under [lagFamily]; a timestamp that does not parse;
    a native timestamp 30 s old. *)
Lemma lag_calculation_witness :
  (exists lag,
     rowAt (snd (@applyTransformations sampleExternal 1%positive (config lagFamily) worldLag))
           (fst (@applyTransformations sampleExternal 1%positive (config lagFamily) worldLag))
       !! "lag_seconds" = Some (NullFloat64 lag (f64_neq lag f64_zero)))
  /\ @calculateLag sampleExternal (NullString "yesterday" true) EmptyString world0
     = (f64_zero, afterLog (parseWarning "yesterday" trinoLayout "cannot parse") world0)
  /\ @calculateLag sampleExternal (NullString "970" true) EmptyString world0
     = (Seconds (Sub (clock world0 (ticks world0)) (970 * Second)), afterTick world0)
  /\ @calculateLag sampleExternal (NullTime (970 * Second) true) EmptyString world0
     = (Seconds (Sub (clock world0 (ticks world0)) (970 * Second)), afterTick world0).
Proof.
  destruct (@lag_calculation sampleExternal) as (_ & Hmap & Hparse & Hparsed & Htime & _).
  split; [|split; [|split]].
  - destruct (@applyTransformations sampleExternal 1%positive (config lagFamily) worldLag)
      as [l' w'] eqn:Hrun.
    destruct (Hmap 1%positive rowLag (config lagFamily) worldLag l' w'
                (mkLagCalculation "updated_at" "lag_seconds" EmptyString)
                (NullString "970" true)) as [_ Hkeep].
    + reflexivity.
    + exact Hrun.
    + apply list_elem_of_here.
    + reflexivity.
    + destruct Hkeep as (pre & lc' & post & v' & lag & _ & _ & _ & _ & _ & Hval & _).
      * left. reflexivity.
      * exists lag. exact Hval.
  - apply (Hparse (NullString "yesterday" true) "yesterday" EmptyString "cannot parse" world0).
    + reflexivity.
    + reflexivity.
  - apply (Hparsed (NullString "970" true) "970" EmptyString (970 * Second) world0).
    + reflexivity.
    + done.
    + reflexivity.
  - apply Htime.
Defined.

End PipelineProps.

(** * Properties of the row scanner *)

Module ScannerProps.
Section ScannerProps.
Context {ext : External}.

Import Scanner Spec HeapProps.

(** ** scanDest *)

Lemma destLoop_spec ct cols : forall dest have,
  let r := destLoop ct cols dest have in
  (forall c, c ∈ snd r <-> c ∈ have \/ (c ∈ cols /\ is_Some (ct !! c)))
  /\ exists new, fst r = dest ++ new /\ Forall2 (slotFits ct) cols new.
Proof.
  induction cols as [|c0 cols IH]; intros dest have; simpl.
  - split.
    + intros c. split; [by left|]. intros [?|[Hin _]]; [done|by apply elem_of_nil in Hin].
    + exists []. by rewrite app_nil_r.
  - destruct (ct !! c0) as [[| |]|] eqn:Hc0;
      match goal with
      | |- context [destLoop ct cols (dest ++ [?slot]) ?have'] =>
          destruct (IH (dest ++ [slot]) have') as [Hhave (new & Hdest & Hfit)];
          (split;
           [ intros c; rewrite Hhave, elem_of_cons;
             try (rewrite elem_of_union, elem_of_singleton);
             split;
             [ intros [Hc|[Hc Hs]]; try tauto;
               try (destruct Hc as [->|Hc]; [right; split; [by left|by rewrite Hc0]|by left])
             | intros [Hc|[[->|Hc] Hs]]; try tauto;
               try (rewrite Hc0 in Hs; by destruct Hs) ]
           | exists (slot :: new); split;
             [ by rewrite Hdest, <- app_assoc
             | constructor; [unfold slotFits; by rewrite Hc0|done] ] ])
      end.
Qed.

Lemma missingColumns_spec ct have :
  NoDup (missingColumns ct have)
  /\ forall c, c ∈ missingColumns ct have <-> is_Some (ct !! c) /\ c ∉ have.
Proof.
  unfold missingColumns. split.
  - apply NoDup_filter, NoDup_fst_map_to_list.
  - intros c. rewrite list_elem_of_filter, list_elem_of_fmap. split.
    + intros [Hout ([c' t] & -> & Hin)]. apply elem_of_map_to_list in Hin.
      split; [by eexists|done].
    + intros [[t Hc] Hout]. split; [done|]. exists (c, t). split; [done|].
      by apply elem_of_map_to_list.
Qed.

(** [scanDest] on an open cursor: it fails exactly when a requested column
    is not among the columns of the result set, and then names the requested
    columns that are not, each once; else the cells fit the columns. *)
Lemma scanDest_spec q rows :
  rowsClosed rows = false ->
  ((exists c, is_Some (columnTypes q !! c) /\ c ∉ rowsColumns rows) ->
     exists missing,
       scanDest q rows = Err (mkWithContext (logContext q) (MissingValues missing))
       /\ NoDup missing
       /\ forall c, c ∈ missing <-> is_Some (columnTypes q !! c) /\ c ∉ rowsColumns rows)
  /\ ((forall c, is_Some (columnTypes q !! c) -> c ∈ rowsColumns rows) ->
     exists dest, scanDest q rows = Ok dest
                  /\ Forall2 (slotFits (columnTypes q)) (rowsColumns rows) dest).
Proof.
  intros Hopen. unfold scanDest, Columns. rewrite Hopen.
  destruct (destLoop_spec (columnTypes q) (rowsColumns rows) [] ∅)
    as [Hhave (new & Hdest & Hfit)].
  destruct (destLoop (columnTypes q) (rowsColumns rows) [] ∅) as [dest have].
  simpl in Hhave, Hdest. subst dest.
  assert (forall c, c ∈ have <-> c ∈ rowsColumns rows /\ is_Some (columnTypes q !! c)) as Hhave'.
  { intros c. rewrite Hhave. set_solver. }
  assert (have ⊆ dom (columnTypes q)) as Hsub.
  { intros c Hc. apply elem_of_dom. by apply Hhave'. }
  destruct (missingColumns_spec (columnTypes q) have) as [Hnodup Hmissing].
  split.
  - intros (c & Hreq & Hout).
    rewrite decide_True.
    + eexists. split; [reflexivity|]. split; [done|].
      intros c'. rewrite Hmissing, Hhave'. tauto.
    + intros Hsize. rewrite <- size_dom in Hsize.
      assert (have = dom (columnTypes q)) as Heq.
      { apply set_subseteq_size_eq; [done|lia]. }
      apply Hout, (Hhave' c). rewrite Heq. by apply elem_of_dom.
  - intros Hall. rewrite decide_False.
    + exists new. done.
    + intros Hsize. apply Hsize. rewrite <- size_dom. f_equal.
      apply set_eq. intros c. rewrite Hhave', elem_of_dom. split; [tauto|].
      intros Hc. split; [by apply Hall|done].
Qed.

(** ** Scan *)

Lemma scanSlot_indep a b v :
  sameKind a b ->
  fst (scanSlot a v) = fst (scanSlot b v)
  /\ sameKind (snd (scanSlot a v)) (snd (scanSlot b v))
  /\ sameKind a (snd (scanSlot a v))
  /\ (fst (scanSlot a v) = None -> snd (scanSlot a v) = snd (scanSlot b v)).
Proof.
  destruct a, b; simpl; try done; intros _.
  - destruct v; simpl; try done; by destruct (convertAssign_string _).
  - destruct v; simpl; try done; by destruct (convertAssign_float64 _).
  - destruct v; simpl; try done; by destruct (convertAssign_Time _).
Qed.

Lemma sameKind_refl a : sameKind a a.
Proof. by destruct a. Qed.

Lemma sameKind_trans a b c : sameKind a b -> sameKind b c -> sameKind a c.
Proof. by destruct a, b, c. Qed.

Lemma sameKind_sym a b : sameKind a b -> sameKind b a.
Proof. by destruct a, b. Qed.

Lemma scanLoop_indep values : forall d1 d2,
  Forall2 sameKind d1 d2 ->
  fst (scanLoop values d1) = fst (scanLoop values d2)
  /\ Forall2 sameKind (snd (scanLoop values d1)) (snd (scanLoop values d2))
  /\ Forall2 sameKind d1 (snd (scanLoop values d1))
  /\ (fst (scanLoop values d1) = None -> length d1 = length values ->
      snd (scanLoop values d1) = snd (scanLoop values d2)).
Proof.
  induction values as [|v values IH]; intros d1 d2 Hk; simpl.
  - split; [done|]. split; [done|]. split.
    + apply Forall_Forall2_diag, Forall_forall. intros; apply sameKind_refl.
    + intros _ Hlen. destruct d1; [|done]. by inversion Hk.
  - destruct Hk as [|a b d1 d2 Hab Hk]; simpl; [done|].
    destruct (scanSlot_indep a b v Hab) as (Herr & Hkind & Hself & Heq).
    destruct (scanSlot a v) as [[e|] a'], (scanSlot b v) as [[e'|] b'];
      simpl in *; try done.
    + injection Herr as <-. split; [done|]. split; [by constructor|].
      split; [|done]. constructor; [done|].
      apply Forall_Forall2_diag, Forall_forall. intros; apply sameKind_refl.
    + specialize (IH d1 d2 Hk) as (IHerr & IHkind & IHself & IHeq).
      destruct (scanLoop values d1) as [e1 r1], (scanLoop values d2) as [e2 r2].
      simpl in *. split; [done|]. split; [by constructor|]. split; [by constructor|].
      intros He Hlen. rewrite (Heq eq_refl), IHeq; [done|done|lia].
Qed.

Lemma Scan_indep rows d1 d2 :
  Forall2 sameKind d1 d2 ->
  fst (Scan rows d1) = fst (Scan rows d2)
  /\ Forall2 sameKind (snd (Scan rows d1)) (snd (Scan rows d2))
  /\ Forall2 sameKind d1 (snd (Scan rows d1))
  /\ (fst (Scan rows d1) = None -> snd (Scan rows d1) = snd (Scan rows d2)).
Proof.
  intros Hk. pose proof (Forall2_length _ _ _ Hk) as Hlen.
  assert (Forall2 sameKind d1 d1) as Hrefl.
  { apply Forall_Forall2_diag, Forall_forall. intros; apply sameKind_refl. }
  unfold Scan. destruct (rowsClosed rows); [done|].
  destruct (rowsCurrent rows) as [values|]; [|done].
  rewrite <- Hlen. destruct (decide (length d1 <> length values)) as [Hne|Heq]; [done|].
  destruct (scanLoop_indep values d1 d2 Hk) as (H1 & H2 & H3 & H4).
  split; [done|]. split; [done|]. split; [done|].
  intros He. apply H4; [done|]. by apply dec_stable in Heq.
Qed.

(** A scan that succeeds has stored every value in its cell. *)
Lemma scanLoop_stored values : forall dest dest' i slot v,
  scanLoop values dest = (None, dest') ->
  dest !! i = Some slot -> values !! i = Some v ->
  dest' !! i = Some (snd (scanSlot slot v)).
Proof.
  induction values as [|v0 values IH]; intros dest dest' i slot v; simpl; [done|].
  destruct dest as [|slot0 dest]; [done|].
  destruct (scanSlot slot0 v0) as [[e|] slot0'] eqn:Hslot; [done|].
  destruct (scanLoop values dest) as [err rest] eqn:Hrest.
  intros [= -> <-]. destruct i as [|i]; simpl.
  - intros [= <-] [= <-]. by rewrite Hslot.
  - intros Hd Hv. by eapply IH.
Qed.

(** [positioned] is the cursor [Next] leaves when there is a row to come. *)
Lemma Next_positioned rows values rest :
  rowsPending rows = values :: rest -> Next rows = (true, positioned rows values rest).
Proof. intros Hp. unfold Next. by rewrite Hp. Qed.

(** ** scanRow *)

Lemma pickLoop_run ct result cols : forall dest w o w',
  pickLoop ct result cols dest w = (o, w') ->
  is_Some (heap w !! result) ->
  pickPost ct result cols dest w o w'.
Proof.
  induction cols as [|c0 cols IH]; intros dest w o w'; simpl.
  - intros [= <- <-] _. unfold pickPost.
    split; [apply sameExcept_refl|]. do 5 (split; [done|]).
    intros _. split; [done|]. intros i c slot Hc. done.
  - destruct dest as [|slot0 dest].
    { intros [= <- <-] _. split; [apply sameExcept_refl|]. by do 5 (split; [done|]). }
    assert (forall v w1,
      map_set result c0 v w = (tt, w1) ->
      pickLoop ct result cols dest w1 = (o, w') ->
      is_Some (heap w !! result) ->
      slotValue slot0 = Some v -> slotFits ct c0 slot0 ->
      pickPost ct result (c0 :: cols) (slot0 :: dest) w o w') as Hwrite.
    { intros v w1 Hset Hrest Hsome Hval Hfit.
      pose proof (map_set_sameExcept result c0 v w) as Hf1.
      pose proof (map_set_rowAt result c0 v w Hsome) as Hrow1.
      rewrite Hset in Hf1, Hrow1. simpl in Hf1, Hrow1.
      apply IH in Hrest as (Hf2 & Hlog & Htick & Hchan & Hclock & Henv & Hret);
        [|by eapply sameExcept_is_Some].
      unfold map_set in Hset. injection Hset as <-.
      split; [by eapply sameExcept_trans|]. do 5 (split; [done|]).
      intros ->. destruct (Hret eq_refl) as [Hkeep Hlast]. split.
      - intros c Hc. rewrite Hkeep, Hrow1 by set_solver. apply lookup_insert_ne. set_solver.
      - intros [|i] c slot; simpl.
        + intros [= <-] [= <-] _ Hlater. split; [|done]. rewrite Hkeep, Hrow1.
          * by rewrite lookup_insert_eq.
          * intros Hin. apply list_elem_of_lookup in Hin as [j Hj].
            apply (Hlater (S j)); [lia|done].
        + intros Hc Hslot Hr Hlater. eapply Hlast; try done.
          intros j Hj. apply (Hlater (S j)). lia. }
    assert (pickLoop ct result cols dest w = (o, w') ->
            is_Some (heap w !! result) -> ct !! c0 = None ->
            pickPost ct result (c0 :: cols) (slot0 :: dest) w o w') as Hskip.
    { intros Hrest Hsome Hnone.
      apply IH in Hrest as (Hf2 & Hlog & Htick & Hchan & Hclock & Henv & Hret); [|done].
      split; [done|]. do 5 (split; [done|]).
      intros ->. destruct (Hret eq_refl) as [Hkeep Hlast]. split.
      - intros c Hc. apply Hkeep. set_solver.
      - intros [|i] c slot; simpl.
        + intros [= <-] _ Hr. rewrite Hnone in Hr. by destruct Hr.
        + intros Hc Hslot Hr Hlater. eapply Hlast; try done.
          intros j Hj. apply (Hlater (S j)). lia. }
    assert (forall msg, (Panicked msg : outcome unit, w) = (o, w') ->
            pickPost ct result (c0 :: cols) (slot0 :: dest) w o w') as Hpanic.
    { intros msg [= <- <-]. split; [apply sameExcept_refl|]. by do 5 (split; [done|]). }
    destruct (ct !! c0) as [[| |]|] eqn:Hc0, slot0 as [s valid|f valid|t valid|v];
      unfold ret; try unfold bind at 1;
      try (intros Hrun _; by eapply Hpanic);
      try (intros Hrun Hsome; by apply Hskip);
      match goal with
      | |- context [map_set result c0 ?v w] =>
          destruct (map_set result c0 v w) as [[] w1] eqn:Hset;
          intros Hrun Hsome; eapply (Hwrite v w1); try done;
          unfold slotFits; by rewrite Hc0
      end.
Qed.

Lemma pickLoop_fits ct result cols : forall dest w,
  Forall2 (slotFits ct) cols dest ->
  exists w', pickLoop ct result cols dest w = (Returned tt, w').
Proof.
  induction cols as [|c0 cols IH]; intros dest w Hfit; simpl.
  - by eexists.
  - inversion Hfit as [|? slot0 ? dest' Hfit0 Hfit']. subst.
    unfold slotFits in Hfit0.
    destruct (ct !! c0) as [[| |]|], slot0; try done; unfold bind; simpl; apply IH, Hfit'.
Qed.

Lemma slotFits_sameKind ct cols d1 d2 :
  Forall2 (slotFits ct) cols d1 -> Forall2 sameKind d1 d2 ->
  Forall2 (slotFits ct) cols d2.
Proof.
  intros Hfit. revert d2. induction Hfit as [|c a cols d1 Hc Hfit IH]; intros d2 Hk.
  - by inversion Hk.
  - inversion Hk as [|? b ? d2' Hab Hk']. subst. constructor; [|by apply IH].
    unfold slotFits in *. by destruct (ct !! c) as [[| |]|], a, b.
Qed.

(** What [scanRow] leaves for a column whose last occurrence holds NULL. *)
Lemma scanRow_null q rows dest w row dest' w' values :
  scanRow q rows dest w = ((Returned row, dest'), w') ->
  rowsCurrent rows = Some values ->
  forall i c t,
    rowsColumns rows !! i = Some c -> values !! i = Some DNull ->
    columnTypes q !! c = Some t ->
    (forall j, (i < j)%nat -> rowsColumns rows !! j <> Some c) ->
    rowAt w' row !! c = Some (nullEntry t).
Proof.
  unfold scanRow, Columns, Scan. intros Hrun Hcur.
  destruct (rowsClosed rows); [done|]. rewrite Hcur in Hrun.
  destruct (decide (length dest <> length values)) as [Hne|Hlen]; [done|].
  apply dec_stable in Hlen.
  destruct (scanLoop values dest) as [[e|] dest1] eqn:Hscan; [done|].
  unfold bind in Hrun.
  destruct (make_map_spec w) as [Hfresh Hheap].
  destruct (make_map w) as [result w1]. simpl in Hfresh, Hheap.
  destruct (pickLoop (columnTypes q) result (rowsColumns rows) dest1 w1) as [o w2] eqn:Hpick.
  destruct o as [[]|e|msg]; try done. injection Hrun as <- <- <-.
  intros i c t Hc Hv Ht Hlast.
  apply pickLoop_run in Hpick as (_ & _ & _ & _ & _ & _ & Hret);
    [|rewrite Hheap, lookup_insert_eq; by eexists].
  destruct (Hret eq_refl) as [_ Hpicked].
  assert (is_Some (dest !! i)) as [slot Hslot].
  { apply lookup_lt_is_Some. rewrite Hlen. by eapply lookup_lt_Some. }
  pose proof (scanLoop_stored _ _ _ _ _ _ Hscan Hslot Hv) as Hstored.
  destruct (Hpicked i c _ Hc Hstored (ltac:(by eexists)) Hlast) as [-> Hfit].
  unfold slotFits in Hfit. rewrite Ht in Hfit.
  destruct slot, t; simpl in *; done.
Qed.

(** C6, as the code has it.  In a row that was scanned, a column with a
    role whose last occurrence in the result set holds NULL has an entry, and
    the entry is the nullable value of the role marked invalid.  (The map is
    keyed by column name, so the last column of a name is the one kept.) *)
Theorem scanRow_preserves_null (q : Query) (rows : Rows) (dest dest' : list Slot)
    (w w' : World) (row : loc) (values : list driverValue) :
  scanRow q rows dest w = ((Returned row, dest'), w') ->
  rowsCurrent rows = Some values ->
  forall i c t,
    rowsColumns rows !! i = Some c -> values !! i = Some DNull ->
    columnTypes q !! c = Some t ->
    (forall j, (i < j)%nat -> rowsColumns rows !! j <> Some c) ->
    rowAt w' row !! c = Some (nullEntry t) /\ isNull (nullEntry t) = true.
Proof.
  intros Hrun Hcur i c t Hc Hv Ht Hlast. split.
  - by eapply scanRow_null.
  - by destruct t.
Qed.

End ScannerProps.

Import Scanner Spec Examples.

(** C6 at a concrete input: the result set has two columns named [k]; the
    first holds NULL, and the entry of the row under [k] is the valid text of
    the second. *)
Lemma scanRow_duplicate_column :
  rowsColumns rowsKK !! 0%nat = Some "k"
  /\ columnTypes queryK !! "k" = Some columnTypeKey
  /\ rowsCurrent rowsKK = Some [DNull; DString "x"]
  /\ fst (fst (@scanRow sampleExternal queryK rowsKK destKK world0)) = Returned 1%positive
  /\ rowAt (snd (@scanRow sampleExternal queryK rowsKK destKK world0)) 1%positive !! "k"
     = Some (NullString "x" true).
Proof. vm_compute. done. Qed.

Lemma scanRow_preserves_null_witness :
  rowAt (snd (@scanRow sampleExternal queryK rowsKN destKN world0)) 1%positive !! "k"
  = Some (NullString EmptyString false).
Proof.
  destruct (@scanRow sampleExternal queryK rowsKN destKN world0) as [[o dest'] w'] eqn:Hrun.
  assert (o = Returned 1%positive) as ->.
  { change o with (fst (fst (o, dest', w'))). rewrite <- Hrun. vm_compute. reflexivity. }
  apply (@scanRow_preserves_null sampleExternal queryK rowsKN destKN dest' world0 w'
           1%positive [DNull; DInt64 7] Hrun eq_refl 0%nat "k" columnTypeKey).
  - reflexivity.
  - reflexivity.
  - reflexivity.
  - intros [|[|j]] Hj; [lia|discriminate|discriminate].
Defined.

End ScannerProps.

(** * Properties of the collection driver *)

Module DriverProps.
Section DriverProps.
Context {ext : External}.

Import Scanner Pipeline Driver Spec HeapProps.

(** ** The database handle of a prepared query *)

Lemma run_other_handle db q h h' :
  conn q = Some h -> h' <> h -> run db q h' = (Panicked (handlePanic q), q).
Proof.
  intros Hconn Hne. unfold run, otherHandle. rewrite Hconn.
  destruct (Pos.eqb_spec h h') as [->|_]; [done|]. reflexivity.
Qed.

Lemma wrapRows_no_panic q r : ~ isPanic (wrapRows q r).
Proof. destruct r; simpl; tauto. Qed.

Lemma run_same_handle db q h o q' :
  conn q = None \/ conn q = Some h ->
  run db q h = (o, q') ->
  ~ isPanic o /\ (conn q' = None \/ conn q' = Some h).
Proof.
  intros Hconn. unfold run.
  assert (otherHandle q h = false) as ->.
  { unfold otherHandle. destruct Hconn as [->| ->]; [done|]. by rewrite Pos.eqb_refl. }
  destruct (NoPreparedStatement (qconfig q)).
  { intros [= <- <-]. split; [apply wrapRows_no_panic|done]. }
  destruct (stmt q) as [s|].
  { intros [= <- <-]. split; [apply wrapRows_no_panic|done]. }
  destruct (PrepareContext db h _) as [s|e].
  - intros [= <- <-]. split; [apply wrapRows_no_panic|by right].
  - intros [= <- <-]. split; [simpl; tauto|done].
Qed.

Lemma runMany_same_handle dbs : forall q h,
  conn q = None \/ conn q = Some h ->
  Forall (fun o => ~ isPanic o) (fst (runMany dbs q h))
  /\ (conn (snd (runMany dbs q h)) = None \/ conn (snd (runMany dbs q h)) = Some h).
Proof.
  induction dbs as [|db dbs IH]; intros q h Hconn; simpl; [by split|].
  destruct (run db q h) as [o q'] eqn:Hrun.
  apply run_same_handle in Hrun as [Hno Hconn']; [|done].
  specialize (IH q' h Hconn') as [Hall Hlast].
  destruct (runMany dbs q' h) as [os q'']. simpl in *. split; [by constructor|done].
Qed.

(** C5.  (1) The first execution of a query in prepared-statement mode
    either fails to prepare and leaves the query as it was, or binds the
    query to the handle it prepared the statement on.  (2) Executing a query
    on a handle other than the one it is bound to panics; no error is
    returned and the query is not rebound.  (3) Any number of executions on
    one handle, whatever the database answers, of a query that is new or
    bound to that handle never panic and leave it new or bound to it. *)
Theorem run_sticks_to_handle :
  (forall db q h o q',
     NoPreparedStatement (qconfig q) = false -> conn q = None -> stmt q = None ->
     run db q h = (o, q') ->
     (exists err, PrepareContext db h (QueryText (qconfig q)) = Err err
                  /\ o = Failed (Wrapf (logContext q) err "prepare query failed") /\ q' = q)
     \/ (exists s, PrepareContext db h (QueryText (qconfig q)) = Ok s
                   /\ conn q' = Some h /\ stmt q' = Some s))
  /\ (forall db q h h',
        conn q = Some h -> h' <> h -> run db q h' = (Panicked (handlePanic q), q))
  /\ (forall dbs q h,
        conn q = None \/ conn q = Some h ->
        Forall (fun o => ~ isPanic o) (fst (runMany dbs q h))
        /\ (conn (snd (runMany dbs q h)) = None \/ conn (snd (runMany dbs q h)) = Some h)).
Proof.
  split; [|split].
  - intros db q h o q' Hmode Hconn Hstmt. unfold run, otherHandle.
    rewrite Hconn, Hmode, Hstmt.
    destruct (PrepareContext db h _) as [s|e]; intros [= <- <-].
    + right. by exists s.
    + left. by exists e.
  - apply run_other_handle.
  - intros dbs q h. apply runMany_same_handle.
Qed.

(** ** The row loop and the cells of [dest] *)

Lemma Forall2_sameKind_refl (d : list Slot) : Forall2 sameKind d d.
Proof. apply Forall_Forall2_diag, Forall_forall. intros; apply ScannerProps.sameKind_refl. Qed.

Lemma Forall2_sameKind_trans (d1 d2 d3 : list Slot) :
  Forall2 sameKind d1 d2 -> Forall2 sameKind d2 d3 -> Forall2 sameKind d1 d3.
Proof.
  intros H12. revert d3. induction H12 as [|a b d1 d2 Hab H12 IH]; intros d3 H23.
  - by inversion H23.
  - inversion H23 as [|? c ? d3' Hbc H23']. subst. constructor; [|by apply IH].
    by eapply ScannerProps.sameKind_trans.
Qed.

Lemma Forall2_sameKind_sym (d1 d2 : list Slot) :
  Forall2 sameKind d1 d2 -> Forall2 sameKind d2 d1.
Proof.
  induction 1 as [|a b d1 d2 Hab H12 IH]; constructor; [|done].
  by apply ScannerProps.sameKind_sym.
Qed.

(** The result of [scanRow] depends on the kinds of the cells only, not on
    what earlier rows left in them. *)
Lemma scanRow_kinds q rows d1 d2 w :
  Forall2 sameKind d1 d2 ->
  exists o w' d1' d2',
    scanRow q rows d1 w = ((o, d1'), w') /\ scanRow q rows d2 w = ((o, d2'), w')
    /\ Forall2 sameKind d1' d2' /\ Forall2 sameKind d1 d1'.
Proof.
  intros Hk. unfold scanRow. destruct (Columns rows) as [cols|e].
  - destruct (ScannerProps.Scan_indep rows d1 d2 Hk) as (Herr & Hkind & Hself & Heq).
    destruct (Scan rows d1) as [e1 d1'], (Scan rows d2) as [e2 d2']. simpl in *. subst e2.
    destruct e1 as [e|].
    + by exists (Failed (Wrapf (logContext q) e "scanning of query result failed")), w, d1', d2'.
    + rewrite <- (Heq eq_refl). unfold bind.
      destruct (make_map w) as [result w1].
      destruct (pickLoop (columnTypes q) result cols d1' w1) as [[[]|e|msg] w2];
        eexists _, _, d1', d1'; (split; [reflexivity|]); (split; [reflexivity|]);
        (split; [apply Forall2_sameKind_refl|done]).
  - exists (Failed (mkWithContext (logContext q) e)), w, d1, d2.
    split; [done|]. split; [done|]. split; [done|]. apply Forall2_sameKind_refl.
Qed.

(** With cells that fit the columns, [scanRow] does not panic. *)
Lemma scanRow_fits q rows values rest dest w :
  Forall2 (slotFits (columnTypes q)) (rowsColumns rows) dest ->
  ~ isPanic (fst (fst (scanRow q (positioned rows values rest) dest w))).
Proof.
  intros Hfit. unfold scanRow, Columns, positioned. simpl.
  destruct (rowsClosed rows) eqn:Hclosed; [simpl; tauto|].
  destruct (ScannerProps.Scan_indep
              (mkRows (rowsColumns rows) false (Some values) rest (rowsErr rows))
              dest dest (Forall2_sameKind_refl dest)) as (_ & _ & Hself & _).
  destruct (Scan _ dest) as [[e|] dest']; simpl in *; [tauto|].
  unfold bind. destruct (make_map w) as [result w1].
  destruct (ScannerProps.pickLoop_fits (columnTypes q) result (rowsColumns rows) dest' w1)
    as [w2 Hpick].
  { by eapply ScannerProps.slotFits_sameKind. }
  rewrite Hpick. simpl. tauto.
Qed.

Lemma rowsLoop_kinds q rows pending : forall d1 d2 s w,
  Forall2 sameKind d1 d2 ->
  rowsLoop q rows pending d1 s w = rowsLoop q rows pending d2 s w.
Proof.
  induction pending as [|values rest IH]; intros d1 d2 s w Hk; simpl; [done|].
  unfold bind.
  destruct (scanRow_kinds q (positioned rows values rest) d1 d2 w Hk)
    as (o & w' & d1' & d2' & -> & -> & Hk' & _).
  destruct o as [row|e|msg]; [|by destruct (send _ w'); apply IH|done].
  destruct (familiesLoop row (metricFamilies q) _ w') as [s1 w1]. by apply IH.
Qed.

(** The row loop over the rows [l1] and then [l2] is the row loop over [l1]
    followed, unless it panicked, by the row loop over [l2]. *)
Lemma rowsLoop_app q rows l2 l1 : forall dest s w,
  rowsLoop q rows (l1 ++ l2) dest s w
  = match rowsLoop q rows l1 dest s w with
    | (Returned s1, w1) => rowsLoop q rows l2 dest s1 w1
    | other => other
    end.
Proof.
  induction l1 as [|values rest IH]; intros dest s w; simpl; [done|].
  unfold bind.
  change (scanRow q (positioned rows values (rest ++ l2)) dest w)
    with (scanRow q (positioned rows values rest) dest w).
  destruct (scanRow_kinds q (positioned rows values rest) dest dest w
              (Forall2_sameKind_refl dest)) as (o & w' & d1' & d2' & Hscan & Hscan' & _ & Hk).
  rewrite Hscan in Hscan'. injection Hscan' as <-. rewrite Hscan.
  destruct o as [row|e|msg]; [| |done].
  - destruct (familiesLoop row (metricFamilies q) _ w') as [s1 w1].
    rewrite IH. destruct (rowsLoop q rows rest d1' s1 w1) as [[s2|e|msg] w2]; try done.
    by apply rowsLoop_kinds, Forall2_sameKind_sym.
  - destruct (send _ w') as [[] w1].
    rewrite IH. destruct (rowsLoop q rows rest d1' _ w1) as [[s2|e'|msg] w2]; try done.
    by apply rowsLoop_kinds, Forall2_sameKind_sym.
Qed.

Lemma rowsLoop_fits q rows pending : forall dest s w,
  Forall2 (slotFits (columnTypes q)) (rowsColumns rows) dest ->
  exists s' w', rowsLoop q rows pending dest s w = (Returned s', w').
Proof.
  induction pending as [|values rest IH]; intros dest s w Hfit; simpl; [by eexists _, _|].
  unfold bind.
  pose proof (scanRow_fits q rows values rest dest w Hfit) as Hno.
  destruct (scanRow_kinds q (positioned rows values rest) dest dest w
              (Forall2_sameKind_refl dest)) as (o & w' & d1' & d2' & Hscan & _ & _ & Hk).
  rewrite Hscan in Hno |- *. simpl in Hno.
  assert (Forall2 (slotFits (columnTypes q)) (rowsColumns rows) d1') as Hfit'.
  { by eapply ScannerProps.slotFits_sameKind. }
  destruct o as [row|e|msg]; [| |exfalso; apply Hno; exact I].
  - destruct (familiesLoop row (metricFamilies q) _ w') as [s1 w1]. by apply IH.
  - destruct (send _ w') as [[] w1]. by apply IH.
Qed.

Lemma familiesLoop_bump row mfs : forall s w,
  familiesLoop row mfs (bumpProcessed s) w
  = (bumpProcessed (fst (familiesLoop row mfs s w)), snd (familiesLoop row mfs s w)).
Proof.
  induction mfs as [|mf mfs IH]; intros s w; simpl; [done|].
  unfold bind. destruct (shouldIncludeRow row (config mf) w) as [ok w1].
  destruct ok; simpl.
  - destruct (applyTransformations row (config mf) w1) as [t w2].
    destruct (callCollect mf t w2) as [[] w3]. apply (IH (mkSummary _ _ _)).
  - apply (IH (mkSummary _ _ _)).
Qed.

Lemma rowsLoop_bump q rows pending : forall dest s w,
  rowsLoop q rows pending dest (bumpProcessed s) w
  = (mapOutcome bumpProcessed (fst (rowsLoop q rows pending dest s w)),
     snd (rowsLoop q rows pending dest s w)).
Proof.
  induction pending as [|values rest IH]; intros dest s w; simpl; [done|].
  unfold bind. destruct (scanRow q (positioned rows values rest) dest w) as [[o dest'] w1].
  destruct o as [row|e|msg]; [| |done].
  - change (mkSummary (S (S (rows_processed s))) (rows_filtered s) (metrics_generated s))
      with (bumpProcessed
              (mkSummary (S (rows_processed s)) (rows_filtered s) (metrics_generated s))).
    rewrite familiesLoop_bump.
    destruct (familiesLoop row (metricFamilies q) _ w1) as [s1 w2]. simpl. apply IH.
  - destruct (send _ w1) as [[] w2]. apply (IH dest' (mkSummary _ _ _)).
Qed.

(** [Collect] once the context, the execution and [scanDest] are through:
    the row loop over the rows of the cursor, entered with cells that fit
    the columns, then the error of the cursor. *)
Lemma Collect_rows ignore db q c rows q' dest w :
  run db q c = (Returned rows, q') -> scanDest q' rows = Ok dest ->
  Collect ignore db None q c w
  = (let (looped, w1) := rowsLoop q' rows (rowsPending rows) dest (mkSummary 0 0 0) w in
     match looped with
     | Panicked msg => ((Panicked msg, q'), w1)
     | Failed e => ((Failed e, q'), w1)
     | Returned s =>
         ((Returned (Some s), q'),
          match rowsErr rows with
          | Some err1 => afterSend (InvalidMetric (mkWithContext (logContext q') err1)) w1
          | None => w1
          end)
     end).
Proof.
  intros Hrun Hdest. unfold Collect. rewrite Hrun, Hdest. unfold bind.
  destruct (rowsLoop q' rows (rowsPending rows) dest (mkSummary 0 0 0) w) as [[s|e|msg] w1];
    try done.
  by destruct (rowsErr rows).
Qed.

(** The row loop when the scan of one row fails. *)
Lemma rowsLoop_scan_failure q rows before after bad dest s w cause :
  Forall2 (slotFits (columnTypes q)) (rowsColumns rows) dest ->
  rowsClosed rows = false ->
  fst (Scan (positioned rows bad after) dest) = Some cause ->
  exists s1 w1 o w2 w2',
    rowsLoop q rows before dest s w = (Returned s1, w1)
    /\ rowsLoop q rows (before ++ after) dest s w = (o, w2)
    /\ rowsLoop q rows (before ++ bad :: after) dest s w = (mapOutcome bumpProcessed o, w2')
    /\ chanIns (chan w1)
         (InvalidMetric (Wrapf (logContext q) cause "scanning of query result failed"))
         w2 w2'.
Proof.
  intros Hfit Hopen Hfail.
  destruct (rowsLoop_fits q rows before dest s w Hfit) as (s1 & w1 & Hbefore).
  set (m := InvalidMetric (Wrapf (logContext q) cause "scanning of query result failed")).
  exists s1, w1, (fst (rowsLoop q rows after dest s1 w1)),
         (snd (rowsLoop q rows after dest s1 w1)),
         (snd (rowsLoop q rows after dest s1 (afterSend m w1))).
  split; [done|]. split.
  { rewrite rowsLoop_app, Hbefore. by destruct (rowsLoop q rows after dest s1 w1). }
  assert (chanIns (chan w1) m w1 (afterSend m w1)) as HR.
  { do 5 (split; [done|]). exists []. by rewrite app_nil_r. }
  destruct (ChannelProps.respects_rowsLoop (chan w1) m q rows after dest s1 _ _ HR)
    as [Hfst Hsnd].
  split; [|done].
  rewrite rowsLoop_app, Hbefore. simpl. unfold bind.
  destruct (ScannerProps.Scan_indep (positioned rows bad after) dest dest
              (Forall2_sameKind_refl dest)) as (_ & _ & Hself & _).
  unfold scanRow, Columns. simpl. rewrite Hopen.
  destruct (Scan (positioned rows bad after) dest) as [e dest'] eqn:Hscan.
  simpl in Hfail, Hself. subst e. simpl. unfold ret.
  change (send (NewInvalidMetric (Wrapf (logContext q) cause "scanning of query result failed"))
               w1) with (tt, afterSend m w1).
  rewrite (rowsLoop_kinds q rows after dest' dest _ _ (Forall2_sameKind_sym _ _ Hself)).
  change (mkSummary (S (rows_processed s1)) (rows_filtered s1) (metrics_generated s1))
    with (bumpProcessed s1).
  rewrite rowsLoop_bump. by rewrite Hfst.
Qed.

(** The row loop reads the columns, the closed mark and the error of the
    cursor it is given, not the rows the cursor has in store. *)
Lemma rowsLoop_cursor q r1 r2 pending : forall dest s w,
  rowsColumns r1 = rowsColumns r2 -> rowsClosed r1 = rowsClosed r2 -> rowsErr r1 = rowsErr r2 ->
  rowsLoop q r1 pending dest s w = rowsLoop q r2 pending dest s w.
Proof.
  intros dest s w Hcols Hclosed Herr. revert dest s w.
  induction pending as [|values rest IH]; intros dest s w; simpl; [done|].
  unfold positioned. rewrite Hcols, Hclosed, Herr. unfold bind.
  destruct (scanRow q _ dest w) as [[[row|e|msg] dest'] w1]; [| |done].
  - destruct (familiesLoop row (metricFamilies q) _ w1) as [s1 w2]. apply IH.
  - destruct (send _ w1) as [[] w2]. apply IH.
Qed.

(** C8.  Let the database hand [Collect] an open cursor with the rows
    [before], then a row whose scan fails, then the rows [after]; compare
    with the cursor that has the rows [before] and [after] only.  The rows
    before the failing one are processed first and alike; the failing row
    puts exactly one invalid metric, carrying the error of its scan, on the
    channel, after the metrics of the rows before it; and [Collect] goes on
    with the rows after it, which leave the heap, the log and the clock as,
    and send the metrics that, they do without the failing row.  Only the
    count of processed rows is one higher. *)
Theorem scan_failure_isolated (ignore : bool) (db db' : Database) (q q' : Query) (c : DB)
    (columns : list string) (cursorErr : option cause)
    (before after : list (list driverValue)) (bad : list driverValue)
    (dest : list Slot) (w : World) (cause : cause) :
  run db q c = (Returned (openCursor columns (before ++ bad :: after) cursorErr), q') ->
  run db' q c = (Returned (openCursor columns (before ++ after) cursorErr), q') ->
  scanDest q' (openCursor columns (before ++ bad :: after) cursorErr) = Ok dest ->
  fst (Scan (positioned (openCursor columns (before ++ bad :: after) cursorErr) bad after) dest)
    = Some cause ->
  exists s1 w1 o w2 w2',
    rowsLoop q' (openCursor columns (before ++ bad :: after) cursorErr) before dest
             (mkSummary 0 0 0) w = (Returned s1, w1)
    /\ Collect ignore db' None q c w = ((o, q'), w2)
    /\ Collect ignore db None q c w = ((mapOutcome (option_map bumpProcessed) o, q'), w2')
    /\ chanIns (chan w1)
         (InvalidMetric (Wrapf (logContext q') cause "scanning of query result failed"))
         w2 w2'.
Proof.
  intros Hrun Hrun' Hdest Hfail.
  assert (scanDest q' (openCursor columns (before ++ after) cursorErr) = Ok dest) as Hdest'
    by exact Hdest.
  assert (Forall2 (slotFits (columnTypes q')) columns dest) as Hfit.
  { destruct (ScannerProps.destLoop_spec (columnTypes q') columns [] ∅)
      as [_ (new & Hnew & Hfit)].
    revert Hdest. unfold scanDest, Columns. simpl.
    destruct (destLoop (columnTypes q') columns [] ∅) as [d have]. simpl in Hnew. subst d.
    destruct (decide (size have <> size (columnTypes q'))); [done|]. by intros [= <-]. }
  destruct (rowsLoop_scan_failure q' (openCursor columns (before ++ bad :: after) cursorErr)
              before after bad dest (mkSummary 0 0 0) w cause Hfit eq_refl Hfail)
    as (s1 & w1 & o & w2 & w2' & Hbefore & Hwithout & Hwith & HR).
  rewrite (Collect_rows ignore db q c _ q' dest w Hrun Hdest).
  rewrite (Collect_rows ignore db' q c _ q' dest w Hrun' Hdest').
  rewrite (rowsLoop_cursor q' (openCursor columns (before ++ after) cursorErr)
             (openCursor columns (before ++ bad :: after) cursorErr)) by done.
  cbn [rowsPending rowsErr openCursor].
  fold (openCursor columns (before ++ bad :: after) cursorErr).
  rewrite Hwithout, Hwith.
  exists s1, w1. destruct o as [s2|e|msg]; simpl.
  - destruct cursorErr as [err1|].
    + eexists _, _, _. split; [done|]. split; [reflexivity|]. split; [reflexivity|].
      destruct (ChannelProps.respects_send (chan w1) _
                  (InvalidMetric (mkWithContext (logContext q') err1)) w2 w2' HR) as [_ HR'].
      exact HR'.
    + by eexists _, _, _.
  - by eexists _, _, _.
  - by eexists _, _, _.
Qed.

(** ** The input row under the metric families *)

Lemma preserves_refl w : preserves w w.
Proof. by intros l Hl. Qed.

Lemma preserves_trans w1 w2 w3 : preserves w1 w2 -> preserves w2 w3 -> preserves w1 w3.
Proof.
  intros H12 H23 l Hl. rewrite H23, H12; [done|done|].
  apply elem_of_dom. rewrite H12 by done. by apply elem_of_dom.
Qed.

Lemma filterLoop_fst_row row filters : forall w1 w2,
  rowAt w1 row = rowAt w2 row ->
  fst (filterLoop row filters w1) = fst (filterLoop row filters w2).
Proof.
  assert (forall f w1 w2, rowAt w1 row = rowAt w2 row ->
            fst (applyRowFilter row f w1) = fst (applyRowFilter row f w2)) as Hone.
  { intros f w1 w2 Hrow. unfold applyRowFilter, bind, map_get. rewrite Hrow.
    destruct (rowAt w2 row !! Column f) as [[s [|]|x [|]|t [|]|s| |r]|];
      simpl; try reflexivity; apply PipelineProps.applyOperator_fst. }
  induction filters as [|f fs IH]; intros w1 w2 Hrow; simpl; [done|].
  unfold bind. specialize (Hone f w1 w2 Hrow).
  pose proof (PipelineProps.applyRowFilter_heap row f w1) as Hh1.
  pose proof (PipelineProps.applyRowFilter_heap row f w2) as Hh2.
  destruct (applyRowFilter row f w1) as [ok1 w1'], (applyRowFilter row f w2) as [ok2 w2'].
  simpl in *. subst ok2. destruct ok1; simpl; [|done].
  apply IH. unfold rowAt in *. by rewrite Hh1, Hh2.
Qed.

Lemma callCollect_frame mf l w :
  forall l', l' <> l -> heap (snd (callCollect mf l w)) !! l' = heap w !! l'.
Proof.
  intros l' Hne. unfold callCollect. destruct (mfCollect mf (rowAt w l)) as [metrics left].
  simpl. by apply lookup_insert_ne.
Qed.

Lemma familiesLoop_preserves row mfs : forall s w,
  preserves w (snd (familiesLoop row mfs s w)).
Proof.
  induction mfs as [|mf mfs IH]; intros s w; simpl; [apply preserves_refl|].
  unfold bind.
  pose proof (PipelineProps.shouldIncludeRow_heap row (config mf) w) as Hh.
  destruct (shouldIncludeRow row (config mf) w) as [ok w1]. simpl in Hh.
  assert (preserves w w1) as H1 by (intros l _; by rewrite Hh).
  destruct ok; simpl.
  - destruct (applyTransformations row (config mf) w1) as [t w2] eqn:Htr.
    apply PipelineProps.applyTransformations_frame in Htr as (Hfresh & _ & H2).
    pose proof (callCollect_frame mf t w2) as H3.
    destruct (callCollect mf t w2) as [[] w3]. simpl in H3.
    eapply preserves_trans; [|apply IH].
    eapply preserves_trans; [exact H1|].
    intros l Hl. rewrite H3, H2; [done|done|].
    intros ->. apply elem_of_dom in Hl as [? Hl]. congruence.
  - eapply preserves_trans; [exact H1|apply IH].
Qed.

Lemma familiesLoop_app row post pre : forall s w,
  familiesLoop row (pre ++ post) s w
  = familiesLoop row post (fst (familiesLoop row pre s w)) (snd (familiesLoop row pre s w)).
Proof.
  induction pre as [|mf pre IH]; intros s w; simpl; [done|].
  unfold bind. destruct (shouldIncludeRow row (config mf) w) as [ok w1].
  destruct ok; simpl.
  - destruct (applyTransformations row (config mf) w1) as [t w2].
    destruct (callCollect mf t w2) as [[] w3]. apply IH.
  - apply IH.
Qed.

(** C10.  (1) [applyTransformations] returns a map that did not exist
    before the call, and leaves every map that did, the input row among
    them, with its content.  (2) In the loop of [Collect] over the metric
    families, whatever the families before it filtered, derived, dropped or
    did to the maps handed to them, a family finds the scanned row with the
    content the scan gave it, and so decides on its filters as it would have
    as the first. *)
Theorem transformations_leave_row :
  (forall row r metric w l' w',
     heap w !! row = Some r -> applyTransformations row metric w = (l', w') ->
     l' <> row /\ heap w !! l' = None /\ is_Some (heap w' !! l')
     /\ preserves w w' /\ heap w' !! row = Some r)
  /\ (forall row r pre mf post s w s1 w1,
        heap w !! row = Some r -> familiesLoop row pre s w = (s1, w1) ->
        familiesLoop row (pre ++ mf :: post) s w = familiesLoop row (mf :: post) s1 w1
        /\ preserves w w1 /\ heap w1 !! row = Some r
        /\ fst (shouldIncludeRow row (config mf) w1)
           = fst (shouldIncludeRow row (config mf) w)).
Proof.
  split.
  - intros row r metric w l' w' Hrow Hrun.
    apply PipelineProps.applyTransformations_frame in Hrun as (Hfresh & Hsome & Hpres).
    split; [congruence|]. split; [done|]. split; [done|]. split; [done|].
    rewrite Hpres; [done|]. apply elem_of_dom. by eexists.
  - intros row r pre mf post s w s1 w1 Hrow Hpre.
    pose proof (familiesLoop_preserves row pre s w) as Hpres. rewrite Hpre in Hpres.
    simpl in Hpres.
    assert (heap w1 !! row = Some r) as Hrow1.
    { rewrite Hpres; [done|]. apply elem_of_dom. by eexists. }
    split; [by rewrite familiesLoop_app, Hpre|]. split; [done|]. split; [done|].
    apply filterLoop_fst_row. unfold rowAt. by rewrite Hrow, Hrow1.
Qed.

(** ** Missing columns *)

(** C3.  On an open cursor whose result set lacks a column of the
    column-role map, [scanDest] fails with the error that names the lacking
    columns, each once and no other.  When [Collect] gets that cursor from
    the execution, then in ignore-missing-values mode it returns with a
    warning in the log and nothing else changed: nothing is sent on the
    channel and no row is scanned; without the mode it sends the error as one
    invalid metric. *)
Theorem missing_columns (q : Query) (rows : Rows) :
  rowsClosed rows = false ->
  (exists c, is_Some (columnTypes q !! c) /\ c ∉ rowsColumns rows) ->
  exists missing,
    scanDest q rows = Err (mkWithContext (logContext q) (MissingValues missing))
    /\ NoDup missing
    /\ (forall c, c ∈ missing <-> is_Some (columnTypes q !! c) /\ c ∉ rowsColumns rows)
    /\ forall db q0 c w,
         run db q0 c = (Returned rows, q) ->
         Collect true db None q0 c w = ((Returned None, q), afterLog (ignoreWarning q) w)
         /\ Collect false db None q0 c w
            = ((Returned None, q),
               afterSend (InvalidMetric (mkWithContext (logContext q) (MissingValues missing)))
                         w).
Proof.
  intros Hopen Hlack.
  destruct (ScannerProps.scanDest_spec q rows Hopen) as [Hfail _].
  destruct (Hfail Hlack) as (missing & Hdest & Hnodup & Hmissing).
  exists missing. split; [done|]. split; [done|]. split; [done|].
  intros db q0 c w Hrun. unfold Collect. by rewrite Hrun, Hdest.
Qed.

End DriverProps.

Import Scanner Pipeline Driver Spec Examples.

Lemma missing_columns_witness :
  exists missing,
    scanDest queryK rowsN
    = Err (mkWithContext "job=db,query=q1" (MissingValues missing))
    /\ (forall c, c ∈ missing <-> is_Some (columnTypes queryK !! c) /\ c ∉ ["n"])
    /\ @Collect sampleExternal true databaseN None queryK 1%positive world0
       = ((Returned None, set_prepared queryK 1%positive (mkStmt 1%positive "SELECT 1")),
          afterLog (ignoreWarning queryK) world0).
Proof.
  destruct (@missing_columns sampleExternal
              (set_prepared queryK 1%positive (mkStmt 1%positive "SELECT 1")) rowsN eq_refl)
    as (missing & Hdest & _ & Hmissing & Hcollect).
  - exists "k". split; [by eexists|]. vm_compute. set_solver.
  - exists missing. split; [exact Hdest|]. split; [exact Hmissing|].
    apply (Hcollect databaseN queryK 1%positive world0). reflexivity.
Defined.

Lemma run_sticks_to_handle_witness :
  run databaseN (set_prepared queryK 1%positive (mkStmt 1%positive "SELECT 1")) 2%positive
  = (Panicked "[job=db,query=q1] Expecting to always run on the same database handle",
     set_prepared queryK 1%positive (mkStmt 1%positive "SELECT 1"))
  /\ Forall (fun o => ~ isPanic o)
            (fst (runMany [databaseDown; databaseN; databaseN] queryK 1%positive)).
Proof.
  destruct run_sticks_to_handle as (_ & Hother & Hsame).
  split.
  - apply (Hother databaseN (set_prepared queryK 1%positive (mkStmt 1%positive "SELECT 1"))
             1%positive 2%positive); [reflexivity|discriminate].
  - apply (Hsame [databaseDown; databaseN; databaseN] queryK 1%positive). left. reflexivity.
Defined.

Lemma scan_failure_isolated_witness :
  exists s1 w1 o w2 w2',
    @rowsLoop sampleExternal (set_prepared queryKV 1%positive (mkStmt 1%positive "SELECT 1"))
      (cursorKV ([goodRow1] ++ badRow :: [goodRow3])) [goodRow1] destKV (mkSummary 0 0 0) world0
    = (Returned s1, w1)
    /\ @Collect sampleExternal false databaseWithout None queryKV 1%positive world0
       = ((o, set_prepared queryKV 1%positive (mkStmt 1%positive "SELECT 1")), w2)
    /\ @Collect sampleExternal false databaseWith None queryKV 1%positive world0
       = ((mapOutcome (option_map bumpProcessed) o,
           set_prepared queryKV 1%positive (mkStmt 1%positive "SELECT 1")), w2')
    /\ chanIns (chan w1)
         (InvalidMetric
            (Wrapf "job=db,query=q1"
               (Wrapped "sql: Scan error on column"
                  (Foreign "converting driver.Value type to a float64: invalid syntax"))
               "scanning of query result failed"))
         w2 w2'.
Proof.
  apply (@scan_failure_isolated sampleExternal false databaseWith databaseWithout queryKV
           (set_prepared queryKV 1%positive (mkStmt 1%positive "SELECT 1")) 1%positive
           ["k"; "v"] None [goodRow1] [goodRow3] badRow destKV world0).
  - reflexivity.
  - reflexivity.
  - vm_compute. reflexivity.
  - reflexivity.
Defined.

(** The scenario of the design, run: two rows processed, the row of
    "staging" filtered out, one metric generated from a row whose
    [lag_seconds] is 30 and valid, and nothing else on the channel. *)
Example collect_scenario :
  exists q, @Classifier.NewQuery sampleExternal "job=db" sampleQueryConfig [lagFamily] = Ok q
    /\ fst (fst (@Collect sampleExternal false databaseScenario None q 1%positive world0))
       = Returned (Some (mkSummary 2 1 1))
    /\ chan (snd (@Collect sampleExternal false databaseScenario None q 1%positive world0))
       = [Sample 1 "sample"]
    /\ rowAt (snd (@Collect sampleExternal false databaseScenario None q 1%positive world0))
             2%positive !! "lag_seconds"
       = Some (NullFloat64 (f64_of_int 30) true).
Proof. eexists. split; [vm_compute; reflexivity|]. vm_compute. done. Qed.

Lemma transformations_leave_row_witness :
  heap (snd (@applyTransformations sampleExternal 1%positive (config lagFamily) worldLag))
    !! 1%positive = Some rowLag.
Proof.
  destruct (@applyTransformations sampleExternal 1%positive (config lagFamily) worldLag)
    as [l' w'] eqn:Hrun.
  destruct (@transformations_leave_row sampleExternal) as [Hframe _].
  destruct (Hframe 1%positive rowLag (config lagFamily) worldLag l' w' eq_refl Hrun)
    as (_ & _ & _ & _ & Hrow).
  exact Hrow.
Defined.

End DriverProps.

(** * Properties of the expansion of the connection descriptor *)

Module ConnectionProps.

Import Connection Spec.

Lemma append_nil_l (s : string) : EmptyString +:+ s = s.
Proof. reflexivity. Qed.

Lemma append_cons (c : ascii) (a b : string) : String c a +:+ b = String c (a +:+ b).
Proof. reflexivity. Qed.

Lemma substring_0_app (a b : string) : substring 0 (String.length a) (a +:+ b) = a.
Proof.
  induction a as [|x a IH].
  - rewrite append_nil_l. by destruct b.
  - rewrite append_cons. simpl. by rewrite IH.
Qed.

Lemma alphaNumPrefix_app (name post : string) :
  allAlphaNum name = true -> endsName post = true ->
  alphaNumPrefix (name +:+ post) = String.length name.
Proof.
  intros Hname Hpost. induction name as [|c name IH].
  - rewrite append_nil_l. destruct post as [|c post]; simpl in *; [done|].
    by destruct (isAlphaNum c).
  - rewrite append_cons. simpl in *.
    apply andb_prop in Hname as [Hc Hname]. rewrite Hc. f_equal. by apply IH.
Qed.

Lemma closingBrace_app (name post : string) (i : nat) :
  noBrace name = true ->
  closingBrace (name +:+ String "}" post) i = Some (i + String.length name)%nat.
Proof.
  revert i. induction name as [|c name IH]; intros i Hname.
  - rewrite append_nil_l. simpl. f_equal. lia.
  - rewrite append_cons. simpl in *.
    apply andb_prop in Hname as [Hc Hname]. apply negb_true_iff in Hc. rewrite Hc.
    rewrite IH by done. f_equal. lia.
Qed.

Lemma getShellName_plain (name post : string) :
  plainName name = true -> endsName post = true ->
  getShellName (name +:+ post) = (name, String.length name).
Proof.
  intros Hname Hpost. destruct name as [|c name]; [done|].
  simpl in Hname. apply andb_prop in Hname as [Hspecial Hall].
  apply negb_true_iff in Hspecial.
  pose proof Hall as Hc. apply andb_prop in Hc as [Hc _].
  rewrite append_cons. unfold getShellName.
  assert (Ascii.eqb c "{" = false) as ->.
  { destruct (Ascii.eqb_spec c "{") as [->|]; [|done]. by vm_compute in Hc. }
  rewrite Hspecial, <- append_cons.
  rewrite (alphaNumPrefix_app (String c name) post) by done.
  by rewrite substring_0_app.
Qed.

Lemma getShellName_braced (name post : string) :
  bracedOk name = true ->
  getShellName (String "{" (name +:+ String "}" post)) = (name, (String.length name + 2)%nat).
Proof.
  unfold bracedOk. intros Hname. apply andb_prop in Hname as [Hne Hbrace].
  destruct name as [|c1 name]; [done|]. clear Hne.
  assert (bracedName (String "{" (String c1 name +:+ String "}" post))
                     (String c1 name +:+ String "}" post)
          = (String c1 name, (String.length (String c1 name) + 2)%nat)) as Hscan.
  { unfold bracedName. rewrite closingBrace_app by done.
    cbn [String.length]. replace (1 + S (String.length name))%nat
      with (S (S (String.length name))) by lia.
    cbn [Nat.eqb]. f_equal; [|f_equal; lia].
    replace (S (S (String.length name)) - 1)%nat with (String.length (String c1 name))
      by (simpl; lia).
    change (substring 1 (String.length (String c1 name))
              (String "{" (String c1 name +:+ String "}" post)))
      with (substring 0 (String.length (String c1 name))
              (String c1 name +:+ String "}" post)).
    apply substring_0_app. }
  unfold getShellName. cbn [Ascii.eqb Bool.eqb].
  rewrite append_cons in *.
  destruct name as [|c2 name].
  - rewrite append_nil_l in *. destruct (isShellSpecialVar c1); [done|]. exact Hscan.
  - rewrite append_cons in *. simpl in Hbrace.
    apply andb_prop in Hbrace as [_ Hbrace]. apply andb_prop in Hbrace as [Hc2 _].
    apply negb_true_iff in Hc2. rewrite Hc2, andb_false_r. exact Hscan.
Qed.

(** The text [expandEnv] produces depends on the environment only, and the
    environment is not written to. *)
Lemma lookupFunc_environ name w1 w2 :
  environ w1 = environ w2 ->
  fst (lookupFunc name w1) = fst (lookupFunc name w2)
  /\ environ (snd (lookupFunc name w1)) = environ w1
  /\ fst (lookupFunc name w1) = resolve w1 name.
Proof.
  intros He. unfold lookupFunc, resolve, bind, LookupEnv. simpl. rewrite He.
  by destruct (environ w2 !! name).
Qed.

Lemma expandFrom_environ s : forall skip w1 w2,
  environ w1 = environ w2 ->
  fst (expandFrom skip s lookupFunc w1) = fst (expandFrom skip s lookupFunc w2)
  /\ environ (snd (expandFrom skip s lookupFunc w1)) = environ w1.
Proof.
  induction s as [|c rest IH]; intros skip w1 w2 He; simpl; [done|].
  destruct skip as [|k]; [|by apply IH].
  destruct (Ascii.eqb c "$" && negb (String.eqb rest EmptyString)).
  - destruct (getShellName rest) as [name n].
    destruct (String.eqb name EmptyString && (0 <? n)%nat); [by apply IH|].
    destruct (String.eqb name EmptyString).
    + unfold bind. destruct (IH n w1 w2 He) as [Hfst Henv].
      destruct (expandFrom n rest lookupFunc w1) as [t1 w1'],
               (expandFrom n rest lookupFunc w2) as [t2 w2']. simpl in *. by subst.
    + unfold bind. destruct (lookupFunc_environ name w1 w2 He) as (Hv & Henv1 & _).
      destruct (lookupFunc_environ name w2 w2 eq_refl) as (_ & Henv2 & _).
      destruct (lookupFunc name w1) as [v1 w1'], (lookupFunc name w2) as [v2 w2'].
      simpl in *. subst v2.
      destruct (IH n w1' w2' ltac:(congruence)) as [Hfst Henv].
      destruct (expandFrom n rest lookupFunc w1') as [t1 w1''],
               (expandFrom n rest lookupFunc w2') as [t2 w2'']. simpl in *.
      split; [by subst|congruence].
  - unfold bind. destruct (IH O w1 w2 He) as [Hfst Henv].
    destruct (expandFrom 0 rest lookupFunc w1) as [t1 w1'],
             (expandFrom 0 rest lookupFunc w2) as [t2 w2']. simpl in *. by subst.
Qed.

Lemma expandFrom_skip (a b : string) (mapping : string -> M string) :
  expandFrom (String.length a) (a +:+ b) mapping = expandFrom 0 b mapping.
Proof.
  induction a as [|c a IH].
  - rewrite append_nil_l. reflexivity.
  - rewrite append_cons. simpl. exact IH.
Qed.

Lemma append_assoc (a b c : string) : (a +:+ b) +:+ c = a +:+ (b +:+ c).
Proof.
  induction a as [|x a IH]; [done|]. rewrite !append_cons. by f_equal.
Qed.

Lemma length_append (a b : string) :
  String.length (a +:+ b) = (String.length a + String.length b)%nat.
Proof.
  induction a as [|x a IH]; [done|]. rewrite append_cons. simpl. by rewrite IH.
Qed.

(** A reference whose name [getShellName] finds, taking up [n] bytes. *)
Lemma expandEnv_reference (w : World) (ref post name : string) :
  ref <> EmptyString -> name <> EmptyString ->
  getShellName (ref +:+ post) = (name, String.length ref) ->
  fst (expandEnv (String "$" (ref +:+ post)) w) = resolve w name +:+ fst (expandEnv post w).
Proof.
  intros Href Hname Hshell. unfold expandEnv, Expand. cbn [expandFrom].
  assert (String.eqb (ref +:+ post) EmptyString = false) as ->.
  { destruct ref; [done|]. by rewrite append_cons. }
  cbn [Ascii.eqb Bool.eqb andb negb]. rewrite Hshell.
  assert (String.eqb name EmptyString = false) as ->.
  { by apply String.eqb_neq. }
  cbn [andb]. unfold bind.
  destruct (lookupFunc_environ name w w eq_refl) as (_ & Henv & Hres).
  destruct (lookupFunc name w) as [value w1]. simpl in Henv, Hres. subst value.
  rewrite expandFrom_skip.
  destruct (expandFrom_environ post O w1 w Henv) as [Htail _].
  destruct (expandFrom 0 post lookupFunc w1) as [tail w2]. simpl in *. by rewrite Htail.
Qed.

(** C9, as the code has it.  The expansion is a total function of the text
    and the environment.  A byte other than the dollar sign is kept.  A
    reference [$NAME] (letters, digits and underscores, the first not a
    digit, up to the first byte that is none of these) or [${NAME}] (not
    empty, up to the first closing brace) is replaced by the value of the
    variable when it is set, and by the dollar sign followed by the name,
    without braces, when it is not. *)
Theorem expandEnv_references (w : World) :
  (forall c rest, Ascii.eqb c "$" = false ->
     fst (expandEnv (String c rest) w) = String c (fst (expandEnv rest w)))
  /\ (forall name post, plainName name = true -> endsName post = true ->
        fst (expandEnv ("$" +:+ name +:+ post) w)
        = resolve w name +:+ fst (expandEnv post w))
  /\ (forall name post, bracedOk name = true ->
        fst (expandEnv ("${" +:+ name +:+ "}" +:+ post) w)
        = resolve w name +:+ fst (expandEnv post w))
  /\ (forall name value, environ w !! name = Some value -> resolve w name = value)
  /\ (forall name, environ w !! name = None -> resolve w name = "$" +:+ name).
Proof.
  split; [|split; [|split; [|split]]].
  - intros c rest Hc. unfold expandEnv, Expand. cbn [expandFrom]. rewrite Hc.
    cbn [andb]. unfold bind. by destruct (expandFrom 0 rest lookupFunc w).
  - intros name post Hname Hpost.
    change ("$" +:+ name +:+ post) with (String "$" (name +:+ post)).
    apply expandEnv_reference.
    + by destruct name.
    + by destruct name.
    + by apply getShellName_plain.
  - intros name post Hname.
    change ("${" +:+ name +:+ "}" +:+ post) with (String "$" (String "{" (name +:+ String "}" post))).
    replace (String "{" (name +:+ String "}" post))
      with (String "{" (name +:+ "}") +:+ post)
      by (rewrite append_cons, append_assoc; reflexivity).
    apply expandEnv_reference.
    + done.
    + unfold bracedOk in Hname. by destruct name.
    + rewrite append_cons, append_assoc.
      change ("}" +:+ post) with (String "}" post).
      rewrite getShellName_braced by done. f_equal.
      cbn [String.length]. rewrite length_append. simpl. lia.
  - intros name value Hv. unfold resolve. by rewrite Hv.
  - intros name Hv. unfold resolve. by rewrite Hv.
Qed.

Import Examples.

(** C9 at a concrete input: [DB] is not set, and the reference written
    with braces comes out without them, so that the byte after it now reads
    as part of the name. *)
Lemma expandEnv_drops_braces :
  environ worldEnv !! "DB" = None
  /\ fst (expandEnv "pg://${DB}x" worldEnv) = "pg://$DBx"
  /\ fst (expandEnv "pg://${DB}x" worldEnv) <> "pg://${DB}x".
Proof. vm_compute. done. Qed.

Lemma expandEnv_references_witness :
  fst (expandEnv "$USER@${HOST}" worldEnv) = "app" +:+ fst (expandEnv "@${HOST}" worldEnv)
  /\ fst (expandEnv "${HOST}" worldEnv) = "$HOST" +:+ fst (expandEnv EmptyString worldEnv).
Proof.
  destruct (expandEnv_references worldEnv) as (_ & Hplain & Hbraced & Hset & Hunset).
  split.
  - pose proof (Hplain "USER" "@${HOST}" eq_refl eq_refl) as Hexp.
    rewrite (Hset "USER" "app" eq_refl) in Hexp. exact Hexp.
  - pose proof (Hbraced "HOST" EmptyString eq_refl) as Hexp.
    rewrite (Hunset "HOST" eq_refl) in Hexp. exact Hexp.
Defined.

End ConnectionProps.

(** * More on the column classifier *)

Module ClassifierMore.
Section ClassifierMore.
Context {ext : External}.

Import Classifier Spec ClassifierProps.

Lemma registerAll_Ok_iff ctx regs :
  (exists ct, registerAll ctx regs ∅ = Ok ct) <-> forall c, ~ conflictOn regs c.
Proof.
  split.
  - intros [ct Hok] c Hc. by apply (registerAll_conflict ctx regs c ct).
  - intros Hno. destruct (registerAll_total ctx regs) as [Hok|(c & _ & Hc)]; [done|].
    by apply Hno in Hc.
Qed.

Lemma registerAll_same_elements ctx regs regs' ct ct' :
  (forall r, r ∈ regs <-> r ∈ regs') ->
  registerAll ctx regs ∅ = Ok ct -> registerAll ctx regs' ∅ = Ok ct' -> ct = ct'.
Proof.
  intros Hsame Hok Hok'.
  apply registerAll_Ok in Hok as (_ & Hregs & Hfirst).
  apply registerAll_Ok in Hok' as (_ & Hregs' & Hfirst').
  apply map_eq. intros c.
  destruct (firstRole regs c) as [t|] eqn:Hf.
  - assert (is_Some (firstRole regs c)) as Hs by by eexists.
    apply firstRole_Some in Hs as [t' Hin].
    rewrite (Hregs c t' Hin). symmetry. apply Hregs'. by apply Hsame.
  - rewrite (Hfirst c (lookup_empty c)), Hf. symmetry.
    rewrite (Hfirst' c (lookup_empty c)).
    destruct (firstRole regs' c) as [t|] eqn:Hf'; [|done].
    assert (is_Some (firstRole regs' c)) as Hs by by eexists.
    apply firstRole_Some in Hs as [t' Hin]. apply Hsame in Hin.
    assert (is_Some (firstRole regs c)) as [? Hs'] by (apply firstRole_Some; by eexists).
    congruence.
Qed.

Lemma allRegistrations_Permutation mfs mfs' :
  mfs ≡ₚ mfs' -> forall r, r ∈ allRegistrations mfs <-> r ∈ allRegistrations mfs'.
Proof.
  intros Hperm r. unfold allRegistrations. rewrite !elem_of_concat.
  split; intros (l & Hr & Hl); exists l; (split; [done|]);
    apply list_elem_of_fmap in Hl as (mf & -> & Hmf); apply list_elem_of_fmap;
    exists mf; (split; [done|]); first [by rewrite <- Hperm | by rewrite Hperm].
Qed.

(** X1.  The order in which the metric families are given does not matter
    to the column classifier: for two orders of the same families the
    construction fails for both or succeeds for both, and then with the same
    column-role map. *)
Theorem NewQuery_order_irrelevant (ctx : string) (qc : QueryConfig)
    (mfs mfs' : list MetricFamily) :
  mfs ≡ₚ mfs' ->
  match NewQuery ctx qc mfs, NewQuery ctx qc mfs' with
  | Ok q, Ok q' => columnTypes q = columnTypes q'
  | Err _, Err _ => True
  | _, _ => False
  end.
Proof.
  intros Hperm. pose proof (allRegistrations_Permutation mfs mfs' Hperm) as Hsame.
  rewrite !NewQuery_registerAll.
  destruct (registerAll (queryContext ctx qc) (allRegistrations mfs) ∅) as [ct|e] eqn:Hok,
           (registerAll (queryContext ctx qc) (allRegistrations mfs') ∅) as [ct'|e'] eqn:Hok';
    simpl; [by eapply registerAll_same_elements| | |done].
  - apply registerAll_Err in Hok' as (c & t & t' & _ & Hin & Hne & [Hprev|Hprev]);
      [by rewrite lookup_empty in Hprev|].
    apply (registerAll_conflict (queryContext ctx qc) (allRegistrations mfs) c ct); [|done].
    exists t', t. split; [by apply Hsame|]. split; [by apply Hsame|done].
  - apply registerAll_Err in Hok as (c & t & t' & _ & Hin & Hne & [Hprev|Hprev]);
      [by rewrite lookup_empty in Hprev|].
    apply (registerAll_conflict (queryContext ctx qc) (allRegistrations mfs') c ct'); [|done].
    exists t', t. split; [by apply Hsame|]. split; [by apply Hsame|done].
Qed.

(** X2.  In a query that was constructed every column has the role of its
    use: the sources of the lag calculations, the filter columns and the key
    labels of every metric family are Key columns, its value columns that it
    does not compute by a lag calculation are Value columns, and its
    timestamp column, when it has one, is a Time column. *)
Theorem NewQuery_roles_by_use (ctx : string) (qc : QueryConfig)
    (mfs : list MetricFamily) (q : Query) :
  NewQuery ctx qc mfs = Ok q ->
  forall mf, mf ∈ mfs ->
    (forall lc, lc ∈ LagCalculations (config mf) ->
                columnTypes q !! SourceColumn lc = Some columnTypeKey)
    /\ (forall f, f ∈ RowFilters (config mf) -> columnTypes q !! Column f = Some columnTypeKey)
    /\ (forall k, k ∈ KeyLabels (config mf) -> columnTypes q !! k = Some columnTypeKey)
    /\ (forall v, v ∈ ValueColumns (config mf) -> v ∉ lagOutputs mf ->
                  columnTypes q !! v = Some columnTypeValue)
    /\ (TimestampValue (config mf) <> EmptyString ->
        columnTypes q !! TimestampValue (config mf) = Some columnTypeTime).
Proof.
  rewrite NewQuery_registerAll. intros Hq. apply rbind_Ok in Hq as (ct & Hr & [= <-]). simpl.
  apply registerAll_Ok in Hr as (_ & Hregs & _).
  intros mf Hmf.
  assert (forall c t, (c, t) ∈ registrations mf -> ct !! c = Some t) as Hreg.
  { intros c t Hin. apply Hregs. unfold allRegistrations. apply elem_of_concat.
    exists (registrations mf). split; [done|]. apply list_elem_of_fmap. by exists mf. }
  unfold registrations in Hreg. repeat split.
  - intros lc Hlc. apply Hreg. rewrite !elem_of_app. left.
    apply list_elem_of_fmap. by exists lc.
  - intros f Hf. apply Hreg. rewrite !elem_of_app. right; left.
    apply list_elem_of_fmap. by exists f.
  - intros k Hk. apply Hreg. rewrite !elem_of_app. right; right; left.
    apply list_elem_of_fmap. by exists k.
  - intros v Hv Hout. apply Hreg. rewrite !elem_of_app. right; right; right; left.
    apply list_elem_of_fmap. exists v. split; [done|]. by apply list_elem_of_filter.
  - intros Hts. apply Hreg. rewrite !elem_of_app. right; right; right; right.
    rewrite decide_True by done. by apply list_elem_of_singleton.
Qed.

End ClassifierMore.

Import Classifier Spec Examples MoreExamples.

Lemma NewQuery_order_irrelevant_witness :
  match @NewQuery sampleExternal "job=db" sampleQueryConfig [lagFamily; labelFamily],
        @NewQuery sampleExternal "job=db" sampleQueryConfig [labelFamily; lagFamily] with
  | Ok q, Ok q' => columnTypes q = columnTypes q'
  | Err _, Err _ => True
  | _, _ => False
  end.
Proof.
  apply (@NewQuery_order_irrelevant sampleExternal "job=db" sampleQueryConfig
           [lagFamily; labelFamily] [labelFamily; lagFamily]).
  apply Permutation_swap.
Defined.

Lemma NewQuery_roles_by_use_witness :
  exists q, @NewQuery sampleExternal "job=db" sampleQueryConfig [lagFamily] = Ok q
    /\ columnTypes q !! "updated_at" = Some columnTypeKey.
Proof.
  eexists. split; [vm_compute; reflexivity|].
  destruct (@NewQuery_roles_by_use sampleExternal "job=db" sampleQueryConfig [lagFamily] _
              eq_refl lagFamily (list_elem_of_here _ _)) as (Hlag & _).
  apply (Hlag (mkLagCalculation "updated_at" "lag_seconds" EmptyString)).
  apply list_elem_of_here.
Defined.

End ClassifierMore.

(** * More on the row pipeline *)

Module PipelineMore.
Section PipelineMore.
Context {ext : External}.

Import Pipeline Spec Notions HeapProps PipelineProps.

(** ** The operators *)

(** X3.  On a value that is in the row and not NULL, [not_in] matches
    exactly when [in] does not, and [not_equals] exactly when [equals] does
    not. *)
Theorem negative_operators_complement (w : World) (row : loc) (f : RowFilter) (v : any) :
  rowAt w row !! Column f = Some v -> isNull v = false ->
  fst (applyRowFilter row (withOperator f "not_in") w)
  = negb (fst (applyRowFilter row (withOperator f "in") w))
  /\ fst (applyRowFilter row (withOperator f "not_equals") w)
     = negb (fst (applyRowFilter row (withOperator f "equals") w)).
Proof.
  intros Hv Hnull. unfold applyRowFilter, bind, map_get. cbn [withOperator Column].
  rewrite Hv. by destruct v as [s [|]|x [|]|t [|]|s| |r].
Qed.

Lemma prefix_spec (t s : string) :
  String.prefix t s = true <-> exists post, s = t +:+ post.
Proof.
  revert s. induction t as [|c t IH]; intros s.
  - split; [|by destruct s]. intros _. by exists s.
  - destruct s as [|c' s]; simpl.
    + split; [done|]. intros [post Hpost]. by rewrite ConnectionProps.append_cons in Hpost.
    + destruct (Ascii.ascii_dec c c') as [<-|Hne].
      * rewrite IH. split; intros [post Hpost]; exists post.
        -- rewrite ConnectionProps.append_cons. by f_equal.
        -- rewrite ConnectionProps.append_cons in Hpost. by injection Hpost.
      * split; [done|]. intros [post Hpost].
        rewrite ConnectionProps.append_cons in Hpost. by injection Hpost.
Qed.

Lemma Contains_cons (c : ascii) (s t : string) :
  Contains (String c s) t = if String.prefix t (String c s) then true else Contains s t.
Proof. reflexivity. Qed.

Lemma Contains_spec (s t : string) :
  Contains s t = true <-> exists pre post, s = pre +:+ t +:+ post.
Proof.
  split.
  - induction s as [|c s IH].
    + destruct t; [|done]. intros _. by exists EmptyString, EmptyString.
    + rewrite Contains_cons. destruct (String.prefix t (String c s)) eqn:Hp.
      * intros _. apply prefix_spec in Hp as [post Hpost].
        exists EmptyString, post. by rewrite ConnectionProps.append_nil_l.
      * intros Hc. destruct (IH Hc) as (pre & post & ->).
        exists (String c pre), post. by rewrite ConnectionProps.append_cons.
  - intros (pre & post & ->). induction pre as [|c pre IH].
    + rewrite ConnectionProps.append_nil_l.
      assert (String.prefix t (t +:+ post) = true) as Hp by (apply prefix_spec; by exists post).
      destruct (t +:+ post) as [|c u].
      * by destruct t.
      * by rewrite Contains_cons, Hp.
    + rewrite ConnectionProps.append_cons, Contains_cons.
      by destruct (String.prefix t (String c (pre +:+ t +:+ post))).
Qed.

(** X4.  A [contains] filter matches a text of the row exactly when the
    configured value occurs in it as a substring; so the empty value matches
    every text, and a text matches itself. *)
Theorem contains_filter_substring (w : World) (row : loc) (f : RowFilter) (s : string) :
  rowAt w row !! Column f = Some (NullString s true) ->
  Operator f = "contains" ->
  (fst (applyRowFilter row f w) = true <-> exists pre post, s = pre +:+ Value f +:+ post).
Proof.
  intros Hv Hop. unfold applyRowFilter, bind, map_get. rewrite Hv. simpl.
  unfold applyOperator. rewrite Hop. simpl. apply Contains_spec.
Qed.

(** ** What the filters do to the world *)

Lemma afterLogs_nil w : afterLogs [] w = w.
Proof. destruct w. unfold afterLogs. simpl. by rewrite app_nil_r. Qed.

Lemma afterLogs_app evs1 evs2 w : afterLogs evs2 (afterLogs evs1 w) = afterLogs (evs1 ++ evs2) w.
Proof. unfold afterLogs. simpl. by rewrite app_assoc. Qed.

Lemma applyOperator_run filter valueStr w :
  (knownOperator (Operator filter) = true /\ snd (applyOperator filter valueStr w) = w)
  \/ (knownOperator (Operator filter) = false
      /\ applyOperator filter valueStr w
         = (true, afterLogs [unknownOperatorWarning (Operator filter)] w)).
Proof.
  unfold applyOperator, knownOperator.
  repeat match goal with
         | |- context [String.eqb (Operator filter) ?op] =>
             destruct (String.eqb_spec (Operator filter) op) as [->|?];
             [left; split; [by vm_compute|done]|]
         end.
  right. split; [|done]. apply bool_decide_eq_false. rewrite !elem_of_cons.
  intros [?|[?|[?|[?|[?|Hnil]]]]]; try done. by apply elem_of_nil in Hnil.
Qed.

Lemma applyRowFilter_run row filter w :
  snd (applyRowFilter row filter w) = w
  \/ (knownOperator (Operator filter) = false
      /\ snd (applyRowFilter row filter w)
         = afterLogs [unknownOperatorWarning (Operator filter)] w).
Proof.
  assert (forall s, snd (applyOperator filter s w) = w
                    \/ (knownOperator (Operator filter) = false
                        /\ snd (applyOperator filter s w)
                           = afterLogs [unknownOperatorWarning (Operator filter)] w)) as Hop.
  { intros s. destruct (applyOperator_run filter s w) as [[_ ?]|[? Hrun]]; [by left|].
    right. by rewrite Hrun. }
  unfold applyRowFilter, bind, map_get.
  destruct (rowAt w row !! Column filter) as [[s [|]|x [|]|t [|]|s| |r]|];
    simpl; try (by left); apply Hop.
Qed.

Lemma filterLoop_run row filters : forall w,
  exists evs,
    snd (filterLoop row filters w) = afterLogs evs w
    /\ Forall (fun e => exists f, f ∈ filters /\ knownOperator (Operator f) = false
                                  /\ e = unknownOperatorWarning (Operator f)) evs.
Proof.
  induction filters as [|f fs IH]; intros w; simpl.
  - exists []. by rewrite afterLogs_nil.
  - unfold bind. pose proof (applyRowFilter_run row f w) as Hf.
    destruct (applyRowFilter row f w) as [ok w1]. simpl in Hf.
    assert (exists evs1, w1 = afterLogs evs1 w
              /\ Forall (fun e => exists f', f' ∈ f :: fs /\ knownOperator (Operator f') = false
                                   /\ e = unknownOperatorWarning (Operator f')) evs1)
      as (evs1 & -> & Hall1).
    { destruct Hf as [->|[Hunknown ->]].
      - exists []. by rewrite afterLogs_nil.
      - eexists. split; [done|]. constructor; [|done]. exists f.
        split; [by apply elem_of_cons; left|done]. }
    destruct ok; simpl.
    + destruct (IH (afterLogs evs1 w)) as (evs2 & -> & Hall2).
      exists (evs1 ++ evs2). rewrite afterLogs_app. split; [done|].
      apply Forall_app. split; [done|].
      eapply Forall_impl; [exact Hall2|]. intros e (f' & Hf' & Hrest).
      exists f'. split; [by apply elem_of_cons; right|done].
    + by exists evs1.
Qed.

Lemma applyRowFilter_exact row filter w :
  snd (applyRowFilter row filter w)
  = if fst (applyRowFilter row filter w) && negb (knownOperator (Operator filter))
    then afterLogs [unknownOperatorWarning (Operator filter)] w
    else w.
Proof.
  assert (forall s, snd (applyOperator filter s w)
                    = if fst (applyOperator filter s w) && negb (knownOperator (Operator filter))
                      then afterLogs [unknownOperatorWarning (Operator filter)] w
                      else w) as Hop.
  { intros s. destruct (applyOperator_run filter s w) as [[Hknown Hw]|[Hunknown Hrun]].
    - by rewrite Hknown, andb_false_r.
    - by rewrite Hrun, Hunknown. }
  unfold applyRowFilter, bind, map_get.
  destruct (rowAt w row !! Column filter) as [[s [|]|x [|]|t [|]|s| |r]|];
    simpl; try done; apply Hop.
Qed.

Lemma filterLoop_included row filters : forall w,
  fst (filterLoop row filters w) = true ->
  snd (filterLoop row filters w) = afterLogs (unknownWarnings filters) w.
Proof.
  induction filters as [|f fs IH]; intros w; simpl.
  - intros _. by rewrite afterLogs_nil.
  - unfold bind. pose proof (applyRowFilter_exact row f w) as Hf.
    destruct (applyRowFilter row f w) as [ok w1]. simpl in Hf. subst w1.
    destruct ok; simpl; [|done]. intros Hrest.
    apply IH in Hrest. rewrite Hrest.
    destruct (knownOperator (Operator f)); simpl; [done|]. by rewrite afterLogs_app.
Qed.

Lemma filterLoop_excluded row f post pre : forall w,
  (forall g, g ∈ pre -> fst (applyRowFilter row g w) = true) ->
  fst (applyRowFilter row f w) = false ->
  filterLoop row (pre ++ f :: post) w = (false, afterLogs (unknownWarnings pre) w).
Proof.
  induction pre as [|g pre IH]; intros w Hpre Hf; simpl; unfold bind.
  - pose proof (applyRowFilter_exact row f w) as Hw.
    destruct (applyRowFilter row f w) as [ok w1]. simpl in Hf, Hw. subst ok w1.
    simpl. by rewrite afterLogs_nil.
  - pose proof (applyRowFilter_exact row g w) as Hw.
    pose proof (Hpre g (list_elem_of_here _ _)) as Hg.
    destruct (applyRowFilter row g w) as [ok w1]. simpl in Hg, Hw. subst ok w1. simpl.
    assert (heap (if negb (knownOperator (Operator g))
                  then afterLogs [unknownOperatorWarning (Operator g)] w else w) = heap w)
      as Hh by (by destruct (knownOperator (Operator g))).
    rewrite IH.
    + destruct (knownOperator (Operator g)); simpl; [done|]. by rewrite afterLogs_app.
    + intros g' Hg'. rewrite (applyRowFilter_fst row g' _ w Hh).
      apply Hpre. by apply elem_of_cons; right.
    + by rewrite (applyRowFilter_fst row f _ w Hh).
Qed.

(** X5.  Deciding on the filters of a row changes nothing but the log: the
    heap, the channel, the clock and the environment are as before.  When
    the row is included, the log has exactly one more warning, in the order
    of the filters, for every filter whose operator is not known.  When the
    row is excluded, it has exactly one more for every such filter before the
    first filter that does not match; that filter adds none, also when its
    operator is not known and it meets an absent column or a NULL.  So every
    new record is the warning for a filter of the metric whose operator is
    not known, and when all operators are known the world is left as it
    was. *)
Theorem shouldIncludeRow_effects (row : loc) (metric : MetricConfig) (w : World) :
  (fst (shouldIncludeRow row metric w) = true ->
   snd (shouldIncludeRow row metric w) = afterLogs (unknownWarnings (RowFilters metric)) w)
  /\ (forall pre f post,
        RowFilters metric = pre ++ f :: post ->
        (forall g, g ∈ pre -> fst (applyRowFilter row g w) = true) ->
        fst (applyRowFilter row f w) = false ->
        shouldIncludeRow row metric w = (false, afterLogs (unknownWarnings pre) w))
  /\ (exists evs,
        snd (shouldIncludeRow row metric w) = afterLogs evs w
        /\ Forall (fun e => exists f, f ∈ RowFilters metric
                                      /\ knownOperator (Operator f) = false
                                      /\ e = unknownOperatorWarning (Operator f)) evs)
  /\ ((forall f, f ∈ RowFilters metric -> knownOperator (Operator f) = true) ->
      snd (shouldIncludeRow row metric w) = w).
Proof.
  split; [apply filterLoop_included|].
  split.
  { intros pre f post Hfs Hpre Hf. unfold shouldIncludeRow. rewrite Hfs.
    by apply filterLoop_excluded. }
  destruct (filterLoop_run row (RowFilters metric) w) as (evs & Hw & Hall).
  split; [by exists evs|].
  intros Hknown. unfold shouldIncludeRow. rewrite Hw.
  destruct evs as [|e evs]; [apply afterLogs_nil|].
  apply Forall_cons in Hall as [(f & Hf & Hunknown & _) _].
  rewrite (Hknown f Hf) in Hunknown. done.
Qed.

Lemma filterLoop_stops row f post pre : forall w,
  (forall g, g ∈ pre -> fst (applyRowFilter row g w) = true) ->
  fst (applyRowFilter row f w) = false ->
  filterLoop row (pre ++ f :: post) w = filterLoop row (pre ++ [f]) w
  /\ fst (filterLoop row (pre ++ f :: post) w) = false.
Proof.
  induction pre as [|g pre IH]; intros w Hpre Hf; simpl.
  - unfold bind. destruct (applyRowFilter row f w) as [ok w1]. simpl in Hf. by subst ok.
  - unfold bind.
    pose proof (applyRowFilter_heap row g w) as Hh.
    pose proof (Hpre g (list_elem_of_here _ _)) as Hg.
    destruct (applyRowFilter row g w) as [ok w1]. simpl in Hh, Hg. subst ok. simpl.
    apply IH.
    + intros g' Hg'. rewrite (applyRowFilter_fst row g' w1 w Hh).
      apply Hpre. by apply elem_of_cons; right.
    + by rewrite (applyRowFilter_fst row f w1 w Hh).
Qed.

(** X6.  The filters are tried in their order and the first that does not
    match ends the decision: the row is excluded, and the filters after it
    are not looked at, so that none of them is warned about. *)
Theorem shouldIncludeRow_stops_at_first_mismatch (row : loc) (metric : MetricConfig)
    (pre post : list RowFilter) (f : RowFilter) (w : World) :
  RowFilters metric = pre ++ f :: post ->
  (forall g, g ∈ pre -> fst (applyRowFilter row g w) = true) ->
  fst (applyRowFilter row f w) = false ->
  shouldIncludeRow row metric w = shouldIncludeRow row (withFilters metric (pre ++ [f])) w
  /\ fst (shouldIncludeRow row metric w) = false.
Proof.
  intros Hfs Hpre Hf. unfold shouldIncludeRow. cbn [withFilters RowFilters]. rewrite Hfs.
  by apply filterLoop_stops.
Qed.

(** ** What [applyTransformations] builds *)

Lemma copyLoop_environ result entries : forall w,
  environ (snd (forM_ entries (fun kv : string * any => map_set result (fst kv) (snd kv)) w))
  = environ w.
Proof.
  induction entries as [|[k v] entries IH]; intros w; simpl; [done|].
  unfold bind. destruct (map_set result k v w) as [[] w1] eqn:Hset.
  rewrite IH. unfold map_set in Hset. by injection Hset as <-.
Qed.

Lemma rowAt_make_map row w :
  rowAt (snd (make_map w)) row = rowAt w row.
Proof.
  unfold rowAt, make_map. simpl.
  destruct (decide (row = fresh (dom (heap w)))) as [->|Hne].
  - by rewrite lookup_insert_eq, fresh_not_allocated.
  - by rewrite lookup_insert_ne.
Qed.

(** X7.  Without lag calculations and without a column allow-list the
    transformation step is a plain copy: it makes one new map, at a fresh
    address, with exactly the entries of the row, and changes nothing
    else. *)
Theorem applyTransformations_plain_copy (row : loc) (metric : MetricConfig) (w : World) :
  LagCalculations metric = [] -> ColumnFilters metric = [] ->
  applyTransformations row metric w
  = (fresh (dom (heap w)),
     set_heap (<[fresh (dom (heap w)) := rowAt w row]> (heap w)) w).
Proof.
  intros Hlag Hcf. unfold applyTransformations, bind. rewrite Hlag, Hcf.
  pose proof (rowAt_make_map row w) as Hrow.
  destruct (make_map_spec w) as [Hfresh Hheap].
  assert (fst (make_map w) = fresh (dom (heap w))) as Hl by done.
  destruct (make_map w) as [result w1] eqn:Hmk. simpl in Hrow, Hfresh, Hheap, Hl. subst result.
  assert (log w1 = log w /\ ticks w1 = ticks w /\ clock w1 = clock w /\ chan w1 = chan w
          /\ environ w1 = environ w) as (Hlog1 & Hticks1 & Hclock1 & Hchan1 & Henv1).
  { unfold make_map in Hmk. by injection Hmk as <-. }
  unfold map_range at 1. rewrite Hrow.
  pose proof (copyLoop_environ (fresh (dom (heap w))) (map_to_list (rowAt w row)) w1) as Henv2.
  destruct (forM_ (map_to_list (rowAt w row)) _ w1) as [[] w2] eqn:Hcopy. simpl in Henv2.
  apply copyLoop_run in Hcopy as ([Hdom Hsame] & Hres & Hlog2 & Hticks2 & Hclock2 & Hchan2);
    [|rewrite Hheap, lookup_insert_eq; by eexists].
  assert (rowAt w1 (fresh (dom (heap w))) = ∅) as Hempty.
  { unfold rowAt. by rewrite Hheap, lookup_insert_eq. }
  rewrite Hempty, foldl_insert_map_to_list in Hres.
  simpl. f_equal. destruct w2 as [h2 l2 c2 t2 ch2 e2]. unfold set_heap. simpl in *.
  f_equal; try congruence.
  apply map_eq. intros l. destruct (decide (l = fresh (dom (heap w)))) as [->|Hne].
  - rewrite lookup_insert_eq.
    assert (is_Some (h2 !! fresh (dom (heap w)))) as [r2 Hr2].
    { apply elem_of_dom. rewrite Hdom, Hheap. set_solver. }
    unfold rowAt in Hres. simpl in Hres. rewrite Hr2 in Hres. simpl in Hres. by subst r2.
  - rewrite lookup_insert_ne by done. rewrite Hsame by set_solver.
    rewrite Hheap. by rewrite lookup_insert_ne.
Qed.

(** X8.  In the map the transformation step returns, a column the
    allow-list keeps and no lag calculation with a source in the row
    produces has the value the row has for it, or none when the row has
    none; a column the allow-list drops is absent; so every column of the
    map is kept by the allow-list, and is a column of the row or the output
    of a lag calculation. *)
Theorem applyTransformations_passes_through (row : loc) (r : Row) (metric : MetricConfig)
    (w : World) (l' : loc) (w' : World) (c : string) :
  heap w !! row = Some r -> applyTransformations row metric w = (l', w') ->
  (survives metric c ->
   (forall lc, lc ∈ LagCalculations metric -> OutputColumn lc = c -> r !! SourceColumn lc = None) ->
   rowAt w' l' !! c = r !! c)
  /\ (~ survives metric c -> rowAt w' l' !! c = None)
  /\ (is_Some (rowAt w' l' !! c) ->
      survives metric c
      /\ (is_Some (r !! c) \/ c ∈ map OutputColumn (LagCalculations metric))).
Proof.
  intros Hrow Hrun.
  destruct (applyTransformations_content row r metric w l' w' Hrow Hrun c) as [Hkeep Hdrop].
  split; [|split].
  - intros Hs Hnone.
    destruct (Hkeep Hs) as [[Hval _]|(lc & v & wi & Hlc & Hout & Hsrc & _)]; [done|].
    rewrite (Hnone lc Hlc Hout) in Hsrc. done.
  - done.
  - intros Hsome.
    assert (survives metric c) as Hs.
    { unfold survives. destruct (ColumnFilters metric) as [|c0 cs] eqn:Hcf; [by left|].
      destruct (decide (c ∈ c0 :: cs)) as [Hin|Hnot]; [by right|].
      rewrite Hdrop in Hsome; [by destruct Hsome|].
      unfold survives. rewrite Hcf. intros [?|?]; done. }
    split; [done|].
    destruct (Hkeep Hs) as [[Hval _]|(lc & v & wi & Hlc & Hout & _)].
    + left. by rewrite <- Hval.
    + right. rewrite <- Hout. apply list_elem_of_In, in_map, list_elem_of_In. done.
Qed.

(** ** What the transformation step does besides *)

Lemma lagEffects_refl w : lagEffects 0 w w.
Proof.
  do 3 (split; [done|]). exists [], O. rewrite app_nil_r, Nat.add_0_r. by repeat split.
Qed.

Lemma lagEffects_trans n m w w1 w2 :
  lagEffects n w w1 -> lagEffects m w1 w2 -> lagEffects (n + m) w w2.
Proof.
  intros (Hch1 & Hcl1 & He1 & evs1 & k1 & Hl1 & Ht1 & Hb1 & Hw1)
         (Hch2 & Hcl2 & He2 & evs2 & k2 & Hl2 & Ht2 & Hb2 & Hw2).
  split; [congruence|]. split; [congruence|]. split; [congruence|].
  exists (evs1 ++ evs2), (k1 + k2)%nat.
  split; [by rewrite Hl2, Hl1, app_assoc|]. split; [lia|].
  split; [rewrite length_app; lia|]. by apply Forall_app.
Qed.

Lemma lagEffects_mono n m w w' : (n <= m)%nat -> lagEffects n w w' -> lagEffects m w w'.
Proof.
  intros Hle (Hch & Hcl & He & evs & k & Hl & Ht & Hb & Hw).
  do 3 (split; [done|]). exists evs, k. repeat split; try done. lia.
Qed.

Lemma lagEffects_heap h w : lagEffects 0 w (set_heap h w).
Proof.
  do 3 (split; [done|]). exists [], O. simpl. rewrite app_nil_r, Nat.add_0_r. by repeat split.
Qed.

Lemma lagEffects_tick w : lagEffects 1 w (afterTick w).
Proof.
  do 3 (split; [done|]). exists [], 1%nat. simpl. rewrite app_nil_r. repeat split; try done. lia.
Qed.

Lemma lagEffects_forM_ {A} (body : A -> M unit) (k : nat) (xs : list A) :
  (forall x w, lagEffects k w (snd (body x w))) ->
  forall w, lagEffects (length xs * k) w (snd (forM_ xs body w)).
Proof.
  intros Hbody. induction xs as [|x xs IH]; intros w; simpl; [apply lagEffects_refl|].
  unfold bind. pose proof (Hbody x w) as H1. destruct (body x w) as [[] w1]. simpl in H1.
  eapply lagEffects_trans; [exact H1|apply IH].
Qed.

Lemma lagFromString_effects s format w :
  lagEffects 1 w (snd (lagFromString s format w)).
Proof.
  unfold lagFromString. destruct (decide (s = EmptyString)); simpl.
  { eapply lagEffects_mono; [|apply lagEffects_refl]. lia. }
  destruct (Time_Parse _ s) as [t|err]; simpl.
  - apply lagEffects_tick.
  - do 3 (split; [done|]). eexists [_], O. simpl. repeat split; try done.
    by constructor.
Qed.

Lemma calculateLag_effects v format w :
  lagEffects 1 w (snd (calculateLag v format w)).
Proof.
  assert (lagEffects 1 w w) as Hsame.
  { eapply lagEffects_mono; [|apply lagEffects_refl]. lia. }
  destruct v as [s [|]|x [|]|t [|]|s| |r]; simpl;
    try apply lagFromString_effects; try exact Hsame.
  apply lagEffects_tick.
Qed.

Lemma lagStep_effects row result lc w :
  lagEffects 1 w (snd (lagStep row result lc w)).
Proof.
  unfold lagStep, bind, map_get.
  destruct (rowAt w row !! SourceColumn lc) as [v|]; simpl.
  - pose proof (calculateLag_effects v (TimestampFormat lc) w) as H1.
    destruct (calculateLag v (TimestampFormat lc) w) as [lag w1]. simpl in H1.
    change 1%nat with (1 + 0)%nat.
    eapply lagEffects_trans; [exact H1|]. apply lagEffects_heap.
  - eapply lagEffects_mono; [|apply lagEffects_refl]. lia.
Qed.

Lemma columnStep_effects result filtered c w :
  lagEffects 0 w (snd (columnStep result filtered c w)).
Proof.
  unfold columnStep, bind, map_get.
  destruct (rowAt w result !! c) as [v|]; simpl; [apply lagEffects_heap|apply lagEffects_refl].
Qed.

Lemma applyTransformations_lagEffects (row : loc) (metric : MetricConfig) (w : World) :
  lagEffects (length (LagCalculations metric)) w (snd (applyTransformations row metric w)).
Proof.
  unfold applyTransformations, bind.
  pose proof (lagEffects_heap (<[fresh (dom (heap w)) := ∅]> (heap w)) w) as H1.
  change (set_heap _ w) with (snd (make_map w)) in H1.
  destruct (make_map w) as [result w1]. simpl in H1.
  unfold map_range at 1.
  pose proof (lagEffects_forM_ (fun kv : string * any => map_set result (fst kv) (snd kv)) 0
                (map_to_list (rowAt w1 row))
                (fun x w => lagEffects_heap _ w) w1) as H2.
  destruct (forM_ (map_to_list (rowAt w1 row)) _ w1) as [[] w2]. simpl in H2.
  pose proof (lagEffects_forM_ (lagStep row result) 1 (LagCalculations metric)
                (lagStep_effects row result) w2) as H3.
  destruct (forM_ (LagCalculations metric) _ w2) as [[] w3]. simpl in H3.
  rewrite Nat.mul_0_r in H2. rewrite Nat.mul_1_r in H3.
  assert (lagEffects (length (LagCalculations metric)) w w3) as H13.
  { change (length (LagCalculations metric)) with (0 + (0 + length (LagCalculations metric)))%nat.
    eapply lagEffects_trans; [exact H1|]. eapply lagEffects_trans; [exact H2|exact H3]. }
  destruct (0 <? length (ColumnFilters metric))%nat; [|exact H13].
  pose proof (lagEffects_heap (<[fresh (dom (heap w3)) := ∅]> (heap w3)) w3) as H4.
  change (set_heap _ w3) with (snd (make_map w3)) in H4.
  destruct (make_map w3) as [filtered w4]. simpl in H4.
  pose proof (lagEffects_forM_ (columnStep result filtered) 0 (ColumnFilters metric)
                (columnStep_effects result filtered) w4) as H5.
  destruct (forM_ (ColumnFilters metric) _ w4) as [[] w5]. simpl in H5.
  rewrite Nat.mul_0_r in H5. simpl.
  rewrite <- (Nat.add_0_r (length (LagCalculations metric))).
  eapply lagEffects_trans; [exact H13|].
  change 0%nat with (0 + 0)%nat. eapply lagEffects_trans; [exact H4|exact H5].
Qed.

(** X9.  The transformation step sends nothing and leaves the clock and
    the environment as they are; it writes nothing but warnings to the log;
    and the readings it takes of the clock and the warnings it writes are
    together at most as many as the metric has lag calculations. *)
Theorem applyTransformations_effects (row : loc) (metric : MetricConfig) (w w' : World)
    (l' : loc) :
  applyTransformations row metric w = (l', w') ->
  chan w' = chan w /\ clock w' = clock w /\ environ w' = environ w
  /\ (ticks w <= ticks w')%nat
  /\ exists evs, log w' = log w ++ evs
                 /\ Forall (fun e => level e = LevelWarn) evs
                 /\ (ticks w' - ticks w + length evs <= length (LagCalculations metric))%nat.
Proof.
  intros Hrun. pose proof (applyTransformations_lagEffects row metric w) as Heff.
  rewrite Hrun in Heff. simpl in Heff.
  destruct Heff as (Hchan & Hclock & Henv & evs & k & Hlog & Ht & Hb & Hw).
  do 3 (split; [done|]). split; [lia|]. exists evs. split; [done|]. split; [done|]. lia.
Qed.

(** ** Lags of whole seconds *)

Lemma f64_of_int_nonneg (n : Z) : 0 <= n -> f64_of_int n <> S754_zero true.
Proof.
  intros Hn. unfold f64_of_int, binary_normalize.
  destruct n as [|p|p]; [done| |lia].
  unfold binary_round. destruct (shl_align p 0 _) as [mz ez].
  unfold binary_round_aux.
  destruct (shr_fexp f64_prec f64_emax (Z.pos mz) ez loc_Exact) as [mrs' e'].
  destruct (shr_fexp f64_prec f64_emax _ e' loc_Exact) as [mrs'' e''].
  destruct (shr_m mrs'') as [|m|m]; [done| |done].
  by destruct (e'' <=? f64_emax - f64_prec).
Qed.

Lemma Seconds_whole (n : Z) : 0 <= n -> Seconds (n * Second) = f64_of_int n.
Proof.
  intros Hn. unfold Seconds. cbv zeta.
  rewrite Z.quot_mul by done. rewrite Z.rem_mul by done.
  change (f64_div (f64_of_int 0) (f64_of_int 1000000000)) with (S754_zero false).
  pose proof (f64_of_int_nonneg n Hn) as Hne.
  unfold f64_add, SFadd. destruct (f64_of_int n) as [[|]| | |]; done.
Qed.

(** X10.  A timestamp that lies a whole number [n] of seconds before the
    reading of the clock, be it a native timestamp or a text the parser
    accepts, gives exactly that number as the lag, as long as the [n] seconds
    are a duration, that is, at most the largest one of 2^63 - 1 nanoseconds:
    the split of the duration into seconds and nanoseconds loses nothing.
    For a timestamp further back the difference saturates, and the lag is
    that of the largest duration.  In both cases the clock is read once and
    nothing is written. *)
Theorem calculateLag_whole_seconds (v : any) (format : string) (t : Time) (n : Z) (w : World) :
  v = NullTime t true
  \/ (exists s, timestampText v = Some s /\ s <> EmptyString
                /\ Time_Parse (effectiveLayout format) s = Ok t) ->
  0 <= n ->
  clock w (ticks w) = t + n * Second ->
  calculateLag v format w
  = (if decide (n * Second <= maxDuration) then f64_of_int n else Seconds maxDuration,
     afterTick w).
Proof.
  intros Hv Hn Hclock.
  assert (calculateLag v format w = (Seconds (Sub (clock w (ticks w)) t), afterTick w)) as ->.
  { destruct Hv as [->|(s & Htext & Hne & Hparse)].
    - apply calculateLag_NullTime.
    - rewrite (calculateLag_text v s format w Htext). unfold lagFromString.
      destruct (decide (s = EmptyString)) as [?|_]; [done|].
      unfold effectiveLayout in Hparse. by rewrite Hparse. }
  f_equal. unfold Sub. rewrite Hclock. replace (t + n * Second - t) with (n * Second) by lia.
  cbv zeta. destruct (Z.ltb_spec (n * Second) minDuration) as [Hlt|_].
  { unfold minDuration, Second in Hlt. lia. }
  destruct (Z.ltb_spec maxDuration (n * Second)) as [Hlt|Hle].
  - rewrite decide_False by lia. done.
  - rewrite decide_True by done. by apply Seconds_whole.
Qed.

End PipelineMore.

Import Pipeline Spec Notions Examples MoreExamples.

Lemma negative_operators_complement_witness :
  fst (@applyRowFilter sampleExternal 1%positive
         (withOperator (envFilter "equals" "prod") "not_in") worldProd)
  = negb (fst (@applyRowFilter sampleExternal 1%positive
                 (withOperator (envFilter "equals" "prod") "in") worldProd)).
Proof.
  destruct (@negative_operators_complement sampleExternal worldProd 1%positive
              (envFilter "equals" "prod") (NullString "prod" true) eq_refl eq_refl)
    as [Hin _].
  exact Hin.
Defined.

Lemma shouldIncludeRow_effects_witness :
  snd (@shouldIncludeRow sampleExternal 1%positive warnedMetric worldProd)
  = afterLogs [unknownOperatorWarning "matches"] worldProd.
Proof.
  apply (proj1 (@shouldIncludeRow_effects sampleExternal 1%positive warnedMetric worldProd)).
  reflexivity.
Defined.

Lemma contains_filter_substring_witness :
  fst (@applyRowFilter sampleExternal 1%positive (envFilter "contains" "ro") worldProd) = true.
Proof.
  apply (@contains_filter_substring sampleExternal worldProd 1%positive
           (envFilter "contains" "ro") "prod" eq_refl eq_refl).
  by exists "p", "d".
Defined.

Lemma shouldIncludeRow_stops_at_first_mismatch_witness :
  @shouldIncludeRow sampleExternal 1%positive stoppedMetric worldProd = (false, worldProd).
Proof.
  destruct (@shouldIncludeRow_stops_at_first_mismatch sampleExternal 1%positive stoppedMetric
              [envFilter "equals" "prod"] [mkRowFilter "env" "matches" "x" []]
              (envFilter "equals" "dev") worldProd eq_refl) as [Hsame _].
  - intros g Hg. apply list_elem_of_singleton in Hg. by subst g.
  - reflexivity.
  - rewrite Hsame. reflexivity.
Defined.

Lemma applyTransformations_plain_copy_witness :
  @applyTransformations sampleExternal 1%positive noMetric worldProd
  = (2%positive, set_heap (<[2%positive := rowProd]> (heap worldProd)) worldProd).
Proof.
  exact (@applyTransformations_plain_copy sampleExternal 1%positive noMetric worldProd
           eq_refl eq_refl).
Defined.

Lemma applyTransformations_passes_through_witness :
  rowAt (snd (@applyTransformations sampleExternal 1%positive (config lagFamily) worldLag))
        (fst (@applyTransformations sampleExternal 1%positive (config lagFamily) worldLag))
    !! "env" = Some (NullString "prod" true).
Proof.
  destruct (@applyTransformations sampleExternal 1%positive (config lagFamily) worldLag)
    as [l' w'] eqn:Hrun.
  destruct (@applyTransformations_passes_through sampleExternal 1%positive rowLag
              (config lagFamily) worldLag l' w' "env" eq_refl Hrun) as [Hpass _].
  simpl. rewrite Hpass.
  - reflexivity.
  - by left.
  - intros lc Hlc Hout. apply list_elem_of_singleton in Hlc. by subst lc.
Defined.

Lemma applyTransformations_effects_witness :
  chan (snd (@applyTransformations sampleExternal 1%positive (config lagFamily) worldLag))
  = chan worldLag.
Proof.
  destruct (@applyTransformations sampleExternal 1%positive (config lagFamily) worldLag)
    as [l' w'] eqn:Hrun.
  destruct (@applyTransformations_effects sampleExternal 1%positive (config lagFamily)
              worldLag w' l' Hrun) as [Hchan _].
  exact Hchan.
Defined.

Lemma calculateLag_whole_seconds_witness :
  @calculateLag sampleExternal (NullString "970" true) EmptyString world0
  = (f64_of_int 30, afterTick world0).
Proof.
  pose proof (@calculateLag_whole_seconds sampleExternal (NullString "970" true) EmptyString
                (970 * Second) 30 world0) as Hlag.
  rewrite decide_True in Hlag by (unfold Second, maxDuration; lia).
  apply Hlag.
  - right. exists "970". split; [reflexivity|]. split; [done|]. reflexivity.
  - lia.
  - reflexivity.
Defined.

End PipelineMore.

(** * More on the row scanner *)

Module ScannerMore.
Section ScannerMore.
Context {ext : External}.

Import Scanner Spec Notions HeapProps ScannerProps.

(** ** scanDest *)

Lemma destLoop_exact ct cols : forall dest have,
  fst (destLoop ct cols dest have) = dest ++ map (fun c => initialSlot (ct !! c)) cols.
Proof.
  induction cols as [|c cols IH]; intros dest have; simpl.
  - by rewrite app_nil_r.
  - destruct (ct !! c) as [[| |]|]; rewrite IH, <- app_assoc; reflexivity.
Qed.

(** X11.  [scanDest] succeeds exactly on an open cursor whose result set
    has every column of the column-role map; what it returns then is one
    cell for each column of the result set, in their order: an empty
    nullable string, float or timestamp for a column with a role, a plain
    cell for any other. *)
Theorem scanDest_succeeds_iff (q : Query) (rows : Rows) :
  (forall dest, scanDest q rows = Ok dest ->
     rowsClosed rows = false
     /\ (forall c, is_Some (columnTypes q !! c) -> c ∈ rowsColumns rows)
     /\ dest = map (fun c => initialSlot (columnTypes q !! c)) (rowsColumns rows))
  /\ (rowsClosed rows = false ->
      (forall c, is_Some (columnTypes q !! c) -> c ∈ rowsColumns rows) ->
      scanDest q rows = Ok (map (fun c => initialSlot (columnTypes q !! c)) (rowsColumns rows))).
Proof.
  assert (forall dest, rowsClosed rows = false -> scanDest q rows = Ok dest ->
            dest = map (fun c => initialSlot (columnTypes q !! c)) (rowsColumns rows)) as Hexact.
  { intros dest Hopen. unfold scanDest, Columns. rewrite Hopen.
    pose proof (destLoop_exact (columnTypes q) (rowsColumns rows) [] ∅) as Hd.
    destruct (destLoop (columnTypes q) (rowsColumns rows) [] ∅) as [d have]. simpl in Hd.
    destruct (decide (size have <> size (columnTypes q))); [done|]. by intros [= <-]. }
  split.
  - intros dest Hok.
    assert (rowsClosed rows = false) as Hopen.
    { revert Hok. unfold scanDest, Columns. by destruct (rowsClosed rows). }
    split; [done|]. split; [|by apply Hexact].
    intros c Hc. destruct (decide (c ∈ rowsColumns rows)) as [|Hnot]; [done|].
    destruct (scanDest_spec q rows Hopen) as [Hfail _].
    destruct Hfail as (missing & Herr & _); [by exists c|]. congruence.
  - intros Hopen Hall.
    destruct (scanDest_spec q rows Hopen) as [_ Hsucc].
    destruct (Hsucc Hall) as (dest & Hok & _). rewrite Hok. f_equal. by apply Hexact.
Qed.

(** ** scanRow *)

Lemma scanRow_Returned q rows dest w row dest' w' :
  scanRow q rows dest w = ((Returned row, dest'), w') ->
  exists values,
    rowsClosed rows = false /\ rowsCurrent rows = Some values
    /\ length dest = length values
    /\ scanLoop values dest = (None, dest')
    /\ row = fresh (dom (heap w))
    /\ pickLoop (columnTypes q) row (rowsColumns rows) dest' (snd (make_map w))
       = (Returned tt, w').
Proof.
  unfold scanRow, Columns, Scan.
  destruct (rowsClosed rows); [done|].
  destruct (rowsCurrent rows) as [values|]; [|done].
  destruct (decide (length dest <> length values)) as [Hne|Hlen]; [done|].
  apply dec_stable in Hlen.
  destruct (scanLoop values dest) as [[e|] dest1] eqn:Hscan; [done|].
  unfold bind.
  assert (fst (make_map w) = fresh (dom (heap w))) as Hl by done.
  destruct (make_map w) as [result w1]. simpl in Hl.
  destruct (pickLoop (columnTypes q) result (rowsColumns rows) dest1 w1) as [o w2] eqn:Hpick.
  destruct o as [[]|e|msg]; try done. intros [= <- <- <-].
  exists values. simpl. by subst result.
Qed.

Lemma pickLoop_untouched ct result cols : forall dest w w',
  pickLoop ct result cols dest w = (Returned tt, w') ->
  is_Some (heap w !! result) ->
  (length cols <= length dest)%nat
  /\ forall c, ct !! c = None -> rowAt w' result !! c = rowAt w result !! c.
Proof.
  induction cols as [|c0 cols IH]; intros dest w w'; simpl.
  - intros [= <-] _. split; [lia|done].
  - destruct dest as [|slot0 dest]; [done|].
    assert (forall v w1,
      map_set result c0 v w = (tt, w1) -> is_Some (ct !! c0) ->
      pickLoop ct result cols dest w1 = (Returned tt, w') ->
      is_Some (heap w !! result) ->
      (length (c0 :: cols) <= length (slot0 :: dest))%nat
      /\ forall c, ct !! c = None -> rowAt w' result !! c = rowAt w result !! c) as Hwrite.
    { intros v w1 Hset Hrole Hrest Hsome.
      pose proof (map_set_sameExcept result c0 v w) as Hf1.
      pose proof (map_set_rowAt result c0 v w Hsome) as Hrow1.
      rewrite Hset in Hf1, Hrow1. simpl in Hf1, Hrow1.
      apply IH in Hrest as [Hlen Hkeep]; [|by eapply sameExcept_is_Some].
      split; [simpl; lia|]. intros c Hc. rewrite Hkeep, Hrow1 by done.
      apply lookup_insert_ne. intros ->. rewrite Hc in Hrole. by destruct Hrole. }
    destruct (ct !! c0) as [[| |]|] eqn:Hc0, slot0 as [s valid|f valid|t valid|v];
      unfold ret; try unfold bind at 1; try done;
      try (intros Hrun Hsome; apply IH in Hrun as [Hlen Hkeep]; [|done];
           split; [simpl; lia|done]);
      match goal with
      | |- context [map_set result c0 ?v w] =>
          destruct (map_set result c0 v w) as [[] w1] eqn:Hset;
          intros Hrun Hsome; by eapply (Hwrite v w1)
      end.
Qed.

Lemma last_occurrence (c : string) (cols : list string) :
  c ∈ cols ->
  exists i, cols !! i = Some c /\ forall j, (i < j)%nat -> cols !! j <> Some c.
Proof.
  induction cols as [|x cols IH]; [by intros ?%elem_of_nil|].
  intros Hin. destruct (decide (c ∈ cols)) as [Hc|Hc].
  - destruct (IH Hc) as (i & Hi & Hlast). exists (S i). split; [done|].
    intros [|j] Hj; [lia|]. simpl. apply Hlast. lia.
  - apply elem_of_cons in Hin as [->|?]; [|done]. exists O. split; [done|].
    intros [|j] Hj; [lia|]. simpl. intros Hx. apply Hc. by eapply list_elem_of_lookup_2.
Qed.

Lemma scanRow_picked q rows dest w row dest' w' c t :
  scanRow q rows dest w = ((Returned row, dest'), w') ->
  c ∈ rowsColumns rows -> columnTypes q !! c = Some t ->
  exists i slot v,
    rowsColumns rows !! i = Some c
    /\ (forall j, (i < j)%nat -> rowsColumns rows !! j <> Some c)
    /\ dest' !! i = Some slot /\ slotFits (columnTypes q) c slot
    /\ slotValue slot = Some v /\ rowAt w' row !! c = Some v.
Proof.
  intros Hrun Hin Ht.
  apply scanRow_Returned in Hrun as (values & _ & _ & _ & _ & -> & Hpick).
  assert (is_Some (heap (snd (make_map w)) !! fresh (dom (heap w)))) as Hsome.
  { simpl. rewrite lookup_insert_eq. by eexists. }
  destruct (pickLoop_untouched _ _ _ _ _ _ Hpick Hsome) as [Hlen _].
  apply pickLoop_run in Hpick as (_ & _ & _ & _ & _ & _ & Hret); [|done].
  destruct (Hret eq_refl) as [_ Hpicked].
  destruct (last_occurrence c _ Hin) as (i & Hi & Hlast).
  assert (is_Some (dest' !! i)) as [slot Hslot].
  { apply lookup_lt_is_Some. apply lookup_lt_Some in Hi. lia. }
  destruct (Hpicked i c slot Hi Hslot (ltac:(by eexists)) Hlast) as [Hval Hfit].
  assert (exists v, slotValue slot = Some v) as [v Hv].
  { unfold slotFits in Hfit. rewrite Ht in Hfit. destruct t, slot; try done; by eexists. }
  exists i, slot, v. rewrite Hval. done.
Qed.

(** X12.  The map [scanRow] returns is new, and its columns are exactly the
    columns of the result set that have a role: a column without a role is
    scanned and dropped, and a column with a role is there even when it
    holds NULL.  Every entry is of the nullable type of the role of its
    column. *)
Theorem scanRow_entries (q : Query) (rows : Rows) (dest dest' : list Slot)
    (w w' : World) (row : loc) :
  scanRow q rows dest w = ((Returned row, dest'), w') ->
  heap w !! row = None
  /\ (forall c, is_Some (rowAt w' row !! c)
                <-> c ∈ rowsColumns rows /\ is_Some (columnTypes q !! c))
  /\ (forall c v t, rowAt w' row !! c = Some v -> columnTypes q !! c = Some t -> hasRole t v).
Proof.
  intros Hrun.
  assert (forall c, is_Some (rowAt w' row !! c)
                    -> c ∈ rowsColumns rows /\ is_Some (columnTypes q !! c)) as Honly.
  { pose proof Hrun as Hrun'.
    apply scanRow_Returned in Hrun' as (values & _ & _ & _ & _ & -> & Hpick).
    assert (is_Some (heap (snd (make_map w)) !! fresh (dom (heap w)))) as Hsome.
    { simpl. rewrite lookup_insert_eq. by eexists. }
    assert (rowAt (snd (make_map w)) (fresh (dom (heap w))) = ∅) as Hempty.
    { unfold rowAt. simpl. by rewrite lookup_insert_eq. }
    destruct (pickLoop_untouched _ _ _ _ _ _ Hpick Hsome) as [_ Hnorole].
    apply pickLoop_run in Hpick as (_ & _ & _ & _ & _ & _ & Hret); [|done].
    destruct (Hret eq_refl) as [Hkeep _].
    intros c Hc. split.
    - destruct (decide (c ∈ rowsColumns rows)) as [|Hnot]; [done|].
      rewrite (Hkeep c Hnot), Hempty, lookup_empty in Hc. by destruct Hc.
    - destruct (columnTypes q !! c) as [t|] eqn:Ht; [by eexists|].
      rewrite (Hnorole c Ht), Hempty, lookup_empty in Hc. by destruct Hc. }
  split; [|split].
  - apply scanRow_Returned in Hrun as (values & _ & _ & _ & _ & -> & _).
    apply fresh_not_allocated.
  - intros c. split; [apply Honly|]. intros [Hin [t Ht]].
    destruct (scanRow_picked _ _ _ _ _ _ _ c t Hrun Hin Ht)
      as (i & slot & v & _ & _ & _ & _ & _ & ->). by eexists.
  - intros c v t Hv Ht.
    destruct (Honly c (ltac:(by eexists))) as [Hin _].
    destruct (scanRow_picked _ _ _ _ _ _ _ c t Hrun Hin Ht)
      as (i & slot & v' & _ & _ & _ & Hfit & Hval & Hv').
    rewrite Hv in Hv'. injection Hv' as <-.
    unfold slotFits in Hfit. rewrite Ht in Hfit.
    destruct t, slot; try done; simpl in Hval; injection Hval as <-; done.
Qed.

Lemma scanLoop_accepted values : forall dest dest' i slot v,
  scanLoop values dest = (None, dest') ->
  dest !! i = Some slot -> values !! i = Some v ->
  fst (scanSlot slot v) = None.
Proof.
  induction values as [|v0 values IH]; intros dest dest' i slot v; [done|].
  destruct dest as [|slot0 dest]; [done|]. simpl.
  destruct (scanSlot slot0 v0) as [[e|] slot0'] eqn:Hslot0; [done|].
  destruct (scanLoop values dest) as [err rest] eqn:Hrest.
  intros [= -> <-]. destruct i as [|i]; simpl.
  - intros [= <-] [= <-]. by rewrite Hslot0.
  - intros Hslot Hv. by eapply IH.
Qed.

Lemma scanSlot_converts ct c t slot v :
  ct !! c = Some t -> slotFits ct c (snd (scanSlot slot v)) ->
  fst (scanSlot slot v) = None -> v <> DNull ->
  exists e, convertEntry t v = Ok e /\ isNull e = false
            /\ slotValue (snd (scanSlot slot v)) = Some e.
Proof.
  intros Ht Hfit Hacc Hnn. unfold slotFits in Hfit. rewrite Ht in Hfit. unfold convertEntry.
  destruct slot as [old valid|old valid|old valid|old], v; try done; simpl in *;
    destruct t;
    try match goal with
        | H : context [convertAssign_string ?x] |- _ => destruct (convertAssign_string x)
        | H : context [convertAssign_float64 ?x] |- _ => destruct (convertAssign_float64 x)
        | H : context [convertAssign_Time ?x] |- _ => destruct (convertAssign_Time x)
        end;
    simpl in *; try done;
    eexists; (split; [reflexivity|]); split; reflexivity.
Qed.

(** X13.  For a column with a role whose last occurrence holds a value
    that is not NULL, the row [scanRow] returns has the entry the conversion
    of the role makes of the value, marked valid; so that conversion has
    succeeded. *)
Theorem scanRow_converts (q : Query) (rows : Rows) (dest dest' : list Slot)
    (w w' : World) (row : loc) (values : list driverValue)
    (i : nat) (c : string) (t : columnType) (v : driverValue) :
  scanRow q rows dest w = ((Returned row, dest'), w') ->
  rowsCurrent rows = Some values ->
  rowsColumns rows !! i = Some c -> values !! i = Some v -> v <> DNull ->
  columnTypes q !! c = Some t ->
  (forall j, (i < j)%nat -> rowsColumns rows !! j <> Some c) ->
  exists e, convertEntry t v = Ok e /\ isNull e = false /\ rowAt w' row !! c = Some e.
Proof.
  intros Hrun Hcur Hc Hv Hnn Ht Hlast.
  apply scanRow_Returned in Hrun as (values' & _ & Hcur' & Hlen & Hscan & -> & Hpick).
  rewrite Hcur in Hcur'. injection Hcur' as <-.
  apply pickLoop_run in Hpick as (_ & _ & _ & _ & _ & _ & Hret);
    [|simpl; rewrite lookup_insert_eq; by eexists].
  destruct (Hret eq_refl) as [_ Hpicked].
  assert (is_Some (dest !! i)) as [slot Hslot].
  { apply lookup_lt_is_Some. rewrite Hlen. by eapply lookup_lt_Some. }
  pose proof (scanLoop_stored _ _ _ _ _ _ Hscan Hslot Hv) as Hstored.
  pose proof (scanLoop_accepted _ _ _ _ _ _ Hscan Hslot Hv) as Hacc.
  destruct (Hpicked i c _ Hc Hstored (ltac:(by eexists)) Hlast) as [-> Hfit].
  by eapply scanSlot_converts.
Qed.

(** ** What scanning does to the world *)

Lemma sameExcept_set_heap result w w' :
  sameExcept {[result]} w w' -> is_Some (heap w !! result) ->
  log w' = log w -> ticks w' = ticks w -> chan w' = chan w -> clock w' = clock w ->
  environ w' = environ w ->
  w' = set_heap (<[result := rowAt w' result]> (heap w)) w.
Proof.
  intros [Hdom Hsame] Hsome Hlog Hticks Hchan Hclock Henv.
  assert (heap w' = <[result := rowAt w' result]> (heap w)) as Hheap.
  { apply map_eq. intros l. destruct (decide (l = result)) as [->|Hne].
    - rewrite lookup_insert_eq.
      assert (is_Some (heap w' !! result)) as [r Hr].
      { apply elem_of_dom. rewrite Hdom. by apply elem_of_dom. }
      unfold rowAt. by rewrite Hr.
    - rewrite lookup_insert_ne by done. apply Hsame. set_solver. }
  destruct w' as [h l c t ch e]. unfold set_heap, rowAt in *. simpl in *.
  subst l c t ch e. f_equal. exact Hheap.
Qed.

Lemma pickLoop_not_Failed ct result cols : forall dest w e w',
  pickLoop ct result cols dest w <> (Failed e, w').
Proof.
  induction cols as [|c0 cols IH]; intros dest w e w'; simpl; [done|].
  destruct dest as [|slot0 dest]; [done|].
  destruct (ct !! c0) as [[| |]|], slot0 as [s valid|f valid|t valid|v];
    unfold ret; try unfold bind at 1; try done;
    try apply IH;
    match goal with
    | |- context [map_set result c0 ?v w] =>
        destruct (map_set result c0 v w) as [[] w1]; apply IH
    end.
Qed.

(** X14.  A scan that fails changes nothing.  Any other makes one new
    map, at a fresh address, and changes nothing else: no map that existed,
    and neither the log, the clock, the channel nor the environment; a scan
    that returns a row returns that address. *)
Theorem scanRow_effects (q : Query) (rows : Rows) (dest dest' : list Slot)
    (w w' : World) (o : outcome loc) :
  scanRow q rows dest w = ((o, dest'), w') ->
  match o with
  | Failed _ => w' = w
  | Returned row =>
      row = fresh (dom (heap w)) /\ w' = set_heap (<[row := rowAt w' row]> (heap w)) w
  | Panicked _ =>
      w' = set_heap (<[fresh (dom (heap w)) := rowAt w' (fresh (dom (heap w)))]> (heap w)) w
  end.
Proof.
  unfold scanRow, Columns.
  destruct (rowsClosed rows); [by intros [= <- <- <-]|].
  destruct (Scan rows dest) as [[e|] dest1]; [by intros [= <- <- <-]|].
  unfold bind.
  assert (fst (make_map w) = fresh (dom (heap w))
          /\ snd (make_map w) = set_heap (<[fresh (dom (heap w)) := ∅]> (heap w)) w)
    as [Hl Hw1] by done.
  destruct (make_map w) as [result w1]. simpl in Hl, Hw1. subst result.
  destruct (pickLoop (columnTypes q) _ (rowsColumns rows) dest1 w1) as [picked w2] eqn:Hpick.
  pose proof (pickLoop_not_Failed (columnTypes q) (fresh (dom (heap w))) (rowsColumns rows)
                dest1 w1) as Hnofail.
  rewrite Hpick in Hnofail.
  apply pickLoop_run in Hpick as (Hframe & Hlog & Hticks & Hchan & Hclock & Henv & _);
    [|subst w1; simpl; rewrite lookup_insert_eq; by eexists].
  assert (w2 = set_heap (<[fresh (dom (heap w)) := rowAt w2 (fresh (dom (heap w)))]> (heap w)) w)
    as Hw2.
  { rewrite (sameExcept_set_heap _ w1 w2 Hframe) at 1; try done.
    - subst w1. unfold set_heap. simpl. by rewrite insert_insert_eq.
    - subst w1. simpl. rewrite lookup_insert_eq. by eexists. }
  destruct picked as [[]|e|msg]; intros [= <- <- <-]; try done.
  by destruct (Hnofail e w2).
Qed.

(** X15.  What an earlier scan has left in the destination cells, be it
    the values of another row or the half of a row whose scan failed, has no
    influence on the next: the outcome and the world are those of a scan
    into the cells as they were before. *)
Theorem scanRow_reuses_cells (q : Query) (earlier rows : Rows) (dest : list Slot) (w0 w : World) :
  fst (fst (scanRow q rows (snd (fst (scanRow q earlier dest w0))) w))
  = fst (fst (scanRow q rows dest w))
  /\ snd (scanRow q rows (snd (fst (scanRow q earlier dest w0))) w)
     = snd (scanRow q rows dest w).
Proof.
  destruct (DriverProps.scanRow_kinds q earlier dest dest w0
              (DriverProps.Forall2_sameKind_refl dest))
    as (o0 & w0' & d1 & d2 & Hrun0 & _ & _ & Hkind).
  rewrite Hrun0. simpl.
  destruct (DriverProps.scanRow_kinds q rows dest d1 w Hkind)
    as (o & w' & d' & d1' & Hrun & Hrun1 & _).
  by rewrite Hrun, Hrun1.
Qed.

End ScannerMore.

Import Scanner Spec Notions Examples MoreExamples.

Lemma scanRow_entries_witness :
  is_Some (rowAt (snd (@scanRow sampleExternal queryK rowsKN destKN world0)) 1%positive !! "k")
  /\ ~ is_Some (rowAt (snd (@scanRow sampleExternal queryK rowsKN destKN world0)) 1%positive
                !! "n").
Proof.
  destruct (@scanRow sampleExternal queryK rowsKN destKN world0) as [[o dest'] w'] eqn:Hrun.
  assert (o = Returned 1%positive) as ->.
  { change o with (fst (fst (o, dest', w'))). rewrite <- Hrun. vm_compute. reflexivity. }
  destruct (@scanRow_entries sampleExternal queryK rowsKN destKN dest' world0 w' 1%positive Hrun)
    as (_ & Hcols & _).
  simpl. split.
  - apply Hcols. split; [apply list_elem_of_here|by eexists].
  - intros Hn. apply Hcols in Hn as [_ [t Ht]]. discriminate Ht.
Defined.

Lemma scanRow_converts_witness :
  exists e, @convertEntry sampleExternal columnTypeValue (DInt64 1) = Ok e
    /\ isNull e = false
    /\ rowAt (snd (@scanRow sampleExternal queryKV rowsGood destKV world0)) 1%positive !! "v"
       = Some e.
Proof.
  destruct (@scanRow sampleExternal queryKV rowsGood destKV world0) as [[o dest'] w'] eqn:Hrun.
  assert (o = Returned 1%positive) as ->.
  { change o with (fst (fst (o, dest', w'))). rewrite <- Hrun. vm_compute. reflexivity. }
  apply (@scanRow_converts sampleExternal queryKV rowsGood destKV dest' world0 w'
           1%positive goodRow1 1%nat "v" columnTypeValue (DInt64 1) Hrun eq_refl).
  - reflexivity.
  - reflexivity.
  - done.
  - reflexivity.
  - intros [|[|j]] Hj; [lia|lia|discriminate].
Defined.

Lemma scanRow_effects_witness :
  snd (@scanRow sampleExternal queryKV rowsBad destKV world0) = world0.
Proof.
  destruct (@scanRow sampleExternal queryKV rowsBad destKV world0) as [[o dest'] w'] eqn:Hrun.
  assert (exists e, o = Failed e) as [e ->].
  { change o with (fst (fst (o, dest', w'))). rewrite <- Hrun. vm_compute. by eexists. }
  exact (@scanRow_effects sampleExternal queryKV rowsBad destKV dest' world0 w' (Failed e) Hrun).
Defined.

End ScannerMore.

(** * More on the collection driver *)

Module DriverMore.
Section DriverMore.
Context {ext : External}.

Import Scanner Pipeline Driver Spec Notions HeapProps ScannerProps DriverProps.

(** ** Executions *)

(** X16.  In no-prepared-statement mode a query is never bound to a
    handle: executions on any handles, one after the other, never panic,
    leave the query as it is, and each gives what the database answers to the
    query text on its handle. *)
Theorem run_unprepared_any_handle (calls : list (Database * DB)) (q : Query) :
  NoPreparedStatement (qconfig q) = true -> conn q = None ->
  runSeq calls q
  = (map (fun call => wrapRows q (QueryContext (fst call) (snd call) (QueryText (qconfig q))))
         calls, q).
Proof.
  intros Hmode Hconn. induction calls as [|[db c] calls IH]; simpl; [done|].
  unfold run, otherHandle. rewrite Hconn, Hmode. by rewrite IH.
Qed.

Lemma runMany_prepared dbs q c s :
  NoPreparedStatement (qconfig q) = false -> conn q = Some c -> stmt q = Some s ->
  runMany dbs q c = (map (fun db => wrapRows q (StmtQueryContext db s)) dbs, q).
Proof.
  intros Hmode Hconn Hstmt. induction dbs as [|db dbs IH]; simpl; [done|].
  unfold run, otherHandle. rewrite Hconn, Hmode, Hstmt, Pos.eqb_refl. simpl. by rewrite IH.
Qed.

(** X17.  The statement is prepared once: when the first execution of a
    new query prepares it, that execution and all later ones on the handle
    run that statement, and the database is not asked to prepare again. *)
Theorem run_prepares_once (db : Database) (dbs : list Database) (q : Query) (c : DB) (s : Stmt) :
  NoPreparedStatement (qconfig q) = false -> conn q = None -> stmt q = None ->
  PrepareContext db c (QueryText (qconfig q)) = Ok s ->
  runMany (db :: dbs) q c
  = (map (fun db' => wrapRows (set_prepared q c s) (StmtQueryContext db' s)) (db :: dbs),
     set_prepared q c s).
Proof.
  intros Hmode Hconn Hstmt Hprep. simpl.
  unfold run at 1, otherHandle. rewrite Hconn, Hmode, Hstmt, Hprep.
  by rewrite (runMany_prepared dbs (set_prepared q c s) c s).
Qed.

(** ** The outcome of a collection *)

Lemma scanDest_fits q rows dest :
  scanDest q rows = Ok dest -> Forall2 (slotFits (columnTypes q)) (rowsColumns rows) dest.
Proof.
  unfold scanDest, Columns. destruct (rowsClosed rows); [done|].
  destruct (destLoop_spec (columnTypes q) (rowsColumns rows) [] ∅) as [_ (new & Hnew & Hfit)].
  destruct (destLoop (columnTypes q) (rowsColumns rows) [] ∅) as [d have]. simpl in Hnew.
  subst d. destruct (decide (size have <> size (columnTypes q))); [done|]. by intros [= <-].
Qed.

Lemma otherHandle_false q c : otherHandle q c = false -> conn q = None \/ conn q = Some c.
Proof.
  unfold otherHandle. destruct (conn q) as [bound|]; [|by left].
  intros Heq. apply negb_false_iff, Pos.eqb_eq in Heq. right. by subst.
Qed.

(** X18.  The only panic of a collection is the handle check of [run]:
    [Collect] panics exactly when the context is live and the query is bound
    to another handle than the one it is given, and then with the message of
    [run].  A context that is already cancelled is reported before the handle
    is looked at; and the indexing and the type assertions of [scanRow] on
    the cells that [scanDest] has built never fail, whatever the rows hold. *)
Theorem Collect_outcome (IgnoreMissingVals : bool) (db : Database) (ctxErr : option cause)
    (q : Query) (c : DB) (w : World) :
  match fst (fst (Collect IgnoreMissingVals db ctxErr q c w)) with
  | Returned _ => ctxErr <> None \/ otherHandle q c = false
  | Failed _ => False
  | Panicked msg => ctxErr = None /\ otherHandle q c = true /\ msg = handlePanic q
  end.
Proof.
  unfold Collect. destruct ctxErr as [err|].
  { unfold bind. destruct (send _ w) as [[] w1]. simpl. by left. }
  destruct (otherHandle q c) eqn:Hother.
  { unfold run. rewrite Hother. simpl. done. }
  pose proof (otherHandle_false q c Hother) as Hconn.
  destruct (run db q c) as [o q'] eqn:Hrun.
  apply run_same_handle in Hrun as [Hno _]; [|done].
  destruct o as [rows|e|msg]; [| |by destruct Hno].
  - destruct (scanDest q' rows) as [dest|e] eqn:Hdest.
    + destruct (rowsLoop_fits q' rows (rowsPending rows) dest (mkSummary 0 0 0) w
                  (scanDest_fits q' rows dest Hdest)) as (s' & w' & Hloop).
      unfold bind. rewrite Hloop.
      destruct (rowsErr rows); simpl; by right.
    + destruct IgnoreMissingVals; unfold bind; simpl; by right.
  - unfold bind. simpl. by right.
Qed.

(** ** The counters *)

Lemma familiesLoop_counts row mfs : forall s w,
  rows_processed (fst (familiesLoop row mfs s w)) = rows_processed s
  /\ (rows_filtered (fst (familiesLoop row mfs s w))
      + metrics_generated (fst (familiesLoop row mfs s w))
      = rows_filtered s + metrics_generated s + length mfs)%nat.
Proof.
  induction mfs as [|mf mfs IH]; intros s w; simpl; [split; [done|lia]|].
  unfold bind. destruct (shouldIncludeRow row (config mf) w) as [ok w1].
  destruct ok; simpl.
  - destruct (applyTransformations row (config mf) w1) as [t w2].
    destruct (callCollect mf t w2) as [[] w3].
    destruct (IH (mkSummary (rows_processed s) (rows_filtered s) (S (metrics_generated s))) w3)
      as [Hp Hc].
    split; [done|]. rewrite Hc. simpl. lia.
  - destruct (IH (mkSummary (rows_processed s) (S (rows_filtered s)) (metrics_generated s)) w1)
      as [Hp Hc].
    split; [done|]. rewrite Hc. simpl. lia.
Qed.

Lemma rowsLoop_counts q rows pending : forall dest s w s' w',
  rowsLoop q rows pending dest s w = (Returned s', w') ->
  rows_processed s' = (rows_processed s + length pending)%nat
  /\ (rows_filtered s' + metrics_generated s'
      <= rows_filtered s + metrics_generated s + length pending * length (metricFamilies q))%nat.
Proof.
  induction pending as [|values rest IH]; intros dest s w s' w'; simpl.
  - intros [= <- <-]. split; lia.
  - unfold bind.
    destruct (scanRow q (positioned rows values rest) dest w) as [[o dest1] w1].
    destruct o as [row|e|msg]; [| |done].
    + pose proof (familiesLoop_counts row (metricFamilies q)
                    (mkSummary (S (rows_processed s)) (rows_filtered s) (metrics_generated s))
                    w1) as [Hp Hc].
      destruct (familiesLoop row (metricFamilies q) _ w1) as [s1 w2]. simpl in Hp, Hc.
      intros Hrest. apply IH in Hrest as [Hp' Hc']. split; lia.
    + destruct (send _ w1) as [[] w2].
      intros Hrest. apply IH in Hrest as [Hp' Hc']. simpl in Hp', Hc'. split; lia.
Qed.

(** X19.  The summary of a collection that reached the row loop counts
    every row of the result set as processed, the rows whose scan failed
    included; and it counts at most one filtered row or one generated metric
    for each row and metric family. *)
Theorem Collect_summary (IgnoreMissingVals : bool) (db : Database) (q q' : Query) (c : DB)
    (rows : Rows) (s : Summary) (w w' : World) :
  run db q c = (Returned rows, q') ->
  Collect IgnoreMissingVals db None q c w = ((Returned (Some s), q'), w') ->
  rows_processed s = length (rowsPending rows)
  /\ (rows_filtered s + metrics_generated s
      <= rows_processed s * length (metricFamilies q'))%nat.
Proof.
  intros Hrun. unfold Collect. rewrite Hrun.
  destruct (scanDest q' rows) as [dest|e].
  - unfold bind.
    destruct (rowsLoop q' rows (rowsPending rows) dest (mkSummary 0 0 0) w) as [looped w1]
      eqn:Hloop.
    destruct looped as [s0|e|msg]; [|done|done].
    apply rowsLoop_counts in Hloop as [Hp Hc]. simpl in Hp, Hc.
    destruct (rowsErr rows); simpl; intros [= <- <-]; (split; [done|lia]).
  - destruct IgnoreMissingVals; unfold bind; simpl; done.
Qed.

(** ** The error of the cursor *)

Lemma scanRow_cursor q r1 r2 dest w :
  rowsColumns r1 = rowsColumns r2 -> rowsClosed r1 = rowsClosed r2 ->
  rowsCurrent r1 = rowsCurrent r2 ->
  scanRow q r1 dest w = scanRow q r2 dest w.
Proof. intros H1 H2 H3. unfold scanRow, Columns, Scan. by rewrite H1, H2, H3. Qed.

Lemma rowsLoop_withErr q rows err pending : forall dest s w,
  rowsLoop q (withErr rows err) pending dest s w = rowsLoop q rows pending dest s w.
Proof.
  induction pending as [|values rest IH]; intros dest s w; simpl; [done|].
  unfold bind.
  rewrite (scanRow_cursor q (positioned (withErr rows err) values rest)
             (positioned rows values rest)) by done.
  destruct (scanRow q (positioned rows values rest) dest w) as [[o dest1] w1].
  destruct o as [row|e|msg]; [| |done].
  - destruct (familiesLoop row (metricFamilies q) _ w1) as [s1 w2]. apply IH.
  - destruct (send _ w1) as [[] w2]. apply IH.
Qed.

(** X20.  An error of the cursor is reported once, as the last metric of
    the collection, and changes nothing before it: the collection is that
    of the same result set without the error, followed by one invalid metric
    with the error.  When the destination cells cannot be built, the error of
    the cursor is not looked at. *)
Theorem Collect_cursor_error_last (IgnoreMissingVals : bool) (db db0 : Database)
    (q q' : Query) (c : DB) (rows : Rows) (err : cause) (w : World) :
  run db q c = (Returned rows, q') -> rowsErr rows = Some err ->
  run db0 q c = (Returned (withErr rows None), q') ->
  Collect IgnoreMissingVals db None q c w
  = match scanDest q' rows with
    | Ok _ =>
        (fst (Collect IgnoreMissingVals db0 None q c w),
         afterSend (InvalidMetric (mkWithContext (logContext q') err))
                   (snd (Collect IgnoreMissingVals db0 None q c w)))
    | Err _ => Collect IgnoreMissingVals db0 None q c w
    end.
Proof.
  intros Hrun Herr Hrun0.
  assert (scanDest q' (withErr rows None) = scanDest q' rows) as Hsame by done.
  destruct (scanDest q' rows) as [dest|e] eqn:Hdest.
  - rewrite (Collect_rows IgnoreMissingVals db q c rows q' dest w Hrun Hdest).
    rewrite (Collect_rows IgnoreMissingVals db0 q c (withErr rows None) q' dest w Hrun0 Hsame).
    cbn [withErr rowsPending rowsErr]. rewrite rowsLoop_withErr, Herr.
    destruct (rowsLoop_fits q' rows (rowsPending rows) dest (mkSummary 0 0 0) w
                (scanDest_fits q' rows dest Hdest)) as (s' & w' & Hloop).
    by rewrite Hloop.
  - unfold Collect. by rewrite Hrun, Hrun0, Hsame, Hdest.
Qed.

(** ** A row no family wants *)

(** X21.  A row that the filters of every metric family exclude costs
    nothing: no map is made for it and nothing is sent; it is counted as
    filtered once for each family; and the log gets nothing but warnings for
    filters of these families whose operator is not known. *)
Theorem familiesLoop_all_filtered (row : loc) (mfs : list MetricFamily) (s : Summary)
    (w : World) :
  (forall mf, mf ∈ mfs -> fst (shouldIncludeRow row (config mf) w) = false) ->
  exists evs,
    familiesLoop row mfs s w
    = (mkSummary (rows_processed s) (rows_filtered s + length mfs) (metrics_generated s),
       afterLogs evs w)
    /\ Forall (fun e => exists mf f, mf ∈ mfs /\ f ∈ RowFilters (config mf)
                                     /\ knownOperator (Operator f) = false
                                     /\ e = unknownOperatorWarning (Operator f)) evs.
Proof.
  revert s w. induction mfs as [|mf mfs IH]; intros s w Hall; simpl.
  - exists []. rewrite PipelineMore.afterLogs_nil, Nat.add_0_r. split; [by destruct s|done].
  - unfold bind.
    pose proof (Hall mf (list_elem_of_here _ _)) as Hmf.
    destruct (PipelineMore.filterLoop_run row (RowFilters (config mf)) w)
      as (evs1 & Hw1 & Hall1).
    unfold shouldIncludeRow in *.
    destruct (filterLoop row (RowFilters (config mf)) w) as [ok w1]. simpl in Hmf, Hw1.
    subst ok w1. simpl.
    destruct (IH (mkSummary (rows_processed s) (S (rows_filtered s)) (metrics_generated s))
                 (afterLogs evs1 w)) as (evs2 & Hrest & Hall2).
    { intros mf' Hmf'. rewrite <- (Hall mf') by (by apply elem_of_cons; right).
      by apply filterLoop_fst_row. }
    exists (evs1 ++ evs2). rewrite Hrest, PipelineMore.afterLogs_app. simpl.
    split; [by rewrite Nat.add_succ_r|].
    apply Forall_app. split.
    + eapply Forall_impl; [exact Hall1|]. intros e (f & Hf & Hrest').
      exists mf, f. split; [by apply elem_of_cons; left|done].
    + eapply Forall_impl; [exact Hall2|]. intros e (mf' & f & Hmf' & Hrest').
      exists mf', f. split; [by apply elem_of_cons; right|done].
Qed.

(** ** A collection only adds *)

Lemma appends_refl w : appends w w.
Proof.
  split; [exists []; by rewrite app_nil_r|]. split; [exists []; by rewrite app_nil_r|].
  by repeat split.
Qed.

Lemma appends_trans w1 w2 w3 : appends w1 w2 -> appends w2 w3 -> appends w1 w3.
Proof.
  intros ([ms1 Hc1] & [evs1 Hl1] & Ht1 & Hk1 & He1) ([ms2 Hc2] & [evs2 Hl2] & Ht2 & Hk2 & He2).
  split; [exists (ms1 ++ ms2); by rewrite Hc2, Hc1, app_assoc|].
  split; [exists (evs1 ++ evs2); by rewrite Hl2, Hl1, app_assoc|].
  split; [lia|]. split; congruence.
Qed.

Lemma appends_afterLogs evs w : appends w (afterLogs evs w).
Proof.
  split; [exists []; simpl; by rewrite app_nil_r|]. split; [by exists evs|]. by repeat split.
Qed.

Lemma appends_send m w : appends w (snd (send m w)).
Proof.
  split; [by exists [m]|]. split; [exists []; simpl; by rewrite app_nil_r|]. by repeat split.
Qed.

Lemma appends_lagEffects n w w' : lagEffects n w w' -> appends w w'.
Proof.
  intros (Hchan & Hclock & Henv & evs & k & Hlog & Ht & _).
  split; [exists []; by rewrite app_nil_r|]. split; [by exists evs|].
  split; [lia|]. done.
Qed.

Lemma appends_callCollect mf l w : appends w (snd (callCollect mf l w)).
Proof.
  unfold callCollect. destruct (mfCollect mf (rowAt w l)) as [metrics left]. simpl.
  split; [by exists metrics|]. split; [exists []; simpl; by rewrite app_nil_r|].
  by repeat split.
Qed.

Lemma scanRow_adds q rows dest w :
  appends w (snd (scanRow q rows dest w)) /\ preserves w (snd (scanRow q rows dest w)).
Proof.
  unfold scanRow, Columns.
  destruct (rowsClosed rows); [split; [apply appends_refl|apply preserves_refl]|].
  destruct (Scan rows dest) as [[e|] dest1]; [split; [apply appends_refl|apply preserves_refl]|].
  unfold bind.
  destruct (make_map_spec w) as [Hfresh Hheap].
  assert (log (snd (make_map w)) = log w /\ ticks (snd (make_map w)) = ticks w
          /\ chan (snd (make_map w)) = chan w /\ clock (snd (make_map w)) = clock w
          /\ environ (snd (make_map w)) = environ w) as (Hl1 & Ht1 & Hc1 & Hk1 & He1) by done.
  destruct (make_map w) as [result w1]. simpl in *.
  destruct (pickLoop (columnTypes q) result (rowsColumns rows) dest1 w1) as [picked w2] eqn:Hpick.
  apply pickLoop_run in Hpick as ([Hdom Hsame] & Hlog & Hticks & Hchan & Hclock & Henv & _);
    [|rewrite Hheap, lookup_insert_eq; by eexists].
  assert (appends w w2 /\ preserves w w2) as Hgoal.
  { split.
    - split; [exists []; rewrite app_nil_r; congruence|].
      split; [exists []; rewrite app_nil_r; congruence|].
      split; [lia|]. split; congruence.
    - intros l Hl. rewrite Hsame.
      + rewrite Hheap. apply lookup_insert_ne. intros <-.
        apply elem_of_dom in Hl as [? Hl]. congruence.
      + apply not_elem_of_singleton. intros ->.
        apply elem_of_dom in Hl as [? Hl]. congruence. }
  by destruct picked.
Qed.

Lemma familiesLoop_appends row mfs : forall s w,
  appends w (snd (familiesLoop row mfs s w)).
Proof.
  induction mfs as [|mf mfs IH]; intros s w; simpl; [apply appends_refl|].
  unfold bind.
  destruct (PipelineMore.filterLoop_run row (RowFilters (config mf)) w) as (evs1 & Hw1 & _).
  unfold shouldIncludeRow.
  destruct (filterLoop row (RowFilters (config mf)) w) as [ok w1]. simpl in Hw1. subst w1.
  eapply appends_trans; [apply appends_afterLogs|].
  destruct ok; simpl; [|apply IH].
  pose proof (PipelineMore.applyTransformations_lagEffects row (config mf) (afterLogs evs1 w))
    as H2.
  destruct (applyTransformations row (config mf) (afterLogs evs1 w)) as [t w2]. simpl in H2.
  pose proof (appends_callCollect mf t w2) as H3.
  destruct (callCollect mf t w2) as [[] w3]. simpl in H3.
  eapply appends_trans; [by eapply appends_lagEffects|].
  eapply appends_trans; [exact H3|apply IH].
Qed.

Lemma rowsLoop_adds q rows pending : forall dest s w,
  appends w (snd (rowsLoop q rows pending dest s w))
  /\ preserves w (snd (rowsLoop q rows pending dest s w)).
Proof.
  induction pending as [|values rest IH]; intros dest s w; simpl.
  - split; [apply appends_refl|apply preserves_refl].
  - unfold bind.
    pose proof (scanRow_adds q (positioned rows values rest) dest w) as [Ha1 Hp1].
    destruct (scanRow q (positioned rows values rest) dest w) as [[o dest1] w1].
    simpl in Ha1, Hp1.
    destruct o as [row|e|msg]; [| |done].
    + pose proof (familiesLoop_appends row (metricFamilies q)
                    (mkSummary (S (rows_processed s)) (rows_filtered s) (metrics_generated s))
                    w1) as Ha2.
      pose proof (familiesLoop_preserves row (metricFamilies q)
                    (mkSummary (S (rows_processed s)) (rows_filtered s) (metrics_generated s))
                    w1) as Hp2.
      destruct (familiesLoop row (metricFamilies q) _ w1) as [s1 w2]. simpl in Ha2, Hp2.
      destruct (IH dest1 s1 w2) as [Ha3 Hp3].
      split; [eapply appends_trans; [exact Ha1|eapply appends_trans; [exact Ha2|exact Ha3]]|].
      eapply preserves_trans; [exact Hp1|eapply preserves_trans; [exact Hp2|exact Hp3]].
    + pose proof (appends_send (NewInvalidMetric e) w1) as Ha2.
      destruct (send (NewInvalidMetric e) w1) as [[] w2] eqn:Hsend. simpl in Ha2.
      assert (preserves w1 w2) as Hp2.
      { unfold send in Hsend. injection Hsend as <-. by intros l _. }
      destruct (IH dest1 (mkSummary (S (rows_processed s)) (rows_filtered s)
                            (metrics_generated s)) w2) as [Ha3 Hp3].
      split; [eapply appends_trans; [exact Ha1|eapply appends_trans; [exact Ha2|exact Ha3]]|].
      eapply preserves_trans; [exact Hp1|eapply preserves_trans; [exact Hp2|exact Hp3]].
Qed.

(** X22.  A collection only adds: whatever the database answers, the
    metrics that were on the channel and the records that were in the log
    are still there, in their order, before the new ones; every map that
    existed has its content; and the environment is not touched. *)
Theorem Collect_only_adds (IgnoreMissingVals : bool) (db : Database) (ctxErr : option cause)
    (q : Query) (c : DB) (w : World) :
  appends w (snd (Collect IgnoreMissingVals db ctxErr q c w))
  /\ preserves w (snd (Collect IgnoreMissingVals db ctxErr q c w)).
Proof.
  assert (forall m w0, appends w0 (snd (send m w0)) /\ preserves w0 (snd (send m w0))) as Hsend.
  { intros m w0. split; [apply appends_send|by intros l _]. }
  unfold Collect. destruct ctxErr as [err|].
  { unfold bind. specialize (Hsend (NewInvalidMetric (mkWithContext (logContext q) err)) w).
    by destruct (send _ w) as [[] w1]. }
  destruct (run db q c) as [o q'].
  destruct o as [rows|e|msg].
  - destruct (scanDest q' rows) as [dest|e].
    + unfold bind.
      pose proof (rowsLoop_adds q' rows (rowsPending rows) dest (mkSummary 0 0 0) w) as [Ha Hp].
      destruct (rowsLoop q' rows (rowsPending rows) dest (mkSummary 0 0 0) w) as [looped w1].
      simpl in Ha, Hp.
      destruct looped as [s0|e|msg]; [|done|done].
      destruct (rowsErr rows) as [err1|]; [|done].
      specialize (Hsend (NewInvalidMetric (mkWithContext (logContext q') err1)) w1).
      destruct (send _ w1) as [[] w2]. simpl in *. destruct Hsend as [Ha2 Hp2].
      split; [by eapply appends_trans|by eapply preserves_trans].
    + destruct IgnoreMissingVals; unfold bind.
      * simpl. split; [|by intros l _].
        apply (appends_afterLogs [ignoreWarning q'] w).
      * specialize (Hsend (NewInvalidMetric e) w). by destruct (send _ w) as [[] w1].
  - unfold bind. specialize (Hsend (NewInvalidMetric e) w). by destruct (send _ w) as [[] w1].
  - split; [apply appends_refl|apply preserves_refl].
Qed.

End DriverMore.

Import Scanner Pipeline Driver Spec Notions Examples MoreExamples.

Lemma run_unprepared_any_handle_witness :
  runSeq [(databaseN, 1%positive); (databaseDown, 2%positive)] queryDirect
  = ([Returned rowsN; Failed (mkWithContext "job=db,query=q2" (Foreign "connection refused"))],
     queryDirect).
Proof.
  exact (run_unprepared_any_handle [(databaseN, 1%positive); (databaseDown, 2%positive)]
           queryDirect eq_refl eq_refl).
Defined.

Lemma run_prepares_once_witness :
  runMany [databaseN; databaseDown] queryK 1%positive
  = ([Returned rowsN; Failed (mkWithContext "job=db,query=q1" (Foreign "connection refused"))],
     set_prepared queryK 1%positive (mkStmt 1%positive "SELECT 1")).
Proof.
  exact (run_prepares_once databaseN [databaseDown] queryK 1%positive
           (mkStmt 1%positive "SELECT 1") eq_refl eq_refl eq_refl eq_refl).
Defined.

Lemma Collect_summary_witness :
  exists s,
    fst (fst (@Collect sampleExternal false databaseWithout None queryKV 1%positive world0))
    = Returned (Some s)
    /\ rows_processed s = 2%nat.
Proof.
  destruct (@Collect sampleExternal false databaseWithout None queryKV 1%positive world0)
    as [[o q1] w'] eqn:Hrun.
  assert (o = Returned (Some (mkSummary 2 0 2))) as ->.
  { change o with (fst (fst (o, q1, w'))). rewrite <- Hrun. vm_compute. reflexivity. }
  assert (q1 = set_prepared queryKV 1%positive (mkStmt 1%positive "SELECT 1")) as ->.
  { change q1 with (snd (fst (Returned (Some (mkSummary 2 0 2)), q1, w'))).
    rewrite <- Hrun. vm_compute. reflexivity. }
  eexists. split; [reflexivity|].
  destruct (@Collect_summary sampleExternal false databaseWithout queryKV _ 1%positive
              (cursorKV ([goodRow1] ++ [goodRow3])) _ world0 w' eq_refl Hrun) as [Hp _].
  exact Hp.
Defined.

Lemma Collect_cursor_error_last_witness :
  chan (snd (@Collect sampleExternal false databaseReset None queryKV 1%positive world0))
  = chan (snd (@Collect sampleExternal false databaseQuiet None queryKV 1%positive world0))
    ++ [InvalidMetric (mkWithContext "job=db,query=q1" (Foreign "connection reset"))].
Proof.
  pose proof (@Collect_cursor_error_last sampleExternal false databaseReset databaseQuiet
                queryKV (set_prepared queryKV 1%positive (mkStmt 1%positive "SELECT 1"))
                1%positive cursorReset (Foreign "connection reset") world0
                eq_refl eq_refl eq_refl) as Hlast.
  assert (scanDest (set_prepared queryKV 1%positive (mkStmt 1%positive "SELECT 1")) cursorReset
          = Ok destKV) as Hdest by (vm_compute; reflexivity).
  rewrite Hdest in Hlast. rewrite Hlast. reflexivity.
Defined.

Lemma familiesLoop_all_filtered_witness :
  exists evs,
    @familiesLoop sampleExternal 1%positive [devFamily] (mkSummary 1 0 0) worldProd
    = (mkSummary 1 1 0, afterLogs evs worldProd).
Proof.
  destruct (@familiesLoop_all_filtered sampleExternal 1%positive [devFamily] (mkSummary 1 0 0)
              worldProd) as (evs & Hrun & _).
  - intros mf Hmf. apply list_elem_of_singleton in Hmf. subst mf. reflexivity.
  - exists evs. exact Hrun.
Defined.

End DriverMore.

(** * More on the expansion of the connection descriptor *)

Module ConnectionMore.

Import Connection Spec Notions ConnectionProps.

(** X23.  A text without a dollar sign is returned as it is, and nothing
    is looked up or logged. *)
Theorem expandEnv_no_reference (s : string) (w : World) :
  noDollar s = true -> expandEnv s w = (s, w).
Proof.
  unfold expandEnv, Expand.
  induction s as [|c rest IH]; simpl; [done|].
  intros [Hc Hrest]%andb_prop. apply negb_true_iff in Hc. rewrite Hc. simpl.
  unfold bind. by rewrite (IH Hrest).
Qed.

Lemma lookupFunc_run name w :
  lookupFunc name w
  = match environ w !! name with
    | Some value => (value, w)
    | None => ("$" +:+ name, afterLogs [missingEnvError name] w)
    end.
Proof. unfold lookupFunc, bind, LookupEnv. by destruct (environ w !! name). Qed.

(** X24.  The expansion changes nothing but the log, and every record it
    adds is the error for a variable that is not set; so a text whose
    variables are all set is expanded without a trace. *)
Theorem expandEnv_effects (s : string) (w : World) :
  exists evs,
    snd (expandEnv s w) = afterLogs evs w
    /\ Forall (fun e => exists name, environ w !! name = None /\ e = missingEnvError name) evs.
Proof.
  assert (forall env text skip w0, environ w0 = env ->
            exists evs,
              snd (expandFrom skip text lookupFunc w0) = afterLogs evs w0
              /\ Forall (fun e => exists name, env !! name = None /\ e = missingEnvError name)
                        evs) as Hgen.
  { intros env text. induction text as [|c rest IH]; intros skip w0 He; simpl.
    { exists []. by rewrite PipelineMore.afterLogs_nil. }
    destruct skip as [|k]; [|by apply IH].
    assert (forall n w1, environ w1 = env ->
              exists evs, snd (let (tail, w2) := expandFrom n rest lookupFunc w1 in
                               (String c tail, w2)) = afterLogs evs w1
                /\ Forall (fun e => exists name, env !! name = None
                                                 /\ e = missingEnvError name) evs) as Hkeep.
    { intros n w1 He1. destruct (IH n w1 He1) as (evs & Hw & Hall).
      exists evs. by destruct (expandFrom n rest lookupFunc w1). }
    destruct (Ascii.eqb c "$" && negb (String.eqb rest EmptyString)); [|by apply Hkeep].
    destruct (getShellName rest) as [name n].
    destruct (String.eqb name EmptyString && (0 <? n)%nat); [by apply IH|].
    destruct (String.eqb name EmptyString); [by apply Hkeep|].
    unfold bind. rewrite lookupFunc_run.
    destruct (environ w0 !! name) as [value|] eqn:Hname.
    - destruct (IH n w0 He) as (evs & Hw & Hall).
      exists evs. by destruct (expandFrom n rest lookupFunc w0).
    - destruct (IH n (afterLogs [missingEnvError name] w0) He) as (evs & Hw & Hall).
      exists (missingEnvError name :: evs).
      destruct (expandFrom n rest lookupFunc _) as [tail w2]. simpl in Hw |- *.
      rewrite Hw, PipelineMore.afterLogs_app. split; [done|].
      constructor; [|done]. exists name. by rewrite <- He. }
  by apply (Hgen (environ w) s O w).
Qed.

Lemma closingBrace_noBrace (s : string) : forall i,
  noBrace s = true -> closingBrace s i = None.
Proof.
  induction s as [|c rest IH]; intros i; simpl; [done|].
  intros [Hc Hrest]%andb_prop. apply negb_true_iff in Hc. rewrite Hc. by apply IH.
Qed.

Lemma expandFrom_dollar (rest : string) (mapping : string -> M string) :
  String.eqb rest EmptyString = false ->
  expandFrom 0 (String "$" rest) mapping
  = (let (name, n) := getShellName rest in
     if String.eqb name EmptyString && (0 <? n)%nat then expandFrom n rest mapping
     else if String.eqb name EmptyString then
       tail <- expandFrom n rest mapping ;; ret (String "$" tail)
     else
       value <- mapping name ;; tail <- expandFrom n rest mapping ;; ret (value +:+ tail)).
Proof. intros Hrest. simpl. by rewrite Hrest. Qed.

(** X25.  What is not a reference.  A dollar sign before a byte that can
    neither begin a name nor is an opening brace is kept, and so is one at
    the end of the text.  Empty braces after a dollar sign are dropped with
    it, and so is an opening brace that is never closed, the text after it
    being expanded as usual. *)
Theorem expandEnv_malformed (w : World) :
  (forall c rest,
     isAlphaNum c = false -> isShellSpecialVar c = false -> Ascii.eqb c "{" = false ->
     expandEnv (String "$" (String c rest)) w
     = (String "$" (fst (expandEnv (String c rest) w)), snd (expandEnv (String c rest) w)))
  /\ expandEnv "$" w = ("$", w)
  /\ (forall post, expandEnv ("${}" +:+ post) w = expandEnv post w)
  /\ (forall rest, noBrace rest = true -> expandEnv ("${" +:+ rest) w = expandEnv rest w).
Proof.
  split; [|split; [done|split]].
  - intros c rest Halpha Hspecial Hbrace. unfold expandEnv, Expand.
    rewrite expandFrom_dollar by done.
    assert (getShellName (String c rest) = (EmptyString, O)) as ->.
    { cbn [getShellName alphaNumPrefix]. by rewrite Hbrace, Hspecial, Halpha. }
    cbn [String.eqb andb Nat.ltb Nat.leb]. unfold bind.
    by destruct (expandFrom 0 (String c rest) lookupFunc w).
  - intros post. rewrite !append_cons, append_nil_l. unfold expandEnv, Expand.
    destruct post as [|c post]; reflexivity.
  - intros rest Hrest. rewrite !append_cons, append_nil_l. unfold expandEnv, Expand.
    cbn [expandFrom Ascii.eqb Bool.eqb String.eqb andb negb getShellName].
    assert (bracedName (String "{" rest) rest = (EmptyString, 1%nat)) as Hbraced.
    { unfold bracedName. by rewrite closingBrace_noBrace. }
    assert (getShellName (String "{" rest) = (EmptyString, 1%nat)) as Hshell.
    { cbn [getShellName Ascii.eqb Bool.eqb].
      destruct rest as [|c1 [|c2 rest]]; try exact Hbraced.
      simpl in Hrest. apply andb_prop in Hrest as [_ [Hc2 _]%andb_prop].
      apply negb_true_iff in Hc2. rewrite Hc2, andb_false_r. exact Hbraced. }
    cbn [getShellName Ascii.eqb Bool.eqb] in Hshell. rewrite Hshell. reflexivity.
Qed.

(** X26.  A dollar sign before one of the bytes [*#$@!?-0123456789] is a
    reference to the variable of that one byte, with or without braces; what
    follows the byte is not part of the name.  So two dollar signs are a
    reference to the variable [$]. *)
Theorem expandEnv_special_variable (w : World) (c : ascii) (post : string) :
  isShellSpecialVar c = true ->
  fst (expandEnv (String "$" (String c post)) w)
  = resolve w (String c EmptyString) +:+ fst (expandEnv post w)
  /\ fst (expandEnv ("${" +:+ String c ("}" +:+ post)) w)
     = resolve w (String c EmptyString) +:+ fst (expandEnv post w).
Proof.
  intros Hspecial.
  assert (Ascii.eqb c "{" = false) as Hbrace.
  { destruct (Ascii.eqb_spec c "{") as [->|]; [done|done]. }
  split.
  - apply (expandEnv_reference w (String c EmptyString) post (String c EmptyString));
      [done|done|].
    rewrite append_cons, append_nil_l. cbn [getShellName]. by rewrite Hbrace, Hspecial.
  - rewrite !append_cons, append_nil_l.
    apply (expandEnv_reference w (String "{" (String c "}")) post (String c EmptyString));
      [done|done|].
    rewrite !append_cons, append_nil_l. cbn [getShellName Ascii.eqb Bool.eqb].
    by rewrite Hspecial.
Qed.

Import Examples.

Lemma expandEnv_no_reference_witness :
  expandEnv "pg://db.local:5432/app" worldEnv = ("pg://db.local:5432/app", worldEnv).
Proof. apply expandEnv_no_reference. reflexivity. Defined.

Lemma expandEnv_special_variable_witness :
  fst (expandEnv "$$x" worldEnv) = resolve worldEnv "$" +:+ fst (expandEnv "x" worldEnv).
Proof.
  destruct (expandEnv_special_variable worldEnv "$" "x" eq_refl) as [Hplain _].
  exact Hplain.
Defined.

End ConnectionMore.

(** * From the classifier to the pipeline *)

Module EndToEnd.
Section EndToEnd.
Context {ext : External}.

Import Classifier Scanner Pipeline Spec Notions ClassifierProps ScannerProps.

Lemma NewQuery_registered ctx qc mfs q mf c t :
  NewQuery ctx qc mfs = Ok q -> mf ∈ mfs -> (c, t) ∈ registrations mf ->
  columnTypes q !! c = Some t.
Proof.
  rewrite NewQuery_registerAll. intros Hq. apply rbind_Ok in Hq as (ct & Hr & [= <-]). simpl.
  apply registerAll_Ok in Hr as (_ & Hregs & _).
  intros Hmf Hin. apply Hregs. unfold allRegistrations. apply elem_of_concat.
  exists (registrations mf). split; [done|]. apply list_elem_of_fmap. by exists mf.
Qed.

Lemma scanDest_Ok_columns q rows dest :
  scanDest q rows = Ok dest ->
  forall c, is_Some (columnTypes q !! c) -> c ∈ rowsColumns rows.
Proof.
  intros Hok c Hc.
  assert (rowsClosed rows = false) as Hopen.
  { revert Hok. unfold scanDest, Columns. by destruct (rowsClosed rows). }
  destruct (decide (c ∈ rowsColumns rows)) as [|Hnot]; [done|].
  destruct (scanDest_spec q rows Hopen) as [Hfail _].
  destruct Hfail as (missing & Herr & _); [by exists c|]. congruence.
Qed.

(** X27.  In a row scanned for a query that was built, after the
    destination cells could be built for its result set, every column a
    metric family filters on, every source column of a lag calculation and
    every key label is present, as a nullable string.  So in a collection a
    filter never meets an absent column, and a lag is always computed from a
    text, never from a native timestamp. *)
Theorem scanned_row_has_text_sources (ctx : string) (qc : QueryConfig)
    (mfs : list MetricFamily) (q : Query) (rows0 rows : Rows) (dest0 dest dest' : list Slot)
    (w w' : World) (row : loc) :
  NewQuery ctx qc mfs = Ok q ->
  scanDest q rows0 = Ok dest0 -> rowsColumns rows = rowsColumns rows0 ->
  scanRow q rows dest w = ((Returned row, dest'), w') ->
  forall mf, mf ∈ mfs ->
    (forall f, f ∈ RowFilters (config mf) ->
       exists s valid, rowAt w' row !! Column f = Some (NullString s valid))
    /\ (forall lc, lc ∈ LagCalculations (config mf) ->
          exists s valid, rowAt w' row !! SourceColumn lc = Some (NullString s valid))
    /\ (forall k, k ∈ KeyLabels (config mf) ->
          exists s valid, rowAt w' row !! k = Some (NullString s valid)).
Proof.
  intros Hq Hdest Hcols Hrun mf Hmf.
  assert (forall c, (c, columnTypeKey) ∈ registrations mf ->
            exists s valid, rowAt w' row !! c = Some (NullString s valid)) as Hkey.
  { intros c Hin.
    pose proof (NewQuery_registered ctx qc mfs q mf c columnTypeKey Hq Hmf Hin) as Ht.
    assert (c ∈ rowsColumns rows) as Hc.
    { rewrite Hcols. eapply scanDest_Ok_columns; [exact Hdest|by eexists]. }
    destruct (ScannerMore.scanRow_picked q rows dest w row dest' w' c columnTypeKey Hrun Hc Ht)
      as (i & slot & v & _ & _ & _ & Hfit & Hval & Hv).
    unfold slotFits in Hfit. rewrite Ht in Hfit.
    destruct slot as [s valid| | |]; try done. simpl in Hval. injection Hval as <-.
    by exists s, valid. }
  unfold registrations in Hkey. split; [|split].
  - intros f Hf. apply Hkey. rewrite !elem_of_app. right; left.
    apply list_elem_of_fmap. by exists f.
  - intros lc Hlc. apply Hkey. rewrite !elem_of_app. left.
    apply list_elem_of_fmap. by exists lc.
  - intros k Hk. apply Hkey. rewrite !elem_of_app. right; right; left.
    apply list_elem_of_fmap. by exists k.
Qed.

End EndToEnd.

Import Classifier Scanner Spec Examples MoreExamples.

Lemma scanned_row_has_text_sources_witness :
  exists q, @NewQuery sampleExternal "job=db" sampleQueryConfig [lagFamily] = Ok q
    /\ exists s valid,
         rowAt (snd (@scanRow sampleExternal q rowsLag destLag world0)) 1%positive
           !! "updated_at" = Some (NullString s valid).
Proof.
  eexists. split; [vm_compute; reflexivity|].
  match goal with |- context [@scanRow _ ?q0 _ _ _] => set (Q := q0) end.
  assert (@NewQuery sampleExternal "job=db" sampleQueryConfig [lagFamily] = Ok Q) as HQ
    by (vm_compute; reflexivity).
  assert (scanDest Q rowsLag = Ok destLag) as Hdest by (vm_compute; reflexivity).
  destruct (@scanRow sampleExternal Q rowsLag destLag world0) as [[o dest'] w'] eqn:Hrun.
  assert (o = Returned 1%positive) as ->.
  { change o with (fst (fst (o, dest', w'))). rewrite <- Hrun. vm_compute. reflexivity. }
  destruct (@scanned_row_has_text_sources sampleExternal "job=db" sampleQueryConfig
              [lagFamily] Q rowsLag rowsLag destLag destLag dest' world0 w' 1%positive
              HQ Hdest eq_refl Hrun lagFamily (list_elem_of_here _ _)) as (_ & Hlag & _).
  apply (Hlag (mkLagCalculation "updated_at" "lag_seconds" EmptyString)).
  apply list_elem_of_here.
Defined.

End EndToEnd.
